(** * HOG: histogram-of-oriented-gradients descriptor extraction

    A shallow embedding of the class [HOG] (HOG.hpp / HOG.cpp) and the
    properties of its descriptor pipeline: construction, the cell pass
    ([process], [process_cell]), block retrieval ([retrieve]) and the block
    normalisation functions.

    Conventions of the embedding:
    - [size_t] is the 64-bit unsigned type and [int] the 32-bit signed type
      of an LP64 platform; both are carried as [Z] with the conversions and
      the wrap-around written out ([to_size_t], [to_int]).
    - [HOG::TType] ([float]) is a parameter of the development, given by the
      interface [TTypeOps].  Two instances are provided: [binary32], the
      IEEE-754 single precision format computed with the Standard Library's
      [SpecFloat], and [ideal], exact real arithmetic.
    - C++ exceptions, undefined behaviour and non-termination are distinct
      results of a call ([outcome]). *)

From Stdlib Require Import String.
From Stdlib Require Import ZArith List Bool Lia.
From Stdlib Require Import Reals Lra.
From Stdlib Require Import SpecFloat.
Import ListNotations.

Local Open Scope Z_scope.

(** ** Machine integers *)

Definition size_t_modulus : Z := 2 ^ 64.
Definition int_min : Z := - 2 ^ 31.
Definition int_max : Z := 2 ^ 31 - 1.

(** Conversion of an integer value to [size_t]: reduction modulo 2^64. *)
Definition to_size_t (z : Z) : Z := z mod size_t_modulus.

(** Conversion of an integer value to [int]: the value itself when it fits,
    the two's complement reduction otherwise. *)
Definition to_int (z : Z) : Z := (z + 2 ^ 31) mod 2 ^ 32 - 2 ^ 31.

Definition is_size_t (z : Z) : Prop := 0 <= z < size_t_modulus.
Definition is_int (z : Z) : Prop := int_min <= z <= int_max.

(** ** Results of a call *)

Inductive exn : Type :=
| runtime_error (what : string)   (* std::runtime_error *)
| out_of_range                    (* std::out_of_range, from vector::at *)
| cv_exception.                   (* cv::Exception, from a failed CV_Assert *)

Inductive undefined_behaviour : Type :=
| division_by_zero
| index_out_of_bounds
| signed_overflow
| null_dereference
| float_to_int_out_of_range.

Inductive outcome (A : Type) : Type :=
| Normal (a : A)
| Throw (e : exn)
| Undefined (u : undefined_behaviour)
| OutOfFuel.

Arguments Normal {A} a.
Arguments Throw {A} e.
Arguments Undefined {A} u.
Arguments OutOfFuel {A}.

Definition bind {A B : Type} (m : outcome A) (f : A -> outcome B) : outcome B :=
  match m with
  | Normal a => f a
  | Throw e => Throw e
  | Undefined u => Undefined u
  | OutOfFuel => OutOfFuel
  end.

Notation "x <- m ;; k" := (bind m (fun x => k))
  (at level 61, m at next level, right associativity).

(** Unsigned division of two [size_t] values. *)
Definition size_div (a b : Z) : outcome Z :=
  if b =? 0 then Undefined division_by_zero else Normal (a / b).

(** Remainder of two [size_t] values. *)
Definition size_mod (a b : Z) : outcome Z :=
  if b =? 0 then Undefined division_by_zero else Normal (a mod b).

(** Subtraction of two [int] values. *)
Definition int_sub (a b : Z) : outcome Z :=
  let d := a - b in
  if (int_min <=? d) && (d <=? int_max) then Normal d
  else Undefined signed_overflow.

(** Run a body over a list of loop indices, threading a loop-carried value. *)
Fixpoint for_each {I A : Type} (l : list I) (body : I -> A -> outcome A)
  (a : A) : outcome A :=
  match l with
  | [] => Normal a
  | i :: l' => a' <- body i a ;; for_each l' body a'
  end.

(** The indices visited by [for (size_t i = lo; i < hi; ++i)]. *)
Definition zrange (lo hi : Z) : list Z :=
  map (fun k => lo + Z.of_nat k) (seq 0 (Z.to_nat (hi - lo))).

(** ** Vectors *)

(** [v[n] = x] on a position inside the vector. *)
Fixpoint list_set {A : Type} (n : nat) (x : A) (l : list A) : list A :=
  match l, n with
  | [], _ => []
  | _ :: l', O => x :: l'
  | y :: l', S n' => y :: list_set n' x l'
  end.

(** [std::vector::resize(n)], new elements being value-initialised to [d]. *)
Definition resize {A : Type} (n : nat) (d : A) (l : list A) : list A :=
  firstn n l ++ repeat d (n - length l).

(** ** The element type [HOG::TType] *)

Class TTypeOps (TType : Type) : Type := {
  f_of_Z : Z -> TType;                  (* conversion of an integer value *)
  f_add : TType -> TType -> TType;
  f_sub : TType -> TType -> TType;
  f_mul : TType -> TType -> TType;
  f_div : TType -> TType -> TType;
  f_sqrt : TType -> TType;              (* std::sqrt *)
  f_eqb : TType -> TType -> bool;       (* == *)
  f_ltb : TType -> TType -> bool;       (* <  *)
  f_leb : TType -> TType -> bool;       (* <= *)
  f_to_int : TType -> option Z;         (* static_cast<int>; None: not representable *)
  f_epsilon : TType;                    (* the constant 1e-6 stored in a float *)
  f_lit_0_2f : TType;                   (* the literal 0.2f *)
  f_gt_0_2 : TType -> bool              (* x > 0.2, compared in double *)
}.

(** *** IEEE-754 single precision *)

Module Binary32.
Definition prec : Z := 24.
Definition emax : Z := 128.
Definition dprec : Z := 53.
Definition demax : Z := 1024.

Definition of_Z (z : Z) : spec_float := binary_normalize prec emax z 0 false.

(** float to double: exact, the value is representable. *)
Definition to_double (x : spec_float) : spec_float :=
  match x with
  | S754_finite s m e =>
      binary_normalize dprec demax (if s then Z.neg m else Z.pos m) e s
  | _ => x
  end.

(** double to float, round to nearest even. *)
Definition of_double (x : spec_float) : spec_float :=
  match x with
  | S754_finite s m e =>
      binary_normalize prec emax (if s then Z.neg m else Z.pos m) e s
  | _ => x
  end.

Definition double_of_Z (z : Z) : spec_float :=
  binary_normalize dprec demax z 0 false.

(** The double literals 1e-6 and 0.2 (nearest doubles of 1/10^6 and 1/5). *)
Definition double_1e_6 : spec_float :=
  SFdiv dprec demax (double_of_Z 1) (double_of_Z 1000000).
Definition double_0_2 : spec_float :=
  SFdiv dprec demax (double_of_Z 1) (double_of_Z 5).

(** Truncation toward zero. *)
Definition trunc (x : spec_float) : option Z :=
  match x with
  | S754_zero _ => Some 0
  | S754_finite s m e =>
      let a := match e with
               | Z.neg p => Z.pos m / 2 ^ Z.pos p
               | _ => Z.pos m * 2 ^ e
               end in
      let v := if s then - a else a in
      if (int_min <=? v) && (v <=? int_max) then Some v else None
  | _ => None
  end.

Definition gtb (x y : spec_float) : bool :=
  match SFcompare x y with Some Gt => true | _ => false end.

(** The real number that a finite float stands for (0 for the others). *)
Definition value (x : spec_float) : R :=
  match x with
  | S754_finite s m e =>
      ((if s then -1 else 1) * IZR (Z.pos m) * powerRZ 2 e)%R
  | _ => 0%R
  end.
End Binary32.

#[export] Instance binary32 : TTypeOps spec_float := {
  f_of_Z := Binary32.of_Z;
  f_add := SFadd Binary32.prec Binary32.emax;
  f_sub := SFsub Binary32.prec Binary32.emax;
  f_mul := SFmul Binary32.prec Binary32.emax;
  f_div := SFdiv Binary32.prec Binary32.emax;
  f_sqrt := SFsqrt Binary32.prec Binary32.emax;
  f_eqb := SFeqb;
  f_ltb := SFltb;
  f_leb := SFleb;
  f_to_int := Binary32.trunc;
  f_epsilon := Binary32.of_double Binary32.double_1e_6;
  f_lit_0_2f := SFdiv Binary32.prec Binary32.emax (Binary32.of_Z 1) (Binary32.of_Z 5);
  f_gt_0_2 := fun x => Binary32.gtb (Binary32.to_double x) Binary32.double_0_2
}.

(** *** Exact real arithmetic *)

Module Ideal.
Local Open Scope R_scope.

(** Truncation toward zero of a real number. *)
Definition Rtrunc (x : R) : Z :=
  if Rle_dec 0 x then Int_part x else (- Int_part (- x))%Z.

Definition trunc (x : R) : option Z :=
  let v := Rtrunc x in
  if ((int_min <=? v) && (v <=? int_max))%Z then Some v else None.

Definition eqb (x y : R) : bool := if Req_EM_T x y then true else false.
Definition ltb (x y : R) : bool := if Rlt_dec x y then true else false.
Definition leb (x y : R) : bool := if Rle_dec x y then true else false.

Definition epsilon : R := 1 / 1000000.
End Ideal.

#[export] Instance ideal : TTypeOps R := {
  f_of_Z := IZR;
  f_add := Rplus;
  f_sub := Rminus;
  f_mul := Rmult;
  f_div := Rdiv;
  f_sqrt := sqrt;
  f_eqb := Ideal.eqb;
  f_ltb := Ideal.ltb;
  f_leb := Ideal.leb;
  f_to_int := Ideal.trunc;
  f_epsilon := Ideal.epsilon;
  f_lit_0_2f := (1 / 5)%R;
  f_gt_0_2 := fun x => Ideal.ltb (1 / 5)%R x
}.

(** ** OpenCV data *)

(** [cv::Rect]: four [int] fields. *)
Record Rect : Type := mkRect {
  rect_x : Z;
  rect_y : Z;
  rect_width : Z;
  rect_height : Z
}.

Definition Rect_wf (r : Rect) : Prop :=
  is_int (rect_x r) /\ is_int (rect_y r) /\
  is_int (rect_width r) /\ is_int (rect_height r).

(** [cv::Mat], single channel: the two [int] dimensions and the [data]
    pointer, null for an empty matrix; the element of row [i], column [j]
    is [d i j]. *)
Record Mat (A : Type) : Type := mkMat {
  rows : Z;
  cols : Z;
  data : option (Z -> Z -> A)
}.

Arguments mkMat {A} rows cols data.
Arguments rows {A} m.
Arguments cols {A} m.
Arguments data {A} m.

(** [cv::Mat()] *)
Definition Mat_empty {A : Type} : Mat A := mkMat 0 0 None.

(** [cv::Mat(m, roi)]: a view of [m]; OpenCV asserts that the rectangle
    lies inside the matrix. *)
Definition Mat_roi {A : Type} (m : Mat A) (roi : Rect) : outcome (Mat A) :=
  if (0 <=? rect_x roi) && (0 <=? rect_width roi)
     && (rect_x roi + rect_width roi <=? cols m)
     && (0 <=? rect_y roi) && (0 <=? rect_height roi)
     && (rect_y roi + rect_height roi <=? rows m)
  then Normal (mkMat (rect_height roi) (rect_width roi)
                 (option_map (fun d i j => d (rect_y roi + i) (rect_x roi + j))
                    (data m)))
  else Throw cv_exception.

(** [m.ptr<T>(i)[j]] *)
Definition Mat_at {A : Type} (m : Mat A) (i j : Z) : outcome A :=
  match data m with
  | Some d => Normal (d i j)
  | None => Undefined null_dereference
  end.

(** ** The class [HOG] *)

Definition GRADIENT_SIGNED : Z := 360.
Definition GRADIENT_UNSIGNED : Z := 180.

Section HOG.
Context {TType : Type} {ops : TTypeOps TType}.

Definition THist : Type := list TType.

Definition epsilon : TType := f_epsilon.

(** [0.0f], and the value of a value-initialised vector element. *)
Definition zero : TType := f_of_Z 0.

(** *** Block normalisation *)

(** [std::accumulate(begin, end, init)] *)
Definition accumulate (v : THist) (init : TType) : TType :=
  fold_left f_add v init.

Definition L1norm (v : THist) : THist :=
  let den := f_add (accumulate v zero) epsilon in
  if negb (f_eqb den (f_of_Z 0))
  then map (fun nom => f_div nom den) v
  else v.

Definition L1sqrt (v : THist) : THist :=
  map (fun x => f_sqrt x) (L1norm v).

Definition L2norm (v : THist) : THist :=
  let temp := map (fun x => f_mul x x) v in
  let den := accumulate temp zero in
  let den := f_sqrt (f_add den epsilon) in
  if negb (f_eqb den (f_of_Z 0))
  then map (fun nom => f_div nom den) v
  else v.

Definition clip (x : TType) : TType :=
  if f_gt_0_2 x then f_lit_0_2f
  else if f_ltb x (f_of_Z 0) then zero
  else x.

Definition L2hys (v : THist) : THist :=
  L2norm (map clip (L2norm v)).

Definition none (v : THist) : THist := v.

(** *** Data members *)

Record HOG : Type := mkHOG {
  _blocksize : Z;
  _cellsize : Z;
  _stride : Z;
  _grad_type : Z;
  _binning : Z;
  _bin_width : Z;
  _n_cells_per_block_y : Z;
  _n_cells_per_block_x : Z;
  _n_cells_per_block : Z;
  _block_hist_size : Z;
  _stride_unit : Z;
  _block_norm : THist -> THist;
  _n_cells_y : Z;
  _n_cells_x : Z;
  mag : Mat TType;
  ori : Mat TType;
  _cell_hists : list (list THist)
}.

Definition set_cell_hists (g : list (list THist)) (h : HOG) : HOG :=
  mkHOG (_blocksize h) (_cellsize h) (_stride h) (_grad_type h) (_binning h)
    (_bin_width h) (_n_cells_per_block_y h) (_n_cells_per_block_x h)
    (_n_cells_per_block h) (_block_hist_size h) (_stride_unit h)
    (_block_norm h) (_n_cells_y h) (_n_cells_x h) (mag h) (ori h) g.

Definition set_mag_ori (m o : Mat TType) (h : HOG) : HOG :=
  mkHOG (_blocksize h) (_cellsize h) (_stride h) (_grad_type h) (_binning h)
    (_bin_width h) (_n_cells_per_block_y h) (_n_cells_per_block_x h)
    (_n_cells_per_block h) (_block_hist_size h) (_stride_unit h)
    (_block_norm h) (_n_cells_y h) (_n_cells_x h) m o (_cell_hists h).

Definition set_n_cells (ny nx : Z) (h : HOG) : HOG :=
  mkHOG (_blocksize h) (_cellsize h) (_stride h) (_grad_type h) (_binning h)
    (_bin_width h) (_n_cells_per_block_y h) (_n_cells_per_block_x h)
    (_n_cells_per_block h) (_block_hist_size h) (_stride_unit h)
    (_block_norm h) ny nx (mag h) (ori h) (_cell_hists h).

(** *** Construction *)

Definition throw_if (c : bool) (what : string) : outcome unit :=
  if c then Throw (runtime_error what) else Normal tt.

Definition check_ctor_params (blocksize cellsize stride binning grad_type : Z)
  : outcome unit :=
  _ <- throw_if (blocksize <? 2)
         "HOG::HOG(): blocksize must be at least 2 pixels!" ;;
  _ <- throw_if (cellsize <? 1)
         "HOG::HOG(): cellsize must be at least 1 pixels!" ;;
  _ <- throw_if (binning <? 2)
         "HOG::HOG(): binning should at least be greater or equal to 2!" ;;
  _ <- throw_if (negb (grad_type =? GRADIENT_UNSIGNED)
                 && negb (grad_type =? GRADIENT_SIGNED))
         "HOG::HOG(): grad_type entered doesn't match the default identifiers!" ;;
  r <- size_mod blocksize cellsize ;;
  _ <- throw_if (negb (r =? 0))
         "HOG::HOG(): blocksize must be a multiple of cellsize!" ;;
  r <- size_mod stride cellsize ;;
  throw_if (negb (r =? 0))
    "HOG::HOG(): stride must be a multiple of cellsize!".

(** The constructor with all parameters.  The member initialisers run in
    the order of declaration of the members, and the body, which calls
    [check_ctor_params], runs after them.  [_n_cells_y] and [_n_cells_x]
    are left uninitialised by the constructor (carried as 0). *)
Definition HOG_ctor (blocksize cellsize stride binning grad_type : Z)
  (block_norm : THist -> THist) : outcome HOG :=
  bin_width <- size_div grad_type binning ;;
  n_cells_per_block_y <- size_div blocksize cellsize ;;
  let n_cells_per_block_x := n_cells_per_block_y in
  let n_cells_per_block :=
    to_size_t (n_cells_per_block_y * n_cells_per_block_x) in
  let block_hist_size := to_size_t (binning * n_cells_per_block) in
  stride_unit <- size_div stride cellsize ;;
  _ <- check_ctor_params blocksize cellsize stride binning grad_type ;;
  Normal (mkHOG blocksize cellsize stride grad_type binning bin_width
            n_cells_per_block_y n_cells_per_block_x n_cells_per_block
            block_hist_size stride_unit block_norm 0 0 Mat_empty Mat_empty []).

(** [HOG(blocksize, block_norm)] *)
Definition HOG_ctor1 (blocksize : Z) (block_norm : THist -> THist) :=
  HOG_ctor blocksize (blocksize / 2) (blocksize / 2) 9 GRADIENT_UNSIGNED
    block_norm.

(** [HOG(blocksize, cellsize, block_norm)] *)
Definition HOG_ctor2 (blocksize cellsize : Z) (block_norm : THist -> THist) :=
  HOG_ctor blocksize cellsize (blocksize / 2) 9 GRADIENT_UNSIGNED block_norm.

(** [HOG(blocksize, cellsize, stride, block_norm)] *)
Definition HOG_ctor3 (blocksize cellsize stride : Z)
  (block_norm : THist -> THist) :=
  HOG_ctor blocksize cellsize stride 9 GRADIENT_UNSIGNED block_norm.

(** *** The cell pass *)

(** OpenCV's gradient computation ([cv::filter2D] with the two derivative
    kernels, then [cv::magnitude] and [cv::phase] in degrees), as called
    by [magnitude_and_orientation]: from the image to the magnitude and
    orientation matrices. *)
Variable Pixel : Type.
Variable cv_gradient : Mat Pixel -> Mat TType * Mat TType.

Definition clear_internals (h : HOG) : HOG := set_cell_hists [] h.

Definition magnitude_and_orientation (img : Mat Pixel) (h : HOG) : HOG :=
  set_mag_ori (fst (cv_gradient img)) (snd (cv_gradient img)) h.

(** [cell_hist.at(k) += m], [k] being an [int] converted to [size_t]. *)
Definition at_add (cell_hist : THist) (k : Z) (m : TType) : outcome THist :=
  let n := to_size_t k in
  if n <? Z.of_nat (length cell_hist)
  then Normal (list_set (Z.to_nat n)
                 (f_add (nth (Z.to_nat n) cell_hist zero) m) cell_hist)
  else Throw out_of_range.

(** [cell_hist.at(static_cast<int>(orientation / _bin_width)) += magnitude] *)
Definition vote (h : HOG) (orientation magnitude : TType) (cell_hist : THist)
  : outcome THist :=
  match f_to_int (f_div orientation (f_of_Z (_bin_width h))) with
  | Some k => at_add cell_hist k magnitude
  | None => Undefined float_to_int_out_of_range
  end.

(** [if (orientation >= 180) orientation -= 180;] *)
Definition fold_orientation (orientation : TType) : TType :=
  if f_leb (f_of_Z 180) orientation
  then f_sub orientation (f_of_Z 180)
  else orientation.

Definition process_cell (h : HOG) (cell_mag cell_ori : Mat TType)
  : outcome THist :=
  let cell_hist := repeat zero (Z.to_nat (_binning h)) in
  if _grad_type h =? GRADIENT_SIGNED then
    for_each (zrange 0 (to_size_t (rows cell_mag))) (fun i cell_hist =>
      for_each (zrange 0 (to_size_t (cols cell_mag))) (fun j cell_hist =>
        o <- Mat_at cell_ori i j ;;
        m <- Mat_at cell_mag i j ;;
        vote h o m cell_hist) cell_hist) cell_hist
  else
    for_each (zrange 0 (to_size_t (rows cell_mag))) (fun i cell_hist =>
      for_each (zrange 0 (to_size_t (cols cell_mag))) (fun j cell_hist =>
        o <- Mat_at cell_ori i j ;;
        m <- Mat_at cell_mag i j ;;
        vote h (fold_orientation o) m cell_hist) cell_hist) cell_hist.

(** Loops of [process]: the body updates the object, and an exception
    leaves the object as the body left it. *)
Fixpoint for_each_st {I S : Type} (l : list I)
  (body : I -> S -> outcome unit * S) (s : S) : outcome unit * S :=
  match l with
  | [] => (Normal tt, s)
  | i :: l' =>
      match body i s with
      | (Normal _, s') => for_each_st l' body s'
      | r => r
      end
  end.

(** [static_cast<int>(v / _cellsize)] stored in a [size_t]: [v] is an
    [int], converted to [size_t] for the unsigned division.  Every
    constructed object has [_cellsize >= 1]. *)
Definition cell_units (v cellsize : Z) : Z :=
  to_size_t (to_int (to_size_t v / cellsize)).

(** [_cell_hists[i].resize(_n_cells_x)] *)
Definition resize_row (i : Z) (h : HOG) : outcome unit * HOG :=
  if i <? Z.of_nat (length (_cell_hists h)) then
    let row := nth (Z.to_nat i) (_cell_hists h) [] in
    (Normal tt,
     set_cell_hists
       (list_set (Z.to_nat i) (resize (Z.to_nat (_n_cells_x h)) [] row)
          (_cell_hists h)) h)
  else (Undefined index_out_of_bounds, h).

(** [_cell_hists[i][j] = cell_hist] *)
Definition store_cell (i j : Z) (cell_hist : THist) (h : HOG)
  : outcome unit * HOG :=
  if i <? Z.of_nat (length (_cell_hists h)) then
    let row := nth (Z.to_nat i) (_cell_hists h) [] in
    if j <? Z.of_nat (length row) then
      (Normal tt,
       set_cell_hists
         (list_set (Z.to_nat i) (list_set (Z.to_nat j) cell_hist row)
            (_cell_hists h)) h)
    else (Undefined index_out_of_bounds, h)
  else (Undefined index_out_of_bounds, h).

(** The rectangle of cell [(i, j)]: [size_t] products converted to [int]. *)
Definition cell_rect (h : HOG) (i j : Z) : Rect :=
  mkRect (to_int (to_size_t (j * _cellsize h)))
         (to_int (to_size_t (i * _cellsize h)))
         (to_int (_cellsize h)) (to_int (_cellsize h)).

(** The histogram of cell [(i, j)] as [process] computes it. *)
Definition cell_hist_of (h : HOG) (i j : Z) : outcome THist :=
  cell_mag <- Mat_roi (mag h) (cell_rect h i j) ;;
  cell_ori <- Mat_roi (ori h) (cell_rect h i j) ;;
  process_cell h cell_mag cell_ori.

Definition process_one (i j : Z) (h : HOG) : outcome unit * HOG :=
  match cell_hist_of h i j with
  | Normal cell_hist => store_cell i j cell_hist h
  | Throw e => (Throw e, h)
  | Undefined u => (Undefined u, h)
  | OutOfFuel => (OutOfFuel, h)
  end.

Definition process_row (i : Z) (h : HOG) : outcome unit * HOG :=
  match resize_row i h with
  | (Normal _, h') =>
      for_each_st (zrange 0 (_n_cells_x h')) (process_one i) h'
  | r => r
  end.

Definition invalid_image : exn :=
  runtime_error "HOG::process(): invalid image!".
Definition image_too_small : exn :=
  runtime_error "HOG::process(): the image is smaller than blocksize!".

Definition process (img : Mat Pixel) (h : HOG) : outcome unit * HOG :=
  match data img with
  | None => (Throw invalid_image, h)
  | Some _ =>
      if (to_size_t (rows img) <? _blocksize h)
         || (to_size_t (cols img) <? _blocksize h)
      then (Throw image_too_small, h)
      else
        let h := clear_internals h in
        let h := magnitude_and_orientation img h in
        let h := set_n_cells (cell_units (rows (mag h)) (_cellsize h))
                   (cell_units (cols (mag h)) (_cellsize h)) h in
        let h := set_cell_hists
                   (resize (Z.to_nat (_n_cells_y h)) [] (_cell_hists h)) h in
        for_each_st (zrange 0 (_n_cells_y h)) process_row h
  end.

(** *** Block retrieval *)

Definition window_too_small : exn :=
  runtime_error "HOG::retrieve(): the window is smaller than blocksize!".
Definition window_outside : exn :=
  runtime_error
    "HOG::retrieve(): the window goes outside of the bounds of the image!".

(** [_cell_hists[cell_y][cell_x]], unchecked. *)
Definition cell_at (h : HOG) (cell_y cell_x : Z) : outcome THist :=
  if cell_y <? Z.of_nat (length (_cell_hists h)) then
    let row := nth (Z.to_nat cell_y) (_cell_hists h) [] in
    if cell_x <? Z.of_nat (length row)
    then Normal (nth (Z.to_nat cell_x) row [])
    else Undefined index_out_of_bounds
  else Undefined index_out_of_bounds.

(** The two inner loops of [retrieve]: the histograms of the cells of the
    block at [(block_y, block_x)], appended in row-major order. *)
Definition block_hist_at (h : HOG) (block_y block_x : Z) : outcome THist :=
  for_each
    (zrange block_y (to_size_t (block_y + _n_cells_per_block_y h)))
    (fun cell_y block_hist =>
       for_each
         (zrange block_x (to_size_t (block_x + _n_cells_per_block_x h)))
         (fun cell_x block_hist =>
            cell_hist <- cell_at h cell_y cell_x ;;
            Normal (block_hist ++ cell_hist))
         block_hist)
    [].

(** [for (block_x = x; block_x <= x+width-_n_cells_per_block_x;
         block_x += _stride_unit)] *)
Fixpoint loop_block_x (fuel : nat) (h : HOG) (x width block_y : Z)
  (block_x : Z) (hog_hist : THist) : outcome THist :=
  match fuel with
  | O => OutOfFuel
  | S fuel' =>
      if block_x <=? to_size_t (x + width - _n_cells_per_block_x h) then
        block_hist <- block_hist_at h block_y block_x ;;
        loop_block_x fuel' h x width block_y
          (to_size_t (block_x + _stride_unit h))
          (hog_hist ++ _block_norm h block_hist)
      else Normal hog_hist
  end.

(** [for (block_y = y; block_y <= y+height-_n_cells_per_block_y;
         block_y += _stride_unit)] *)
Fixpoint loop_block_y (fuel : nat) (h : HOG) (x y width height : Z)
  (block_y : Z) (hog_hist : THist) : outcome THist :=
  match fuel with
  | O => OutOfFuel
  | S fuel' =>
      if block_y <=? to_size_t (y + height - _n_cells_per_block_y h) then
        hog_hist' <- loop_block_x fuel' h x width block_y x hog_hist ;;
        loop_block_y fuel' h x y width height
          (to_size_t (block_y + _stride_unit h)) hog_hist'
      else Normal hog_hist
  end.

(** The value computed by [retrieve]; [fuel] bounds the number of
    iterations of each of the two block loops. *)
Definition retrieve_result (fuel : nat) (window : Rect) (h : HOG)
  : outcome THist :=
  if (to_size_t (rect_height window) <? _blocksize h)
     || (to_size_t (rect_width window) <? _blocksize h)
  then Throw window_too_small
  else
    dx <- int_sub (cols (mag h)) (rect_width window) ;;
    if rect_x window >? dx then Throw window_outside
    else
      dy <- int_sub (rows (mag h)) (rect_height window) ;;
      if rect_y window >? dy then Throw window_outside
      else
        let x := cell_units (rect_x window) (_cellsize h) in
        let y := cell_units (rect_y window) (_cellsize h) in
        let width := cell_units (rect_width window) (_cellsize h) in
        let height := cell_units (rect_height window) (_cellsize h) in
        loop_block_y fuel h x y width height y [].

(** [retrieve] is a member function of the object: it returns its value
    and the object as it leaves it. *)
Definition retrieve (fuel : nat) (window : Rect) (h : HOG)
  : outcome THist * HOG :=
  (retrieve_result fuel window h, h).

(** *** The descriptor as the specification states it *)

Definition cells_per_block (h : HOG) : Z := _blocksize h / _cellsize h.
Definition stride_in_cells (h : HOG) : Z := _stride h / _cellsize h.

(** Block positions along one axis: from [start], stepping
    [stride / cellsize] cells, up to and including
    [start + extent - cells_per_block]. *)
Definition block_positions (h : HOG) (start extent : Z) : list Z :=
  map (fun k => start + Z.of_nat k * stride_in_cells h)
    (seq 0 (Z.to_nat ((extent - cells_per_block h) / stride_in_cells h + 1))).

Definition grid_get (h : HOG) (cell_y cell_x : Z) : THist :=
  nth (Z.to_nat cell_x) (nth (Z.to_nat cell_y) (_cell_hists h) []) [].

(** The block vector: member cells in row-major order, normalised. *)
Definition spec_block (h : HOG) (block_y block_x : Z) : THist :=
  _block_norm h
    (concat (map (fun cell_y =>
       concat (map (fun cell_x => grid_get h cell_y cell_x)
                 (zrange block_x (block_x + cells_per_block h))))
       (zrange block_y (block_y + cells_per_block h)))).

(** The descriptor: block vectors in row-major order of block positions. *)
Definition spec_retrieve (h : HOG) (window : Rect) : THist :=
  concat (map (fun block_y =>
    concat (map (fun block_x => spec_block h block_y block_x)
              (block_positions h (rect_x window / _cellsize h)
                 (rect_width window / _cellsize h))))
    (block_positions h (rect_y window / _cellsize h)
       (rect_height window / _cellsize h))).

(** Number of block positions along an extent given in pixels, in the
    closed form used by the batch driver:
    [(crop - blocksize) / stride + 1]. *)
Definition n_blocks (h : HOG) (extent : Z) : Z :=
  (extent - _blocksize h) / _stride h + 1.

(** A window of the processed image: non-negative origin, at least one
    block in each direction, inside the gradient maps. *)
Definition valid_window (h : HOG) (window : Rect) : Prop :=
  0 <= rect_x window /\ 0 <= rect_y window /\
  _blocksize h <= rect_width window /\
  _blocksize h <= rect_height window /\
  rect_x window + rect_width window <= cols (mag h) /\
  rect_y window + rect_height window <= rows (mag h).

(** The dimensions of a [cv::Mat] are non-negative [int]s. *)
Definition Mat_wf {A : Type} (m : Mat A) : Prop :=
  0 <= rows m <= int_max /\ 0 <= cols m <= int_max.

(** The failures of [retrieve] that the specification names. *)
Inductive retrieve_failure : Type :=
| WindowTooSmall
| WindowOutOfBounds
| NotProcessed.

(** The failure the specification prescribes for a call of [retrieve]:
    [processed] tells whether a successful [process] came before. *)
Definition spec_retrieve_failure (processed : bool) (blocksize : Z)
  (map_width map_height : Z) (window : Rect) : option retrieve_failure :=
  if negb processed then Some NotProcessed
  else if (rect_height window <? blocksize) || (rect_width window <? blocksize)
  then Some WindowTooSmall
  else if (rect_x window + rect_width window >? map_width)
          || (rect_y window + rect_height window >? map_height)
  then Some WindowOutOfBounds
  else None.

(** The failure that an outcome of [retrieve] stands for. *)
Definition failure_of {A : Type} (r : outcome A) : option retrieve_failure :=
  match r with
  | Throw (runtime_error what) =>
      if String.eqb what
           "HOG::retrieve(): the window is smaller than blocksize!"
      then Some WindowTooSmall
      else if String.eqb what
           "HOG::retrieve(): the window goes outside of the bounds of the image!"
      then Some WindowOutOfBounds
      else None
  | _ => None
  end.

(** Magnitude-weighted voting as the specification states it: the bin of
    a pixel is the integer part of [effective_orientation / (gradient_range
    / bin_count)], the quotient of the range by the bin count being a
    division of [TType] values. *)
Definition spec_vote (grad_type binning : Z) (orientation magnitude : TType)
  (cell_hist : THist) : option THist :=
  let effective :=
    if grad_type =? GRADIENT_SIGNED then orientation
    else fold_orientation orientation in
  match f_to_int (f_div effective
                    (f_div (f_of_Z grad_type) (f_of_Z binning))) with
  | Some k =>
      if (0 <=? k) && (k <? Z.of_nat (length cell_hist))
      then Some (list_set (Z.to_nat k)
                   (f_add (nth (Z.to_nat k) cell_hist zero) magnitude)
                   cell_hist)
      else None
  | None => None
  end.

(** The histogram of a cell given as the list of its pixels
    [(orientation, magnitude)] in row-major order. *)
Fixpoint spec_cell_hist (grad_type binning : Z)
  (pixels : list (TType * TType)) (cell_hist : THist) : option THist :=
  match pixels with
  | [] => Some cell_hist
  | (o, m) :: rest =>
      match spec_vote grad_type binning o m cell_hist with
      | Some cell_hist' => spec_cell_hist grad_type binning rest cell_hist'
      | None => None
      end
  end.

(** The constraints on the parameters of the constructor. *)
Definition config_constraints (blocksize cellsize stride binning grad_type : Z)
  : Prop :=
  2 <= blocksize /\ 1 <= cellsize /\ 2 <= binning /\
  (grad_type = GRADIENT_UNSIGNED \/ grad_type = GRADIENT_SIGNED) /\
  blocksize mod cellsize = 0 /\ stride mod cellsize = 0.

(** The object before the loops of [process]: previous grid cleared,
    gradient maps and grid dimensions of the new image. *)
Definition prepared (img : Mat Pixel) (h : HOG) : HOG :=
  let h := clear_internals h in
  let h := magnitude_and_orientation img h in
  set_n_cells (cell_units (rows (mag h)) (_cellsize h))
    (cell_units (cols (mag h)) (_cellsize h)) h.

(** A complete row [i] of the grid. *)
Definition row_ok (hp : HOG) (i : Z) (row : list THist) : Prop :=
  Z.of_nat (length row) = _n_cells_x hp /\
  forall j, 0 <= j < _n_cells_x hp ->
    cell_hist_of hp i j = Normal (nth (Z.to_nat j) row []).

(** A call of [retrieve] returns [v] and leaves the object [h']: every
    run with enough fuel does. *)
Definition retrieve_returns (window : Rect) (h : HOG) (v : THist)
  (h' : HOG) : Prop :=
  exists N, forall fuel, (N <= fuel)%nat ->
    retrieve fuel window h = (Normal v, h').

(** The cell-histogram grid has [ny] rows of [nx] histograms. *)
Definition grid_shape (h : HOG) (ny nx : Z) : Prop :=
  Z.of_nat (length (_cell_hists h)) = ny /\
  forall i, 0 <= i < ny ->
    Z.of_nat (length (nth (Z.to_nat i) (_cell_hists h) [])) = nx.

(** The invariant of a constructed object: the [const] members satisfy
    the constraints checked by the constructor and carry the values of
    their initialisers. *)
Definition constructed (h : HOG) : Prop :=
  config_constraints (_blocksize h) (_cellsize h) (_stride h) (_binning h)
    (_grad_type h) /\
  _bin_width h = _grad_type h / _binning h /\
  _n_cells_per_block_y h = _blocksize h / _cellsize h /\
  _n_cells_per_block_x h = _n_cells_per_block_y h /\
  _n_cells_per_block h
  = to_size_t (_n_cells_per_block_y h * _n_cells_per_block_x h) /\
  _block_hist_size h = to_size_t (_binning h * _n_cells_per_block h) /\
  _stride_unit h = _stride h / _cellsize h.

(** The number of iterations of the block loops along the two axes, for an
    extent in pixels. *)
Definition steps (h : HOG) (extent : Z) : nat :=
  Z.to_nat ((extent / _cellsize h - cells_per_block h) / stride_in_cells h + 1).

(** The pixels of a cell, as pairs of an orientation and a magnitude, in
    row-major order. *)
Definition cell_pixels (cell_mag : Mat TType)
  (d_mag d_ori : Z -> Z -> TType) : list (TType * TType) :=
  flat_map (fun i =>
    map (fun j => (d_ori i j, d_mag i j))
      (zrange 0 (to_size_t (cols cell_mag))))
    (zrange 0 (to_size_t (rows cell_mag))).

End HOG.

Arguments process {TType ops Pixel} cv_gradient img h.
Arguments prepared {TType Pixel} cv_gradient img h.
Arguments magnitude_and_orientation {TType Pixel} cv_gradient img h.

(** ** A small session in single precision, for the closed examples *)

Module Demo.
(** A 4x4 image, its pixels given by their intensity. *)
Definition image : Mat Z := mkMat 4 4 (Some (fun i j => i + j)).

(** Gradient maps of the size of the image: a magnitude and an
    orientation, in degrees below 180, for every pixel. *)
Definition gradient (img : Mat Z) : Mat spec_float * Mat spec_float :=
  (mkMat (rows img) (cols img)
     (option_map (fun d i j => f_of_Z (d i j)) (data img)),
   mkMat (rows img) (cols img)
     (option_map (fun d i j => f_of_Z (20 * d i j + 10)) (data img))).

(** [HOG hog(2, 1, 1, 9, HOG::GRADIENT_UNSIGNED)], the normalisation
    being the default [L2hys]. *)
Definition fresh : @HOG spec_float :=
  mkHOG 2 1 1 180 9 20 2 2 4 36 1 L2hys 0 0 Mat_empty Mat_empty [].

(** The object after [hog.process(image)]. *)
Definition processed : @HOG spec_float := snd (process gradient image fresh).

(** [cv::Rect(1, 0, 3, 2)] *)
Definition window : Rect := mkRect 1 0 3 2.

(** A window that starts left of the image: [cv::Rect(-3, 0, 2, 2)]. *)
Definition window_left : Rect := mkRect (-3) 0 2 2.

(** [HOG hog(2, 1, 1, 7, HOG::GRADIENT_UNSIGNED)]: seven bins. *)
Definition seven_bins : @HOG spec_float :=
  mkHOG 2 1 1 180 7 25 2 2 4 28 1 L2hys 0 0 Mat_empty Mat_empty [].

(** Gradient maps with magnitude 1 and orientation 179 degrees at every
    pixel. *)
Definition steep (img : Mat Z) : Mat spec_float * Mat spec_float :=
  (mkMat (rows img) (cols img) (option_map (fun _ _ _ => f_of_Z 1) (data img)),
   mkMat (rows img) (cols img)
     (option_map (fun _ _ _ => f_of_Z 179) (data img))).

(** A cell of one pixel with the given orientation and magnitude. *)
Definition one_pixel (v : Z) : Mat spec_float :=
  mkMat 1 1 (Some (fun _ _ => f_of_Z v)).
End Demo.

(** ** Accessors, and notions used to state further properties *)

Section Notions.
Context {TType : Type} {ops : TTypeOps TType}.

(** [get_magnitudes] and [get_orientations]: the gradient maps of the
    object. *)
Definition get_magnitudes (h : @HOG TType) : Mat TType := mag h.
Definition get_orientations (h : @HOG TType) : Mat TType := ori h.

(** The orientation that [process_cell] bins: the raw orientation with
    signed gradients, the folded orientation otherwise. *)
Definition effective_orientation (h : @HOG TType) (orientation : TType) : TType :=
  if _grad_type h =? GRADIENT_SIGNED then orientation
  else fold_orientation orientation.

(** The argument of [cell_hist.at] for a pixel of the given orientation:
    [static_cast<int>(orientation / _bin_width)]. *)
Definition bin_index (h : @HOG TType) (orientation : TType) : option Z :=
  f_to_int (f_div (effective_orientation h orientation)
              (f_of_Z (_bin_width h))).

(** Every pixel of the orientation map [m], of elements [d], has a bin
    inside the histogram. *)
Definition votes_in_range (h : @HOG TType) (m : Mat TType) (d : Z -> Z -> TType)
  : Prop :=
  forall i j, 0 <= i < rows m -> 0 <= j < cols m ->
    exists k, bin_index h (d i j) = Some k /\ 0 <= k < _binning h.

(** The window with its origin and its extents rounded down to whole
    cells. *)
Definition cell_aligned (h : @HOG TType) (window : Rect) : Rect :=
  mkRect (rect_x window / _cellsize h * _cellsize h)
         (rect_y window / _cellsize h * _cellsize h)
         (rect_width window / _cellsize h * _cellsize h)
         (rect_height window / _cellsize h * _cellsize h).

(** The pixels of cell [(i, j)] of a map of elements [d], in row-major
    order. *)
Definition pixels_of_cell (c : Z) (d : Z -> Z -> TType) (i j : Z)
  : list TType :=
  flat_map (fun y => map (fun x => d (i * c + y) (j * c + x)) (zrange 0 c))
    (zrange 0 c).

End Notions.

(** ** Bin widths that are exact in single precision *)

(** Two floats are the same datum. *)
Definition float_same (x y : spec_float) : bool :=
  match x, y with
  | S754_zero a, S754_zero b => Bool.eqb a b
  | S754_infinity a, S754_infinity b => Bool.eqb a b
  | S754_nan, S754_nan => true
  | S754_finite a m e, S754_finite b m' e' =>
      Bool.eqb a b && Pos.eqb m m' && Z.eqb e e'
  | _, _ => false
  end.

(** The quotient of the range by the bin count, computed in single
    precision, is the value of [_bin_width]. *)
Definition bin_width_exact (grad_type binning : Z) : bool :=
  float_same
    (@f_div spec_float binary32 (f_of_Z grad_type) (f_of_Z binning))
    (@f_of_Z spec_float binary32 (grad_type / binning)).

(** It is so for every bin count, from 2 to the range, that divides the
    range. *)
Definition divisors_exact (grad_type : Z) : bool :=
  forallb (fun binning =>
             negb (grad_type mod binning =? 0)
             || bin_width_exact grad_type binning)
    (zrange 2 (grad_type + 1)).

(** ** Further sessions, for the closed examples *)

Module Sample.
(** [HOG hog(2, 1, 0, 9, HOG::GRADIENT_UNSIGNED)]: a stride of zero. *)
Definition still : @HOG spec_float :=
  mkHOG 2 1 0 180 9 20 2 2 4 36 0 L2hys 0 0 Mat_empty Mat_empty [].

(** The object after [still.process(image)]. *)
Definition still_processed : @HOG spec_float :=
  snd (process Demo.gradient Demo.image still).

(** The image of the small session, blanked outside of its two first rows
    and three first columns. *)
Definition image_masked : Mat Z :=
  mkMat 4 4 (Some (fun i j => if (i <? 2) && (j <? 3) then i + j else 0)).

Definition masked_processed : @HOG spec_float :=
  snd (process Demo.gradient image_masked Demo.fresh).

(** The small session in exact arithmetic: the same gradient maps with
    real elements, and [HOG hog(2, 1, 1, 9, HOG::GRADIENT_UNSIGNED,
    HOG::L2norm)]. *)
Definition exact_gradient (img : Mat Z) : Mat R * Mat R :=
  (mkMat (rows img) (cols img)
     (option_map (fun d i j => IZR (d i j)) (data img)),
   mkMat (rows img) (cols img)
     (option_map (fun d i j => IZR (20 * d i j + 10)) (data img))).

Definition exact_fresh : @HOG R :=
  mkHOG 2 1 1 180 9 20 2 2 4 36 1 (@L2norm R ideal) 0 0 Mat_empty Mat_empty [].

Definition exact_processed : @HOG R :=
  snd (process exact_gradient Demo.image exact_fresh).
End Sample.

(** ** The mask of arrows, in single and double precision *)

(** [double] arithmetic, and the two [double] literals of
    [get_vector_mask]. *)
Module Binary64.
Definition of_Z (z : Z) : spec_float := Binary32.double_of_Z z.
Definition add : spec_float -> spec_float -> spec_float :=
  SFadd Binary32.dprec Binary32.demax.
Definition mul : spec_float -> spec_float -> spec_float :=
  SFmul Binary32.dprec Binary32.demax.
Definition div : spec_float -> spec_float -> spec_float :=
  SFdiv Binary32.dprec Binary32.demax.

(** [3.1415] and [255.0]: the nearest doubles. *)
Definition lit_3_1415 : spec_float := div (of_Z 31415) (of_Z 10000).
Definition lit_255 : spec_float := of_Z 255.
End Binary64.

(** [cv::Point]: two [int] coordinates. *)
Record Point : Type := mkPoint {
  pt_x : Z;
  pt_y : Z
}.

(** [*std::max_element(begin, end)]: the first of the greatest elements;
    on an empty vector the iterator returned is [end]. *)
Fixpoint max_element_from (largest : spec_float) (l : list spec_float)
  : spec_float :=
  match l with
  | [] => largest
  | x :: l' => max_element_from (if SFltb largest x then x else largest) l'
  end.

Definition max_element (l : list spec_float) : outcome spec_float :=
  match l with
  | [] => Undefined index_out_of_bounds
  | x :: l' => Normal (max_element_from x l')
  end.

(** [v[i]], unchecked. *)
Definition vec_at {A : Type} (v : list A) (i : Z) : outcome A :=
  match nth_error v (Z.to_nat i) with
  | Some x => Normal x
  | None => Undefined index_out_of_bounds
  end.

(** [static_cast<int>] of a floating-point value. *)
Definition cast_int (x : spec_float) : outcome Z :=
  match Binary32.trunc x with
  | Some z => Normal z
  | None => Undefined float_to_int_out_of_range
  end.

Section VectorMask.
(** The image being drawn, [cv::Mat::zeros(size, CV_8U)] and [cv::line]
    with a grey level for colour, of OpenCV; [cos] and [sin] on doubles,
    of the C library. *)
Variable Canvas : Type.
Variable cv_zeros : Z -> Z -> Canvas.
Variable cv_line : Canvas -> Point -> Point -> Z -> Z -> outcome Canvas.
Variable cos : spec_float -> spec_float.
Variable sin : spec_float -> spec_float.

Local Abbreviation float := spec_float.

(** [cell_hist_maxs[i].resize(_n_cells_x)] *)
Definition maxs_resize_row (i n : Z) (cell_hist_maxs : list (list float))
  : outcome (list (list float)) :=
  row <- vec_at cell_hist_maxs i ;;
  Normal (list_set (Z.to_nat i) (resize (Z.to_nat n) (Binary32.of_Z 0) row)
            cell_hist_maxs).

(** [cell_hist_maxs[i][j] = x] *)
Definition maxs_store (i j : Z) (x : float) (cell_hist_maxs : list (list float))
  : outcome (list (list float)) :=
  row <- vec_at cell_hist_maxs i ;;
  _ <- vec_at row j ;;
  Normal (list_set (Z.to_nat i) (list_set (Z.to_nat j) x row) cell_hist_maxs).

(** The first pair of loops: the greatest bin of every cell, and the
    greatest of all. *)
Definition hist_maxima (h : @HOG float)
  : outcome (list (list float) * float) :=
  for_each (zrange 0 (_n_cells_y h)) (fun i st =>
    cell_hist_maxs <- maxs_resize_row i (_n_cells_x h) (fst st) ;;
    for_each (zrange 0 (_n_cells_x h)) (fun j st =>
      cell_hist <- cell_at h i j ;;
      cell_hist_max <- max_element cell_hist ;;
      cell_hist_maxs <- maxs_store i j cell_hist_max (fst st) ;;
      Normal (cell_hist_maxs,
              if Binary32.gtb cell_hist_max (snd st) then cell_hist_max
              else snd st))
      (cell_hist_maxs, snd st))
    (repeat [] (Z.to_nat (_n_cells_y h)), Binary32.of_Z 0).

(** [static_cast<int>(cell_hist_maxs[i][j] / max * 255.0)] *)
Definition color_magnitude (cell_hist_max max : float) : outcome Z :=
  cast_int (Binary64.mul
              (Binary32.to_double
                 (SFdiv Binary32.prec Binary32.emax cell_hist_max max))
              Binary64.lit_255).

(** [static_cast<int>((cell_hist[k] / cell_hist_maxs[i][j]) * _cellsize / 2)] *)
Definition arrow_length (h : @HOG float) (bin cell_hist_max : float)
  : outcome Z :=
  cast_int (SFdiv Binary32.prec Binary32.emax
              (SFmul Binary32.prec Binary32.emax
                 (SFdiv Binary32.prec Binary32.emax bin cell_hist_max)
                 (Binary32.of_Z (_cellsize h)))
              (Binary32.of_Z 2)).

(** [(k * _bin_width + offset) * 3.1415 / 180] *)
Definition arrow_angle (h : @HOG float) (k offset : Z) : float :=
  Binary64.div
    (Binary64.mul (Binary64.of_Z (to_size_t (k * _bin_width h + offset)))
       Binary64.lit_3_1415)
    (Binary64.of_Z 180).

(** [j*_cellsize + _cellsize / 2] *)
Definition cell_centre (h : @HOG float) (j : Z) : Z :=
  to_size_t (j * _cellsize h + _cellsize h / 2).

(** [centre + trig(angle)*length], converted to the [int] coordinate of a
    [cv::Point]. *)
Definition arrow_coord (centre : Z) (trig_of_angle : float) (length : Z)
  : outcome Z :=
  cast_int (Binary64.add (Binary64.of_Z centre)
              (Binary64.mul trig_of_angle (Binary64.of_Z length))).

(** The arrow of bin [k] of cell [(i, j)]. *)
Definition draw_arrow (h : @HOG float) (i j k length color thickness : Z)
  (vector_mask : Canvas) : outcome Canvas :=
  if _grad_type h =? GRADIENT_SIGNED then
    x2 <- arrow_coord (cell_centre h j) (cos (arrow_angle h k 0)) length ;;
    y2 <- arrow_coord (cell_centre h i) (sin (arrow_angle h k 0)) length ;;
    cv_line vector_mask
      (mkPoint (to_int (cell_centre h j)) (to_int (cell_centre h i)))
      (mkPoint x2 y2) color thickness
  else
    x1 <- arrow_coord (cell_centre h j) (cos (arrow_angle h k 180)) length ;;
    y1 <- arrow_coord (cell_centre h i) (sin (arrow_angle h k 180)) length ;;
    x2 <- arrow_coord (cell_centre h j) (cos (arrow_angle h k 0)) length ;;
    y2 <- arrow_coord (cell_centre h i) (sin (arrow_angle h k 0)) length ;;
    cv_line vector_mask (mkPoint x1 y1) (mkPoint x2 y2) color thickness.

(** The two delimiters of cell [(i, j)]. *)
Definition draw_delimiters (h : @HOG float) (i j thickness : Z)
  (vector_mask : Canvas) : outcome Canvas :=
  let x0 := to_int (to_size_t (j * _cellsize h - 1)) in
  let y0 := to_int (to_size_t (i * _cellsize h - 1)) in
  vector_mask <-
    cv_line vector_mask (mkPoint x0 y0)
      (mkPoint (to_int (to_size_t (j * _cellsize h + rows (mag h) - 1))) y0)
      255 thickness ;;
  cv_line vector_mask (mkPoint x0 y0)
    (mkPoint x0 (to_int (to_size_t (i * _cellsize h + rows (mag h) - 1))))
    255 thickness.

(** The body of the second pair of loops, for cell [(i, j)]. *)
Definition draw_cell (h : @HOG float) (cell_hist_maxs : list (list float))
  (max : float) (thickness i j : Z) (vector_mask : Canvas)
  : outcome Canvas :=
  cell_hist <- cell_at h i j ;;
  row <- vec_at cell_hist_maxs i ;;
  cell_hist_max <- vec_at row j ;;
  color <- color_magnitude cell_hist_max max ;;
  vector_mask <-
    for_each (zrange 0 (Z.of_nat (length cell_hist))) (fun k vector_mask =>
      bin <- vec_at cell_hist k ;;
      len <- arrow_length h bin cell_hist_max ;;
      if 0 <? len
      then draw_arrow h i j k len color thickness vector_mask
      else Normal vector_mask) vector_mask ;;
  draw_delimiters h i j thickness vector_mask.

Definition get_vector_mask (h : @HOG float) (thickness : Z)
  : outcome Canvas :=
  let vector_mask := cv_zeros (rows (mag h)) (cols (mag h)) in
  st <- hist_maxima h ;;
  for_each (zrange 0 (_n_cells_y h)) (fun i vector_mask =>
    for_each (zrange 0 (_n_cells_x h)) (fun j vector_mask =>
      draw_cell h (fst st) (snd st) thickness i j vector_mask) vector_mask)
    vector_mask.

End VectorMask.

(** * Properties *)

(** ** Machine integers and loops *)

Lemma to_size_t_id (z : Z) : is_size_t z -> to_size_t z = z.
Proof. unfold is_size_t, to_size_t. intros H. apply Z.mod_small. exact H. Qed.

Lemma to_int_id (z : Z) : is_int z -> to_int z = z.
Proof.
  unfold is_int, to_int, int_min, int_max. intros H.
  rewrite Z.mod_small; lia.
Qed.

Lemma int_max_size_t (z : Z) : 0 <= z <= int_max -> is_size_t z.
Proof. unfold is_size_t, int_max, size_t_modulus. lia. Qed.

Lemma cell_units_div (v c : Z) :
  0 <= v <= int_max -> 1 <= c -> cell_units v c = v / c.
Proof.
  intros Hv Hc. unfold cell_units.
  rewrite (to_size_t_id v) by (apply int_max_size_t; exact Hv).
  assert (0 <= v / c <= v).
  { split; [apply Z.div_pos; lia|]. apply Z.div_le_upper_bound; nia. }
  rewrite to_int_id by (unfold is_int, int_min, int_max in *; lia).
  apply to_size_t_id, int_max_size_t. lia.
Qed.

Lemma zrange_nil (lo hi : Z) : hi <= lo -> zrange lo hi = [].
Proof.
  intros H. unfold zrange.
  replace (Z.to_nat (hi - lo)) with O by lia. reflexivity.
Qed.

Lemma zrange_cons (lo hi : Z) :
  lo < hi -> zrange lo hi = lo :: zrange (lo + 1) hi.
Proof.
  intros H. unfold zrange.
  replace (Z.to_nat (hi - lo)) with (S (Z.to_nat (hi - (lo + 1)))) by lia.
  cbn [seq map]. f_equal; [lia|].
  rewrite <- seq_shift, map_map. apply map_ext. intros k. lia.
Qed.

Lemma zrange_length (lo hi : Z) : length (zrange lo hi) = Z.to_nat (hi - lo).
Proof. unfold zrange. rewrite length_map, length_seq. reflexivity. Qed.

Lemma zrange_In (lo hi z : Z) : In z (zrange lo hi) <-> lo <= z < hi.
Proof.
  unfold zrange. rewrite in_map_iff. split.
  - intros (k & <- & Hk). apply in_seq in Hk. lia.
  - intros Hz. exists (Z.to_nat (z - lo)). split; [lia|].
    apply in_seq. lia.
Qed.

(** Induction along the indices of a counted loop. *)
Lemma zrange_ind (hi : Z) (P : Z -> Prop) :
  (forall lo, hi <= lo -> P lo) ->
  (forall lo, lo < hi -> P (lo + 1) -> P lo) ->
  forall lo, P lo.
Proof.
  intros Hnil Hcons lo.
  remember (Z.to_nat (hi - lo)) as n eqn:Hn.
  revert lo Hn. induction n as [|n IH]; intros lo Hn.
  - apply Hnil. lia.
  - apply Hcons; [lia|]. apply IH. lia.
Qed.

(** A loop that appends to its accumulator. *)
Lemma for_each_append {I A : Type} (f : I -> outcome (list A))
  (g : I -> list A) (l : list I) :
  (forall i, In i l -> f i = Normal (g i)) ->
  forall acc,
    for_each l (fun i acc => x <- f i ;; Normal (acc ++ x)) acc
    = Normal (acc ++ concat (map g l)).
Proof.
  induction l as [|i l IH]; intros Hf acc; cbn [for_each map concat].
  - rewrite app_nil_r. reflexivity.
  - rewrite (Hf i) by (left; reflexivity). cbn [bind].
    rewrite IH by (intros j Hj; apply Hf; right; exact Hj).
    rewrite app_assoc. reflexivity.
Qed.

Lemma for_each_ext {I A : Type} (f g : I -> A -> outcome A) (l : list I) :
  (forall i a, In i l -> f i a = g i a) ->
  forall a, for_each l f a = for_each l g a.
Proof.
  induction l as [|i l IH]; intros H a; cbn [for_each]; [reflexivity|].
  rewrite (H i a) by (left; reflexivity).
  destruct (g i a); cbn [bind]; try reflexivity.
  apply IH. intros j b Hj. apply H. right; exact Hj.
Qed.

Lemma for_each_app {I A : Type} (body : I -> A -> outcome A)
  (l1 l2 : list I) :
  forall a,
    for_each (l1 ++ l2) body a
    = bind (for_each l1 body a) (for_each l2 body).
Proof.
  induction l1 as [|i l1 IH]; intros a; cbn [app for_each bind].
  - reflexivity.
  - destruct (body i a); cbn [bind]; try reflexivity. apply IH.
Qed.

Lemma for_each_map {I J A : Type} (g : I -> J) (body : J -> A -> outcome A)
  (l : list I) :
  forall a, for_each (map g l) body a = for_each l (fun i => body (g i)) a.
Proof.
  induction l as [|i l IH]; intros a; cbn [map for_each]; [reflexivity|].
  destruct (body (g i) a); cbn [bind]; try reflexivity. apply IH.
Qed.

(** Two nested counted loops run their body over the pairs of indices in
    row-major order. *)
Lemma for_each_nested {I J K A : Type} (f : I -> J -> A -> outcome A)
  (g : I -> J -> K) (body : K -> A -> outcome A)
  (outer : list I) (inner : list J) :
  (forall i j a, body (g i j) a = f i j a) ->
  forall a,
    for_each outer (fun i a => for_each inner (f i) a) a
    = for_each (flat_map (fun i => map (g i) inner) outer) body a.
Proof.
  intros Hbody.
  induction outer as [|i outer IH]; intros a; cbn [for_each flat_map].
  - reflexivity.
  - rewrite for_each_app, for_each_map.
    rewrite (for_each_ext (fun j => body (g i j)) (f i))
      by (intros j b _; apply Hbody).
    destruct (for_each inner (f i) a); cbn [bind]; try reflexivity.
    apply IH.
Qed.

Lemma length_concat_const {A B : Type} (f : A -> list B) (c : nat)
  (l : list A) :
  (forall a, In a l -> length (f a) = c) ->
  length (concat (map f l)) = (length l * c)%nat.
Proof.
  induction l as [|a l IH]; intros H; cbn [map concat length]; [reflexivity|].
  rewrite length_app, (H a) by (left; reflexivity).
  rewrite IH by (intros b Hb; apply H; right; exact Hb). lia.
Qed.

Lemma list_set_length {A : Type} (n : nat) (x : A) (l : list A) :
  length (list_set n x l) = length l.
Proof.
  revert n; induction l as [|y l IH]; intros [|n]; cbn; congruence.
Qed.

Lemma list_set_app {A : Type} (pre : list A) (x y : A) (post : list A) :
  list_set (length pre) x (pre ++ y :: post) = pre ++ x :: post.
Proof. induction pre as [|z pre IH]; cbn; congruence. Qed.

Lemma list_set_twice {A : Type} (n : nat) (x y : A) (l : list A) :
  list_set n x (list_set n y l) = list_set n x l.
Proof.
  revert n; induction l as [|z l IH]; intros [|n]; cbn; congruence.
Qed.

Lemma nth_list_set {A : Type} (n : nat) (x d : A) (l : list A) :
  (n < length l)%nat -> nth n (list_set n x l) d = x.
Proof.
  revert n; induction l as [|z l IH]; intros [|n] H; cbn in *;
    try lia; [reflexivity|]. apply IH. lia.
Qed.

(** ** Construction *)

Section Construction.
Context {TType : Type}.
Implicit Types (block_norm : @THist TType -> @THist TType).

Lemma check_ctor_params_ok (b c s n g : Z) :
  config_constraints b c s n g -> check_ctor_params b c s n g = Normal tt.
Proof.
  intros (Hb & Hc & Hn & Hg & Hbc & Hsc). unfold check_ctor_params, size_mod.
  replace (b <? 2) with false by lia.
  replace (c <? 1) with false by lia.
  replace (n <? 2) with false by lia.
  replace (c =? 0) with false by lia.
  rewrite Hbc, Hsc.
  destruct Hg as [-> | ->]; reflexivity.
Qed.

Lemma check_ctor_params_throws (b c s n g : Z) :
  ~ config_constraints b c s n g ->
  exists what, check_ctor_params b c s n g = Throw (runtime_error what).
Proof.
  intros Hno. unfold check_ctor_params, size_mod, throw_if.
  destruct (b <? 2) eqn:Hb; cbn [bind]; [eexists; reflexivity|].
  destruct (c <? 1) eqn:Hc; cbn [bind]; [eexists; reflexivity|].
  destruct (n <? 2) eqn:Hn; cbn [bind]; [eexists; reflexivity|].
  destruct (negb (g =? GRADIENT_UNSIGNED) && negb (g =? GRADIENT_SIGNED))
    eqn:Hg; cbn [bind]; [eexists; reflexivity|].
  replace (c =? 0) with false by lia. cbn [bind].
  destruct (b mod c =? 0) eqn:Hbc; cbn [negb bind]; [|eexists; reflexivity].
  destruct (s mod c =? 0) eqn:Hsc; cbn [negb]; [|eexists; reflexivity].
  exfalso. apply Hno. unfold config_constraints.
  unfold GRADIENT_UNSIGNED, GRADIENT_SIGNED in *. repeat split; lia.
Qed.

Lemma check_ctor_params_inv (b c s n g : Z) :
  check_ctor_params b c s n g = Normal tt -> config_constraints b c s n g.
Proof.
  intros H.
  assert (D : config_constraints b c s n g \/ ~ config_constraints b c s n g).
  { unfold config_constraints, GRADIENT_UNSIGNED, GRADIENT_SIGNED. lia. }
  destruct D as [D | D]; [exact D|].
  destruct (check_ctor_params_throws b c s n g D) as [what Hw]. congruence.
Qed.

(** The members of a constructed object. *)
Lemma HOG_ctor_inv (b c s n g : Z) block_norm (h : HOG) :
  HOG_ctor b c s n g block_norm = Normal h ->
  config_constraints b c s n g /\
  h = mkHOG b c s g n (g / n) (b / c) (b / c)
        (to_size_t (b / c * (b / c)))
        (to_size_t (n * to_size_t (b / c * (b / c))))
        (s / c) block_norm 0 0 Mat_empty Mat_empty [].
Proof.
  unfold HOG_ctor, size_div. intros H.
  destruct (n =? 0) eqn:Hn; cbn [bind] in H; [discriminate|].
  destruct (c =? 0) eqn:Hc; cbn [bind] in H; [discriminate|].
  destruct (check_ctor_params b c s n g) as [[]| | |] eqn:Hchk;
    cbn [bind] in H; try discriminate.
  split; [apply check_ctor_params_inv; exact Hchk|].
  congruence.
Qed.

Lemma HOG_ctor_ok (b c s n g : Z) block_norm :
  config_constraints b c s n g ->
  exists h, HOG_ctor b c s n g block_norm = Normal h.
Proof.
  intros Hcfg. pose proof Hcfg as (Hb & Hc & Hn & _).
  unfold HOG_ctor, size_div.
  replace (n =? 0) with false by lia.
  replace (c =? 0) with false by lia. cbn [bind].
  rewrite (check_ctor_params_ok _ _ _ _ _ Hcfg). cbn [bind].
  eexists; reflexivity.
Qed.

(** Away from the zero divisors, a violated constraint is reported by the
    exception of [check_ctor_params]. *)
Lemma HOG_ctor_throws (b c s n g : Z) block_norm :
  c <> 0 -> n <> 0 -> ~ config_constraints b c s n g ->
  exists what, HOG_ctor b c s n g block_norm = Throw (runtime_error what).
Proof.
  intros Hc Hn Hno. unfold HOG_ctor, size_div.
  replace (n =? 0) with false by lia.
  replace (c =? 0) with false by lia. cbn [bind].
  destruct (check_ctor_params_throws b c s n g Hno) as [what ->].
  exists what. reflexivity.
Qed.

(** C6 (the code departs from the claim): a cell size of zero, and a bin
    count of zero, violate the constraints, but the constructor does not
    report them with the exception of [check_ctor_params]: the member
    initialisers [_bin_width(_grad_type / _binning)] and
    [_n_cells_per_block_y = _blocksize/_cellsize] divide by zero before
    the body of the constructor calls [check_ctor_params].  The check
    taken alone reports both. *)
Theorem construction_divides_before_checking (b s g : Z) block_norm :
  HOG_ctor b 0 s 9 g block_norm = Undefined division_by_zero /\
  HOG_ctor b 16 s 0 g block_norm = Undefined division_by_zero /\
  check_ctor_params 32 0 16 9 GRADIENT_UNSIGNED
  = Throw (runtime_error "HOG::HOG(): cellsize must be at least 1 pixels!") /\
  check_ctor_params 32 16 16 0 GRADIENT_UNSIGNED
  = Throw (runtime_error
             "HOG::HOG(): binning should at least be greater or equal to 2!").
Proof. repeat split. Qed.

End Construction.

(** ** The cell pass *)

Lemma for_each_invariant {I A : Type} (P : A -> Prop)
  (body : I -> A -> outcome A) (l : list I) :
  (forall i a a', In i l -> P a -> body i a = Normal a' -> P a') ->
  forall a a', P a -> for_each l body a = Normal a' -> P a'.
Proof.
  induction l as [|i l IH]; intros Hbody a a' Ha H; cbn [for_each] in H.
  - injection H as <-. exact Ha.
  - destruct (body i a) as [a1| | |] eqn:Hb; cbn [bind] in H;
      try discriminate.
    apply (IH (fun j b b' Hj => Hbody j b b' (or_intror Hj)) a1 a');
      [|exact H].
    apply (Hbody i a a1); [left; reflexivity|exact Ha|exact Hb].
Qed.

Lemma list_set_nth_same {A : Type} (n : nat) (d : A) (l : list A) :
  list_set n (nth n l d) l = l.
Proof.
  revert n; induction l as [|y l IH]; intros [|n]; cbn; try reflexivity.
  f_equal. apply IH.
Qed.

Lemma nth_app_repeat {A : Type} (pre : list A) (d : A) (n : nat) :
  nth (length pre) (pre ++ repeat d n) d = d.
Proof.
  rewrite app_nth2 by lia. rewrite Nat.sub_diag.
  destruct n; reflexivity.
Qed.

Section CellPass.
Context {TType : Type} {ops : TTypeOps TType} {Pixel : Type}.
Variable cv_gradient : Mat Pixel -> Mat TType * Mat TType.

Lemma at_add_length (cell_hist v : THist) (k : Z) (m : TType) :
  at_add cell_hist k m = Normal v -> length v = length cell_hist.
Proof.
  unfold at_add. destruct (_ <? _); intros H; [|discriminate].
  injection H as <-. apply list_set_length.
Qed.

Lemma vote_length (h : HOG) (o m : TType) (cell_hist v : THist) :
  vote h o m cell_hist = Normal v -> length v = length cell_hist.
Proof.
  unfold vote. destruct (f_to_int _); [apply at_add_length|discriminate].
Qed.

(** A cell histogram has [_binning] bins. *)
Lemma process_cell_length (h : HOG) (cell_mag cell_ori : Mat TType)
  (v : THist) :
  process_cell h cell_mag cell_ori = Normal v ->
  length v = Z.to_nat (_binning h).
Proof.
  unfold process_cell.
  set (n := Z.to_nat (_binning h)).
  assert (H0 : length (repeat (@zero TType ops) n) = n)
    by apply repeat_length.
  revert H0. generalize (repeat (@zero TType ops) n) as init.
  intros init H0 H.
  destruct (_grad_type h =? GRADIENT_SIGNED).
  - revert H. apply (for_each_invariant (fun a => length a = n)); [|exact H0].
    intros i a a' _ Ha. apply (for_each_invariant (fun a => length a = n));
      [|exact Ha].
    intros j b b' _ Hb Hv.
    destruct (Mat_at cell_ori i j); cbn [bind] in Hv; try discriminate.
    destruct (Mat_at cell_mag i j); cbn [bind] in Hv; try discriminate.
    rewrite (vote_length _ _ _ _ _ Hv). exact Hb.
  - revert H. apply (for_each_invariant (fun a => length a = n)); [|exact H0].
    intros i a a' _ Ha. apply (for_each_invariant (fun a => length a = n));
      [|exact Ha].
    intros j b b' _ Hb Hv.
    destruct (Mat_at cell_ori i j); cbn [bind] in Hv; try discriminate.
    destruct (Mat_at cell_mag i j); cbn [bind] in Hv; try discriminate.
    rewrite (vote_length _ _ _ _ _ Hv). exact Hb.
Qed.

Lemma cell_hist_of_length (h : HOG) (i j : Z) (v : THist) :
  cell_hist_of h i j = Normal v -> length v = Z.to_nat (_binning h).
Proof.
  unfold cell_hist_of.
  destruct (Mat_roi (mag h) _); cbn [bind]; try discriminate.
  destruct (Mat_roi (ori h) _); cbn [bind]; try discriminate.
  apply process_cell_length.
Qed.

Lemma cell_hist_of_frame (g : list (list THist)) (h : HOG) (i j : Z) :
  cell_hist_of (set_cell_hists g h) i j = cell_hist_of h i j.
Proof. reflexivity. Qed.

Lemma set_cell_hists_twice (g g' : list (list THist)) (h : @HOG TType) :
  set_cell_hists g (set_cell_hists g' h) = set_cell_hists g h.
Proof. reflexivity. Qed.

Lemma n_cells_x_frame (g : list (list THist)) (h : @HOG TType) :
  _n_cells_x (set_cell_hists g h) = _n_cells_x h.
Proof. reflexivity. Qed.

Lemma n_cells_y_frame (g : list (list THist)) (h : @HOG TType) :
  _n_cells_y (set_cell_hists g h) = _n_cells_y h.
Proof. reflexivity. Qed.

(** The loop over the cells of row [i], from column [lo] on: the columns
    before [lo] hold [pre], the others are still empty. *)
Lemma process_row_cells (hp : HOG) (i : Z) :
  0 <= i ->
  forall lo (g : list (list THist)) (pre : list THist) (h' : HOG),
    i < Z.of_nat (length g) ->
    nth (Z.to_nat i) g [] = pre ++ repeat [] (Z.to_nat (_n_cells_x hp - lo)) ->
    Z.of_nat (length pre) = lo ->
    for_each_st (zrange lo (_n_cells_x hp)) (process_one i)
      (set_cell_hists g hp) = (Normal tt, h') ->
    exists hs,
      h' = set_cell_hists (list_set (Z.to_nat i) (pre ++ hs) g) hp /\
      Z.of_nat (length hs) = Z.max 0 (_n_cells_x hp - lo) /\
      forall j, lo <= j < _n_cells_x hp ->
        cell_hist_of hp i j = Normal (nth (Z.to_nat (j - lo)) hs []).
Proof.
  intros Hi lo. pattern lo. apply (zrange_ind (_n_cells_x hp)); clear lo.
  - intros lo Hlo g pre h' Hig Hrow Hpre H.
    rewrite zrange_nil in H by exact Hlo. cbn [for_each_st] in H.
    injection H as <-. exists []. repeat split.
    + rewrite app_nil_r. f_equal.
      replace (Z.to_nat (_n_cells_x hp - lo)) with O in Hrow by lia.
      cbn [repeat] in Hrow. rewrite app_nil_r in Hrow.
      rewrite <- Hrow. symmetry. apply list_set_nth_same.
    + cbn [length]. lia.
    + intros j Hj. lia.
  - intros lo Hlo IH g pre h' Hig Hrow Hpre H.
    rewrite zrange_cons in H by exact Hlo. cbn [for_each_st] in H.
    unfold process_one at 1 in H. rewrite cell_hist_of_frame in H.
    destruct (cell_hist_of hp i lo) as [c| | |] eqn:Hc;
      try discriminate.
    unfold store_cell in H. cbn [_cell_hists set_cell_hists] in H.
    replace (i <? Z.of_nat (length g)) with true in H by lia.
    rewrite Hrow in H.
    replace (Z.to_nat (_n_cells_x hp - lo))
      with (S (Z.to_nat (_n_cells_x hp - (lo + 1)))) in H, Hrow by lia.
    cbn [repeat] in H, Hrow.
    match type of H with context [lo <? ?n] =>
      assert (Hlt : (lo <? n) = true) end.
    { rewrite length_app. cbn [length]. rewrite repeat_length.
      apply Z.ltb_lt. rewrite Nat2Z.inj_add, Hpre. lia. }
    rewrite Hlt in H.
    replace (Z.to_nat lo) with (length pre) in H by lia.
    rewrite list_set_app in H.
    set (g1 := list_set (Z.to_nat i) _ g) in H.
    destruct (IH g1 (pre ++ [c]) h') as (hs & Hh' & Hlen & Hcells).
    + unfold g1. rewrite list_set_length. exact Hig.
    + unfold g1. rewrite nth_list_set by lia.
      rewrite <- app_assoc. reflexivity.
    + rewrite length_app. cbn [length]. lia.
    + exact H.
    + exists (c :: hs). repeat split.
      * rewrite Hh'. unfold g1. rewrite list_set_twice.
        rewrite <- app_assoc. reflexivity.
      * cbn [length]. lia.
      * intros j Hj. destruct (Z.eq_dec j lo) as [-> | Hne].
        -- rewrite Z.sub_diag. exact Hc.
        -- rewrite (Hcells j) by lia.
           replace (Z.to_nat (j - lo)) with (S (Z.to_nat (j - (lo + 1))))
             by lia. reflexivity.
Qed.

(** The loop over the rows of the grid, from row [lo] on: the rows before
    [lo] are complete, the others are still empty. *)
Lemma process_rows (hp : HOG) :
  0 <= _n_cells_x hp ->
  forall lo (done : list (list THist)) (h' : HOG),
    0 <= lo ->
    Z.of_nat (length done) = lo ->
    (forall i, 0 <= i < lo -> row_ok hp i (nth (Z.to_nat i) done [])) ->
    for_each_st (zrange lo (_n_cells_y hp)) process_row
      (set_cell_hists
         (done ++ repeat [] (Z.to_nat (_n_cells_y hp - lo))) hp)
    = (Normal tt, h') ->
    exists g,
      h' = set_cell_hists g hp /\
      Z.of_nat (length g) = Z.max lo (_n_cells_y hp) /\
      forall i, 0 <= i < Z.max lo (_n_cells_y hp) ->
        row_ok hp i (nth (Z.to_nat i) g []).
Proof.
  intros Hnx lo. pattern lo. apply (zrange_ind (_n_cells_y hp)); clear lo.
  - intros lo Hlo done h' Hlo0 Hlen Hdone H.
    rewrite zrange_nil in H by exact Hlo. cbn [for_each_st] in H.
    injection H as <-.
    replace (Z.to_nat (_n_cells_y hp - lo)) with O by lia.
    cbn [repeat]. rewrite app_nil_r. exists done. repeat split.
    + lia.
    + apply Hdone; lia.
    + apply Hdone; lia.
  - intros lo Hlo IH done h' Hlo0 Hlen Hdone H.
    rewrite zrange_cons in H by exact Hlo. cbn [for_each_st] in H.
    replace (Z.to_nat (_n_cells_y hp - lo))
      with (S (Z.to_nat (_n_cells_y hp - (lo + 1)))) in H by lia.
    cbn [repeat] in H.
    unfold process_row at 1, resize_row in H.
    cbn [_cell_hists set_cell_hists _n_cells_x] in H.
    match type of H with context [lo <? ?n] =>
      assert (Hlt : (lo <? n) = true) end.
    { rewrite length_app. cbn [length]. apply Z.ltb_lt.
      rewrite Nat2Z.inj_add, Hlen. lia. }
    rewrite Hlt in H.
    replace (Z.to_nat lo) with (length done) in H by lia.
    rewrite app_nth2, Nat.sub_diag in H by lia. cbn [nth] in H.
    rewrite list_set_app in H.
    unfold resize in H. rewrite firstn_nil in H.
    cbn [length app] in H. rewrite Nat.sub_0_r in H.
    set (rest := repeat [] (Z.to_nat (_n_cells_y hp - (lo + 1)))) in *.
    rewrite !set_cell_hists_twice, n_cells_x_frame in H.
    match type of H with (let (o, s') := ?t in _) = _ =>
      destruct t as [[[]|e|u|] h1] eqn:Hrow
    end; try discriminate.
    destruct (process_row_cells hp lo Hlo0 0
                (done ++ repeat [] (Z.to_nat (_n_cells_x hp)) :: rest)
                [] h1) with (4 := Hrow)
      as (hs & Hh1 & Hhs & Hcells).
    + rewrite length_app. cbn [length]. rewrite Nat2Z.inj_add, Hlen. lia.
    + replace (Z.to_nat lo) with (length done) by lia.
      rewrite app_nth2, Nat.sub_diag by lia. cbn [nth app].
      rewrite Z.sub_0_r. reflexivity.
    + reflexivity.
    + cbn [app] in Hh1.
      replace (Z.to_nat lo) with (length done) in Hh1 by lia.
      rewrite list_set_app in Hh1. subst h1.
      replace (done ++ hs :: rest) with ((done ++ [hs]) ++ rest) in H
        by (rewrite <- app_assoc; reflexivity).
      destruct (IH (done ++ [hs]) h') as (g & Hg & Hglen & Hrows).
      * lia.
      * rewrite length_app. cbn [length]. rewrite Nat2Z.inj_add, Hlen. lia.
      * intros i Hi. destruct (Z.eq_dec i lo) as [-> | Hne].
        -- replace (Z.to_nat lo) with (length done) by lia.
           rewrite app_nth2, Nat.sub_diag by lia. cbn [nth].
           split; [lia|].
           intros j Hj. rewrite (Hcells j) by lia.
           rewrite Z.sub_0_r. reflexivity.
        -- rewrite app_nth1 by lia. apply Hdone. lia.
      * exact H.
      * exists g. repeat split; try assumption; try lia.
        -- apply Hrows. lia.
        -- apply Hrows. lia.
Qed.

Lemma to_size_t_range (z : Z) : is_size_t (to_size_t z).
Proof.
  unfold is_size_t, to_size_t, size_t_modulus. apply Z.mod_pos_bound. lia.
Qed.

(** A successful [process] leaves the prepared object with a complete
    grid: [_n_cells_y] rows of [_n_cells_x] histograms, the histogram of
    cell [(i, j)] being the one [process_cell] computes from the views of
    the two gradient maps on the rectangle of the cell. *)
Lemma process_success (img : Mat Pixel) (h0 h : HOG) :
  process cv_gradient img h0 = (Normal tt, h) ->
  exists g,
    h = set_cell_hists g (prepared cv_gradient img h0) /\
    Z.of_nat (length g) = _n_cells_y (prepared cv_gradient img h0) /\
    forall i, 0 <= i < _n_cells_y (prepared cv_gradient img h0) ->
      row_ok (prepared cv_gradient img h0) i (nth (Z.to_nat i) g []).
Proof.
  unfold process. destruct (data img); [|discriminate].
  destruct (_ || _); [discriminate|].
  fold (prepared cv_gradient img h0).
  set (hp := prepared cv_gradient img h0).
  change (_cell_hists hp) with (@nil (list (@THist TType))).
  unfold resize. rewrite firstn_nil. cbn [app length].
  rewrite Nat.sub_0_r. rewrite n_cells_y_frame.
  intros H.
  assert (Hny : 0 <= _n_cells_y hp) by apply to_size_t_range.
  assert (Hnx : 0 <= _n_cells_x hp) by apply to_size_t_range.
  destruct (process_rows hp Hnx 0 [] h) as (g & Hg & Hlen & Hrows).
  - lia.
  - reflexivity.
  - intros i Hi. lia.
  - cbn [app]. rewrite Z.sub_0_r.
    rewrite <- H. f_equal.
  - exists g. repeat split.
    + exact Hg.
    + lia.
    + apply Hrows. lia.
    + apply Hrows. lia.
Qed.

(** C4, as amended: [process] validates the image before it clears
    anything.  A call that fails validation (an image without data, or
    one smaller than the block size) throws and leaves the object, with
    its gradient maps and its grid of cell histograms, exactly as it
    was. *)
Theorem process_validates_before_clearing (img : Mat Pixel) (h : HOG) :
  data img = None \/
  to_size_t (rows img) < _blocksize h \/
  to_size_t (cols img) < _blocksize h ->
  snd (process cv_gradient img h) = h /\
  (fst (process cv_gradient img h) = Throw invalid_image \/
   fst (process cv_gradient img h) = Throw image_too_small).
Proof.
  intros Hbad. unfold process.
  destruct (data img) as [d|] eqn:Hd.
  - destruct Hbad as [Hbad | Hbad]; [discriminate|].
    replace ((to_size_t (rows img) <? _blocksize h)
             || (to_size_t (cols img) <? _blocksize h)) with true.
    + split; [reflexivity|right; reflexivity].
    + symmetry. apply orb_true_iff.
      destruct Hbad as [Hr | Hc]; [left|right]; apply Z.ltb_lt; assumption.
  - split; [reflexivity|left; reflexivity].
Qed.

(** An image that passes validation replaces the grid: what the grid held
    before has no influence on the result. *)
Lemma process_discards_prior_grid (img : Mat Pixel) (h : HOG)
  (g : list (list THist)) :
  data img <> None ->
  _blocksize h <= to_size_t (rows img) ->
  _blocksize h <= to_size_t (cols img) ->
  process cv_gradient img (set_cell_hists g h) = process cv_gradient img h.
Proof.
  intros Hd Hr Hc. unfold process.
  destruct (data img); [|congruence].
  change (_blocksize (set_cell_hists g h)) with (_blocksize h).
  replace ((to_size_t (rows img) <? _blocksize h)
           || (to_size_t (cols img) <? _blocksize h)) with false
    by (symmetry; apply orb_false_iff; split; apply Z.ltb_ge; assumption).
  reflexivity.
Qed.

End CellPass.

(** ** Block retrieval *)

Section Retrieval.
Context {TType : Type}.
Implicit Types (h : @HOG TType) (acc : @THist TType).

Lemma cell_at_in_bounds h (ny nx cell_y cell_x : Z) :
  grid_shape h ny nx ->
  0 <= cell_y < ny -> 0 <= cell_x < nx ->
  cell_at h cell_y cell_x = Normal (grid_get h cell_y cell_x).
Proof.
  intros [Hlen Hrows] Hy Hx. unfold cell_at, grid_get.
  replace (cell_y <? Z.of_nat (length (_cell_hists h))) with true by lia.
  specialize (Hrows cell_y Hy).
  replace (cell_x <? Z.of_nat (length (nth (Z.to_nat cell_y) (_cell_hists h) [])))
    with true by lia.
  reflexivity.
Qed.

(** A block inside the grid: its cells in row-major order. *)
Lemma block_hist_at_in_bounds h (ny nx block_y block_x : Z) :
  grid_shape h ny nx ->
  ny < size_t_modulus -> nx < size_t_modulus ->
  0 <= _n_cells_per_block_y h -> 0 <= _n_cells_per_block_x h ->
  0 <= block_y -> block_y + _n_cells_per_block_y h <= ny ->
  0 <= block_x -> block_x + _n_cells_per_block_x h <= nx ->
  block_hist_at h block_y block_x
  = Normal (concat (map (fun cell_y =>
      concat (map (fun cell_x => grid_get h cell_y cell_x)
                (zrange block_x (block_x + _n_cells_per_block_x h))))
      (zrange block_y (block_y + _n_cells_per_block_y h)))).
Proof.
  intros Hg Hny Hnx Hcy Hcx Hy0 Hy1 Hx0 Hx1. unfold block_hist_at.
  rewrite (to_size_t_id (block_y + _)) by (unfold is_size_t; lia).
  rewrite (to_size_t_id (block_x + _)) by (unfold is_size_t; lia).
  rewrite (for_each_ext _
    (fun cell_y block_hist =>
       x <- Normal (concat (map (fun cell_x => grid_get h cell_y cell_x)
              (zrange block_x (block_x + _n_cells_per_block_x h)))) ;;
       Normal (block_hist ++ x))).
  - rewrite (for_each_append (fun cell_y => Normal _)
               (fun cell_y => concat (map (fun cell_x => grid_get h cell_y cell_x)
                  (zrange block_x (block_x + _n_cells_per_block_x h)))))
      by reflexivity.
    reflexivity.
  - intros cell_y block_hist Hin. apply zrange_In in Hin. cbn [bind].
    apply (for_each_append (fun cell_x => cell_at h cell_y cell_x)
             (fun cell_x => grid_get h cell_y cell_x)).
    intros cell_x Hinx. apply zrange_In in Hinx.
    apply (cell_at_in_bounds h ny nx); [exact Hg|lia|lia].
Qed.

(** The loop over the block columns, [k] positions from [block_x] on. *)
Lemma loop_block_x_spec h (x width block_y bound s : Z)
  (raw : Z -> @THist TType) :
  to_size_t (x + width - _n_cells_per_block_x h) = bound ->
  _stride_unit h = s -> 0 < s -> bound + s < size_t_modulus ->
  (forall bx, 0 <= bx <= bound -> block_hist_at h block_y bx = Normal (raw bx)) ->
  forall (k : nat) (block_x : Z) acc (fuel : nat),
    0 <= block_x ->
    (forall t, 0 <= t < Z.of_nat k -> block_x + t * s <= bound) ->
    bound < block_x + Z.of_nat k * s ->
    let res :=
      Normal (acc ++ concat (map (fun t =>
                _block_norm h (raw (block_x + Z.of_nat t * s))) (seq 0 k))) in
    ((k < fuel)%nat ->
     loop_block_x fuel h x width block_y block_x acc = res) /\
    (loop_block_x fuel h x width block_y block_x acc = OutOfFuel \/
     loop_block_x fuel h x width block_y block_x acc = res).
Proof.
  intros Hbound Hs Hspos Hwrap Hraw.
  induction k as [|k IH]; intros block_x acc fuel Hx0 Hle Hgt res;
    destruct fuel as [|fuel]; cbn [loop_block_x].
  - split; [lia|left; reflexivity].
  - rewrite Hbound. replace (block_x <=? bound) with false by lia.
    subst res. cbn [seq map concat]. rewrite app_nil_r.
    split; [reflexivity|right; reflexivity].
  - split; [lia|left; reflexivity].
  - rewrite Hbound.
    assert (Hx1 : block_x <= bound) by (specialize (Hle 0); lia).
    replace (block_x <=? bound) with true by lia.
    rewrite Hraw by lia. cbn [bind]. rewrite Hs.
    rewrite (to_size_t_id (block_x + s))
      by (unfold is_size_t; lia).
    assert (Hres : res = Normal ((acc ++ _block_norm h (raw block_x)) ++
              concat (map (fun t => _block_norm h
                        (raw (block_x + s + Z.of_nat t * s))) (seq 0 k)))).
    { subst res. cbn [seq map concat]. rewrite <- seq_shift, map_map.
      rewrite <- app_assoc.
      replace (block_x + Z.of_nat 0 * s) with block_x by lia.
      do 4 f_equal. apply map_ext. intros t. do 2 f_equal. lia. }
    rewrite Hres.
    destruct (IH (block_x + s) (acc ++ _block_norm h (raw block_x)) fuel)
      as [IH1 IH2].
    + lia.
    + intros t Ht. specialize (Hle (t + 1)). lia.
    + lia.
    + split; [intros Hf; apply IH1; lia|exact IH2].
Qed.

(** The loop over the block rows, [k] positions from [block_y] on, the
    loop over the columns needing more than [kx] units of fuel. *)
Lemma loop_block_y_spec h (x y width height bound s : Z) (kx : nat)
  (row : Z -> @THist TType) :
  to_size_t (y + height - _n_cells_per_block_y h) = bound ->
  _stride_unit h = s -> 0 < s -> bound + s < size_t_modulus ->
  (forall block_y acc fuel, 0 <= block_y <= bound ->
     ((kx < fuel)%nat ->
      loop_block_x fuel h x width block_y x acc = Normal (acc ++ row block_y)) /\
     (loop_block_x fuel h x width block_y x acc = OutOfFuel \/
      loop_block_x fuel h x width block_y x acc = Normal (acc ++ row block_y))) ->
  forall (k : nat) (block_y : Z) acc (fuel : nat),
    0 <= block_y ->
    (forall t, 0 <= t < Z.of_nat k -> block_y + t * s <= bound) ->
    bound < block_y + Z.of_nat k * s ->
    let res :=
      Normal (acc ++ concat (map (fun t =>
                row (block_y + Z.of_nat t * s)) (seq 0 k))) in
    ((kx + k < fuel)%nat ->
     loop_block_y fuel h x y width height block_y acc = res) /\
    (loop_block_y fuel h x y width height block_y acc = OutOfFuel \/
     loop_block_y fuel h x y width height block_y acc = res).
Proof.
  intros Hbound Hs Hspos Hwrap Hrow.
  induction k as [|k IH]; intros block_y acc fuel Hy0 Hle Hgt res;
    destruct fuel as [|fuel]; cbn [loop_block_y].
  - split; [lia|left; reflexivity].
  - rewrite Hbound. replace (block_y <=? bound) with false by lia.
    subst res. cbn [seq map concat]. rewrite app_nil_r.
    split; [reflexivity|right; reflexivity].
  - split; [lia|left; reflexivity].
  - rewrite Hbound.
    assert (Hy1 : block_y <= bound) by (specialize (Hle 0); lia).
    replace (block_y <=? bound) with true by lia.
    rewrite Hs.
    rewrite (to_size_t_id (block_y + s)) by (unfold is_size_t; lia).
    assert (Hres : res = Normal ((acc ++ row block_y) ++
              concat (map (fun t => row (block_y + s + Z.of_nat t * s))
                        (seq 0 k)))).
    { subst res. cbn [seq map concat]. rewrite <- seq_shift, map_map.
      rewrite <- app_assoc.
      replace (block_y + Z.of_nat 0 * s) with block_y by lia.
      do 4 f_equal. apply map_ext. intros t. f_equal. lia. }
    rewrite Hres.
    destruct (Hrow block_y acc fuel) as [Hr1 Hr2]; [lia|].
    destruct (IH (block_y + s) (acc ++ row block_y) fuel) as [IH1 IH2].
    + lia.
    + intros t Ht. specialize (Hle (t + 1)). lia.
    + lia.
    + split.
      * intros Hf. rewrite Hr1 by lia. cbn [bind]. apply IH1. lia.
      * destruct Hr2 as [-> | ->]; cbn [bind]; [left; reflexivity|].
        exact IH2.
Qed.

(** More fuel does not change the result of a run that returned. *)
Lemma loop_block_x_fuel h (x width block_y : Z) :
  forall (fuel fuel' : nat) (block_x : Z) acc (v : @THist TType),
    (fuel <= fuel')%nat ->
    loop_block_x fuel h x width block_y block_x acc = Normal v ->
    loop_block_x fuel' h x width block_y block_x acc = Normal v.
Proof.
  induction fuel as [|fuel IH]; intros fuel' block_x acc v Hle H;
    cbn [loop_block_x] in H; [discriminate|].
  destruct fuel' as [|fuel']; [lia|]. cbn [loop_block_x].
  destruct (_ <=? _); [|exact H].
  destruct (block_hist_at h block_y block_x); cbn [bind] in *;
    try discriminate.
  apply IH; [lia|exact H].
Qed.

Lemma loop_block_y_fuel h (x y width height : Z) :
  forall (fuel fuel' : nat) (block_y : Z) acc (v : @THist TType),
    (fuel <= fuel')%nat ->
    loop_block_y fuel h x y width height block_y acc = Normal v ->
    loop_block_y fuel' h x y width height block_y acc = Normal v.
Proof.
  induction fuel as [|fuel IH]; intros fuel' block_y acc v Hle H;
    cbn [loop_block_y] in H; [discriminate|].
  destruct fuel' as [|fuel']; [lia|]. cbn [loop_block_y].
  destruct (_ <=? _); [|exact H].
  destruct (loop_block_x fuel h x width block_y x acc) as [w| | |] eqn:Hx;
    cbn [bind] in H; try discriminate.
  rewrite (loop_block_x_fuel h x width block_y fuel fuel' x acc w) by
    (lia || exact Hx).
  cbn [bind]. apply IH; [lia|exact H].
Qed.

Lemma retrieve_result_fuel h (window : Rect) (fuel fuel' : nat)
  (v : @THist TType) :
  (fuel <= fuel')%nat ->
  retrieve_result fuel window h = Normal v ->
  retrieve_result fuel' window h = Normal v.
Proof.
  intros Hle. unfold retrieve_result.
  destruct (_ || _); [discriminate|].
  destruct (int_sub (cols (mag h)) (rect_width window)); cbn [bind];
    try discriminate.
  destruct (_ >? _); [discriminate|].
  destruct (int_sub (rows (mag h)) (rect_height window)); cbn [bind];
    try discriminate.
  destruct (_ >? _); [discriminate|].
  apply loop_block_y_fuel. exact Hle.
Qed.

(** Two runs of [retrieve] that return, return the same vector. *)
Lemma retrieve_result_deterministic h (window : Rect) (fuel1 fuel2 : nat)
  (v1 v2 : @THist TType) :
  retrieve_result fuel1 window h = Normal v1 ->
  retrieve_result fuel2 window h = Normal v2 ->
  v1 = v2.
Proof.
  intros H1 H2.
  apply (retrieve_result_fuel h window fuel1 (Nat.max fuel1 fuel2)) in H1;
    [|lia].
  apply (retrieve_result_fuel h window fuel2 (Nat.max fuel1 fuel2)) in H2;
    [|lia].
  congruence.
Qed.

End Retrieval.

(** ** The descriptor of a window *)

Section Descriptor.
Context {TType : Type} {ops : TTypeOps TType} {Pixel : Type}.
Variable cv_gradient : Mat Pixel -> Mat TType * Mat TType.
Implicit Types (h : @HOG TType).

Lemma HOG_ctor_constructed (b c s n g : Z)
  (block_norm : @THist TType -> @THist TType) (h : HOG) :
  HOG_ctor b c s n g block_norm = Normal h -> constructed h.
Proof.
  intros H. apply HOG_ctor_inv in H. destruct H as [Hcfg ->].
  unfold constructed. cbn. repeat split; try apply Hcfg.
Qed.

(** What a successful [process] establishes. *)
Lemma processed_facts (img : Mat Pixel) (h0 h : HOG) :
  constructed h0 ->
  Mat_wf (fst (cv_gradient img)) ->
  process cv_gradient img h0 = (Normal tt, h) ->
  constructed h /\
  _blocksize h = _blocksize h0 /\ _cellsize h = _cellsize h0 /\
  _stride h = _stride h0 /\ _binning h = _binning h0 /\
  _block_norm h = _block_norm h0 /\
  mag h = fst (cv_gradient img) /\ ori h = snd (cv_gradient img) /\
  grid_shape h (rows (mag h) / _cellsize h) (cols (mag h) / _cellsize h) /\
  forall i j,
    0 <= i < rows (mag h) / _cellsize h ->
    0 <= j < cols (mag h) / _cellsize h ->
    cell_hist_of h i j = Normal (grid_get h i j).
Proof.
  intros Hc [Hrows Hcols] H.
  destruct (process_success cv_gradient img h0 h H) as (g & -> & Hlen & Hg).
  pose proof Hc as ((_ & Hcs & _) & _).
  assert (Hny : _n_cells_y (prepared cv_gradient img h0)
                = rows (fst (cv_gradient img)) / _cellsize h0).
  { cbn. apply cell_units_div; assumption. }
  assert (Hnx : _n_cells_x (prepared cv_gradient img h0)
                = cols (fst (cv_gradient img)) / _cellsize h0).
  { cbn. apply cell_units_div; assumption. }
  rewrite Hny in Hlen, Hg. unfold row_ok in Hg. rewrite Hnx in Hg.
  repeat split; try reflexivity; try apply Hc.
  - exact Hlen.
  - intros i Hi. apply (Hg i Hi).
  - intros i j Hi Hj. destruct (Hg i Hi) as [_ Hcell].
    exact (Hcell j Hj).
Qed.

Lemma div_add_le (x w c : Z) :
  0 < c -> x / c + w / c <= (x + w) / c.
Proof.
  intros Hc. apply Z.div_le_lower_bound; [exact Hc|].
  pose proof (Z.mul_div_le x c Hc). pose proof (Z.mul_div_le w c Hc). lia.
Qed.

Lemma positions_bound (e su : Z) :
  0 <= e -> 0 < su ->
  (forall t, 0 <= t < Z.of_nat (Z.to_nat (e / su + 1)) -> t * su <= e) /\
  e < Z.of_nat (Z.to_nat (e / su + 1)) * su.
Proof.
  intros He Hsu.
  assert (Hq : 0 <= e / su) by (apply Z.div_pos; lia).
  rewrite Z2Nat.id by lia.
  pose proof (Z.mul_div_le e su Hsu).
  pose proof (Z.mul_succ_div_gt e su Hsu).
  split; [intros t Ht; nia|lia].
Qed.

Lemma multiple_div_pos (s c : Z) :
  0 < s -> 1 <= c -> s mod c = 0 -> 1 <= s / c <= s.
Proof.
  intros Hs Hc Hm.
  pose proof (Z.div_mod s c ltac:(lia)) as Hdm. rewrite Hm in Hdm.
  split; [nia|]. apply Z.div_le_upper_bound; nia.
Qed.

(** On a valid window both checks of [retrieve] pass, and the conversion
    to cell units is the integer division by the cell size. *)
Lemma retrieve_on_valid_window h (window : Rect) :
  constructed h -> Mat_wf (mag h) -> valid_window h window ->
  forall fuel,
    retrieve_result fuel window h
    = loop_block_y fuel h
        (rect_x window / _cellsize h) (rect_y window / _cellsize h)
        (rect_width window / _cellsize h) (rect_height window / _cellsize h)
        (rect_y window / _cellsize h) [].
Proof.
  intros ((Hb2 & Hc1 & _) & _) [Hrows Hcols] (Hx & Hy & Hw & Hh & Hxw & Hyh)
    fuel.
  unfold retrieve_result.
  rewrite (to_size_t_id (rect_height window)),
    (to_size_t_id (rect_width window)) by (apply int_max_size_t; lia).
  replace ((rect_height window <? _blocksize h)
           || (rect_width window <? _blocksize h)) with false by lia.
  unfold int_sub.
  replace ((int_min <=? cols (mag h) - rect_width window)
           && (cols (mag h) - rect_width window <=? int_max))
    with true by (unfold int_min, int_max in *; lia).
  cbn [bind].
  replace (rect_x window >? cols (mag h) - rect_width window)
    with false by lia.
  replace ((int_min <=? rows (mag h) - rect_height window)
           && (rows (mag h) - rect_height window <=? int_max))
    with true by (unfold int_min, int_max in *; lia).
  cbn [bind].
  replace (rect_y window >? rows (mag h) - rect_height window)
    with false by lia.
  rewrite !cell_units_div by lia. reflexivity.
Qed.

(** With a stride of zero the block loops never advance: no run of
    [retrieve] on a valid window returns. *)
Lemma loop_block_x_stuck h (x width block_y block_x : Z) :
  _stride_unit h = 0 -> is_size_t block_x ->
  block_x <= to_size_t (x + width - _n_cells_per_block_x h) ->
  forall fuel acc v,
    loop_block_x fuel h x width block_y block_x acc <> Normal v.
Proof.
  intros Hsu Hbx Hle. induction fuel as [|fuel IH]; intros acc v;
    cbn [loop_block_x]; [discriminate|].
  replace (block_x <=? to_size_t (x + width - _n_cells_per_block_x h))
    with true by lia.
  destruct (block_hist_at h block_y block_x); cbn [bind]; try discriminate.
  rewrite Hsu, Z.add_0_r, (to_size_t_id block_x) by exact Hbx. apply IH.
Qed.

Lemma retrieve_stuck h (window : Rect) :
  constructed h -> Mat_wf (mag h) -> valid_window h window ->
  _stride h = 0 ->
  forall fuel v, retrieve_result fuel window h <> Normal v.
Proof.
  intros Hc Hmat Hwin Hs fuel v.
  rewrite (retrieve_on_valid_window h window Hc Hmat Hwin).
  destruct Hc as ((Hb2 & Hc1 & _ & _ & Hbc & _) & _ & Hny & Hnx & _ & _ & Hsu).
  destruct Hmat as [Hrows Hcols].
  destruct Hwin as (Hx & Hy & Hw & Hh & Hxw & Hyh).
  rewrite Hs in Hsu. cbn in Hsu. rewrite Hny in Hnx.
  set (c := _cellsize h) in *. set (b := _blocksize h) in *.
  assert (Hwc : b / c <= rect_width window / c) by (apply Z.div_le_mono; lia).
  assert (Hhc : b / c <= rect_height window / c)
    by (apply Z.div_le_mono; lia).
  assert (Hxc : 0 <= rect_x window / c <= rect_x window).
  { split; [apply Z.div_pos; lia|apply Z.div_le_upper_bound; nia]. }
  assert (Hyc : 0 <= rect_y window / c <= rect_y window).
  { split; [apply Z.div_pos; lia|apply Z.div_le_upper_bound; nia]. }
  assert (Hwu : rect_width window / c <= rect_width window)
    by (apply Z.div_le_upper_bound; nia).
  assert (Hhu : rect_height window / c <= rect_height window)
    by (apply Z.div_le_upper_bound; nia).
  assert (Hbc0 : 0 <= b / c) by (apply Z.div_pos; lia).
  destruct fuel as [|fuel]; cbn [loop_block_y]; [discriminate|].
  rewrite Hny.
  rewrite (to_size_t_id (rect_y window / c + rect_height window / c - b / c))
    by (apply int_max_size_t; lia).
  replace (rect_y window / c <=?
           rect_y window / c + rect_height window / c - b / c)
    with true by lia.
  destruct (loop_block_x fuel h (rect_x window / c) (rect_width window / c)
              (rect_y window / c) (rect_x window / c) [])
    as [v'| | |] eqn:Hloop; cbn [bind]; try discriminate.
  exfalso. revert Hloop. apply loop_block_x_stuck.
  - exact Hsu.
  - apply int_max_size_t. lia.
  - rewrite Hnx, to_size_t_id by (apply int_max_size_t; lia). lia.
Qed.

(** [retrieve] on a window of a processed image, the stride not zero. *)
Lemma retrieve_valid (img : Mat Pixel) (h0 h : HOG) (window : Rect) :
  constructed h0 ->
  0 < _stride h0 <= int_max ->
  Mat_wf (fst (cv_gradient img)) ->
  process cv_gradient img h0 = (Normal tt, h) ->
  valid_window h window ->
  forall fuel,
    ((steps h (rect_width window) + steps h (rect_height window) < fuel)%nat ->
     retrieve_result fuel window h = Normal (spec_retrieve h window)) /\
    (retrieve_result fuel window h = OutOfFuel \/
     retrieve_result fuel window h = Normal (spec_retrieve h window)).
Proof.
  intros Hc0 Hstride Hmat Hproc Hwin fuel.
  destruct (processed_facts img h0 h Hc0 Hmat Hproc)
    as (Hc & Hb & Hcs & Hs & _ & _ & Hmag & _ & Hgrid & _).
  rewrite <- Hs in Hstride. clear Hb Hcs Hs Hc0 Hproc h0.
  rewrite <- Hmag in Hmat.
  pose proof (retrieve_on_valid_window h window Hc Hmat Hwin fuel) as HRV.
  destruct Hc as ((Hb2 & Hc1 & _ & _ & Hbc & Hsc) & _ & Hny & Hnx & _ & _ & Hsu).
  rewrite Hny in Hnx.
  destruct Hmat as [Hrows Hcols].
  destruct Hwin as (Hx & Hy & Hw & Hh & Hxw & Hyh).
  destruct window as [wx wy ww wh].
  cbn [rect_x rect_y rect_width rect_height] in *.
  set (c := _cellsize h) in *. set (b := _blocksize h) in *.
  assert (Hbpos : 1 <= b / c <= b) by (apply multiple_div_pos; lia).
  assert (Hspos : 1 <= _stride h / c <= _stride h)
    by (apply multiple_div_pos; lia).
  assert (Hwc : b / c <= ww / c) by (apply Z.div_le_mono; lia).
  assert (Hhc : b / c <= wh / c) by (apply Z.div_le_mono; lia).
  assert (Hxc : 0 <= wx / c) by (apply Z.div_pos; lia).
  assert (Hyc : 0 <= wy / c) by (apply Z.div_pos; lia).
  assert (Hxwc : wx / c + ww / c <= cols (mag h) / c).
  { etransitivity; [apply div_add_le; lia|]. apply Z.div_le_mono; lia. }
  assert (Hyhc : wy / c + wh / c <= rows (mag h) / c).
  { etransitivity; [apply div_add_le; lia|]. apply Z.div_le_mono; lia. }
  assert (Hcolsc : cols (mag h) / c <= int_max).
  { etransitivity; [|apply Hcols]. apply Z.div_le_upper_bound; nia. }
  assert (Hrowsc : rows (mag h) / c <= int_max).
  { etransitivity; [|apply Hrows]. apply Z.div_le_upper_bound; nia. }
  rewrite HRV. cbn [rect_x rect_y rect_width rect_height]. fold c.
  unfold spec_retrieve, steps. cbn [rect_x rect_y rect_width rect_height].
  fold c.
  assert (Hcpb : cells_per_block h = b / c) by reflexivity.
  assert (Hsic : stride_in_cells h = _stride h / c) by reflexivity.
  rewrite Hcpb, Hsic.
  set (su := _stride h / c) in *.
  set (kx := Z.to_nat ((ww / c - b / c) / su + 1)).
  set (ky := Z.to_nat ((wh / c - b / c) / su + 1)).
  destruct (positions_bound (ww / c - b / c) su) as [Hkx1 Hkx2]; [lia|lia|].
  destruct (positions_bound (wh / c - b / c) su) as [Hky1 Hky2]; [lia|lia|].
  fold kx in Hkx1, Hkx2. fold ky in Hky1, Hky2.
  assert (Hwrap : int_max + int_max < size_t_modulus) by reflexivity.
  pose (raw := fun block_y block_x : Z =>
    concat (map (fun cell_y =>
      concat (map (fun cell_x => grid_get h cell_y cell_x)
                (zrange block_x (block_x + _n_cells_per_block_x h))))
      (zrange block_y (block_y + _n_cells_per_block_y h)))).
  pose (row := fun block_y : Z =>
    concat (map (fun t => _block_norm h (raw block_y (wx / c + Z.of_nat t * su)))
              (seq 0 kx))).
  assert (Hinner : forall block_y acc fuel,
    0 <= block_y <= wy / c + wh / c - b / c ->
    ((kx < fuel)%nat ->
     loop_block_x fuel h (wx / c) (ww / c) block_y (wx / c) acc
     = Normal (acc ++ row block_y)) /\
    (loop_block_x fuel h (wx / c) (ww / c) block_y (wx / c) acc = OutOfFuel \/
     loop_block_x fuel h (wx / c) (ww / c) block_y (wx / c) acc
     = Normal (acc ++ row block_y))).
  { intros block_y acc f Hby.
    apply (loop_block_x_spec h (wx / c) (ww / c) block_y
             (wx / c + ww / c - b / c) su (raw block_y)).
    - rewrite Hnx. apply to_size_t_id. apply int_max_size_t. lia.
    - exact Hsu.
    - lia.
    - lia.
    - intros bx Hbx.
      apply (block_hist_at_in_bounds h (rows (mag h) / c) (cols (mag h) / c));
        try exact Hgrid; rewrite ?Hnx, ?Hny; try lia.
    - exact Hxc.
    - intros t Ht. specialize (Hkx1 t Ht). lia.
    - lia. }
  destruct (loop_block_y_spec h (wx / c) (wy / c) (ww / c) (wh / c)
              (wy / c + wh / c - b / c) su kx row) with
    (k := ky) (block_y := wy / c) (acc := @nil TType) (fuel := fuel)
    as [H1 H2].
  - rewrite Hny. apply to_size_t_id. apply int_max_size_t. lia.
  - exact Hsu.
  - lia.
  - lia.
  - exact Hinner.
  - exact Hyc.
  - intros t Ht. specialize (Hky1 t Ht). lia.
  - lia.
  - cbn [app] in H1, H2.
    assert (Heq : concat (map (fun t => row (wy / c + Z.of_nat t * su)) (seq 0 ky))
      = concat (map (fun block_y =>
          concat (map (fun block_x => spec_block h block_y block_x)
            (map (fun k => wx / c + Z.of_nat k * su) (seq 0 kx))))
          (map (fun k => wy / c + Z.of_nat k * su) (seq 0 ky)))).
    { rewrite map_map. f_equal. apply map_ext. intros t. unfold row.
      rewrite map_map. f_equal. apply map_ext. intros t'.
      unfold spec_block, raw, cells_per_block. rewrite Hnx, Hny.
      reflexivity. }
    split.
    + intros Hf. rewrite (H1 Hf). f_equal. exact Heq.
    + destruct H2 as [H2 | H2]; [left; exact H2|right].
      rewrite H2. f_equal. exact Heq.
Qed.

Lemma retrieve_result_normal (img : Mat Pixel) (h0 h : HOG) (window : Rect) :
  constructed h0 ->
  0 <= _stride h0 <= int_max ->
  Mat_wf (fst (cv_gradient img)) ->
  process cv_gradient img h0 = (Normal tt, h) ->
  valid_window h window ->
  forall fuel v,
    retrieve_result fuel window h = Normal v -> v = spec_retrieve h window.
Proof.
  intros Hc0 Hstride Hmat Hproc Hwin fuel v Hv.
  destruct (Z.eq_dec (_stride h0) 0) as [Hz | Hnz].
  - exfalso.
    destruct (processed_facts img h0 h Hc0 Hmat Hproc)
      as (Hc & _ & _ & Hs & _ & _ & Hmag & _).
    rewrite <- Hmag in Hmat. rewrite <- Hs in Hz.
    exact (retrieve_stuck h window Hc Hmat Hwin Hz fuel v Hv).
  - destruct (retrieve_valid img h0 h window Hc0 ltac:(lia) Hmat Hproc Hwin fuel)
      as [_ [H | H]]; congruence.
Qed.

Lemma retrieve_result_returns (img : Mat Pixel) (h0 h : HOG) (window : Rect) :
  constructed h0 ->
  0 < _stride h0 <= int_max ->
  Mat_wf (fst (cv_gradient img)) ->
  process cv_gradient img h0 = (Normal tt, h) ->
  valid_window h window ->
  retrieve_returns window h (spec_retrieve h window) h.
Proof.
  intros Hc0 Hstride Hmat Hproc Hwin.
  exists (S (steps h (rect_width window) + steps h (rect_height window))).
  intros fuel Hfuel. unfold retrieve. f_equal.
  apply (retrieve_valid img h0 h window Hc0 Hstride Hmat Hproc Hwin fuel).
  lia.
Qed.


(** C9: [retrieve] only reads the object.  Whatever the object and the
    window, a call leaves the object, with its gradient maps and its grid
    of cell histograms, as it found it, and two calls in a row that return
    give the same vector.  On a valid window after a successful [process],
    with a stride that is not zero, the calls do return. *)
Theorem retrieve_is_pure_read (img : Mat Pixel) (h0 h : HOG)
  (window : Rect) :
  constructed h0 ->
  0 < _stride h0 <= int_max ->
  Mat_wf (fst (cv_gradient img)) ->
  process cv_gradient img h0 = (Normal tt, h) ->
  valid_window h window ->
  (forall fuel1 fuel2 r1 h1 r2 h2,
     retrieve fuel1 window h = (r1, h1) ->
     retrieve fuel2 window h1 = (r2, h2) ->
     h1 = h /\ h2 = h /\
     mag h2 = mag h /\ ori h2 = ori h /\ _cell_hists h2 = _cell_hists h /\
     forall v1 v2, r1 = Normal v1 -> r2 = Normal v2 -> v1 = v2) /\
  (exists v,
     retrieve_returns window h v h /\
     forall fuel1 fuel2 v1 h1 v2 h2,
       retrieve fuel1 window h = (Normal v1, h1) ->
       retrieve fuel2 window h1 = (Normal v2, h2) ->
       v1 = v /\ v2 = v).
Proof.
  intros Hc0 Hstride Hmat Hproc Hwin. split.
  - intros fuel1 fuel2 r1 h1 r2 h2 H1 H2.
    unfold retrieve in H1. injection H1 as Hr1 <-.
    unfold retrieve in H2. injection H2 as Hr2 <-.
    repeat split. intros v1 v2 -> ->.
    exact (retrieve_result_deterministic h window fuel1 fuel2 v1 v2 Hr1 Hr2).
  - exists (spec_retrieve h window). split.
    + apply (retrieve_result_returns img h0); assumption.
    + intros fuel1 fuel2 v1 h1 v2 h2 H1 H2.
      unfold retrieve in H1. injection H1 as Hr1 <-.
      unfold retrieve in H2. injection H2 as Hr2 <-.
      assert (Hs : 0 <= _stride h0 <= int_max) by lia.
      split.
      * exact (retrieve_result_normal img h0 h window Hc0 Hs Hmat Hproc Hwin
                 fuel1 v1 Hr1).
      * exact (retrieve_result_normal img h0 h window Hc0 Hs Hmat Hproc Hwin
                 fuel2 v2 Hr2).
Qed.

(** The number of positions in cell units is the closed form in pixels. *)
Lemma n_blocks_cells (e b s c : Z) :
  1 <= c -> 0 < s -> b mod c = 0 -> s mod c = 0 ->
  (e / c - b / c) / (s / c) = (e - b) / s.
Proof.
  intros Hc Hs Hb Hsc.
  assert (Hbd : b = c * (b / c))
    by (pose proof (Z.div_mod b c ltac:(lia)); lia).
  assert (Hsd : s = c * (s / c))
    by (pose proof (Z.div_mod s c ltac:(lia)); lia).
  assert (Hsq : 0 < s / c) by nia.
  rewrite Hsd at 2. rewrite <- Z.div_div by lia. f_equal.
  rewrite Hbd at 2.
  replace (e - c * (b / c)) with (e + - (b / c) * c) by lia.
  rewrite Z.div_add by lia. lia.
Qed.

Lemma block_positions_length h (start extent : Z) :
  length (block_positions h start extent)
  = Z.to_nat ((extent - cells_per_block h) / stride_in_cells h + 1).
Proof. unfold block_positions. rewrite length_map, length_seq. reflexivity. Qed.

Lemma block_positions_In h (start extent p : Z) :
  0 <= extent - cells_per_block h -> 0 < stride_in_cells h ->
  In p (block_positions h start extent) ->
  start <= p <= start + extent - cells_per_block h.
Proof.
  intros He Hs Hin. unfold block_positions in Hin.
  apply in_map_iff in Hin. destruct Hin as (t & <- & Ht).
  apply in_seq in Ht.
  destruct (positions_bound _ _ He Hs) as [Hle _].
  specialize (Hle (Z.of_nat t) ltac:(lia)). lia.
Qed.

(** The positions of [block_positions] are the multiples of the step from
    [start] on that do not pass the last valid position
    [start + extent - cells_per_block]. *)
Lemma block_positions_spec h (start extent p : Z) :
  0 <= extent - cells_per_block h -> 0 < stride_in_cells h ->
  (In p (block_positions h start extent) <->
   exists k, 0 <= k /\ p = start + k * stride_in_cells h /\
             p <= start + extent - cells_per_block h).
Proof.
  intros He Hs. split.
  - intros Hin. pose proof (block_positions_In h start extent p He Hs Hin).
    unfold block_positions in Hin. apply in_map_iff in Hin.
    destruct Hin as (t & <- & _). exists (Z.of_nat t). lia.
  - intros (k & Hk & -> & Hle). unfold block_positions.
    apply in_map_iff. exists (Z.to_nat k). split; [lia|].
    apply in_seq.
    assert (k <= (extent - cells_per_block h) / stride_in_cells h)
      by (apply Z.div_le_lower_bound; lia).
    lia.
Qed.

(** The length of the descriptor of a valid window. *)
Lemma spec_retrieve_length (img : Mat Pixel) (h0 h : HOG) (window : Rect) :
  constructed h0 ->
  0 < _stride h0 <= int_max ->
  Mat_wf (fst (cv_gradient img)) ->
  process cv_gradient img h0 = (Normal tt, h) ->
  valid_window h window ->
  (forall v, length (_block_norm h0 v) = length v) ->
  Z.of_nat (length (spec_retrieve h window))
  = _binning h * (cells_per_block h * cells_per_block h)
    * n_blocks h (rect_height window) * n_blocks h (rect_width window).
Proof.
  intros Hc0 Hstride Hmat Hproc Hwin Hnorm.
  destruct (processed_facts img h0 h Hc0 Hmat Hproc)
    as (Hc & _ & _ & Hs & _ & Hbn & Hmag & _ & Hgrid & Hcells).
  rewrite <- Hs in Hstride. rewrite <- Hbn in Hnorm.
  rewrite <- Hmag in Hmat. clear Hs Hbn Hmag Hc0 Hproc h0.
  destruct Hc as ((Hb2 & Hc1 & Hn2 & _ & Hbc & Hsc) & _).
  destruct Hmat as [Hrows Hcols].
  destruct Hwin as (Hx & Hy & Hw & Hh & Hxw & Hyh).
  unfold n_blocks.
  rewrite <- (n_blocks_cells (rect_height window) _ _ (_cellsize h))
    by (assumption || lia).
  rewrite <- (n_blocks_cells (rect_width window) _ _ (_cellsize h))
    by (assumption || lia).
  fold (cells_per_block h) (stride_in_cells h).
  assert (Hcpb : 1 <= cells_per_block h)
    by (apply multiple_div_pos; lia).
  assert (Hsu : 1 <= stride_in_cells h)
    by (apply multiple_div_pos; lia).
  set (c := _cellsize h) in *.
  assert (Hwc : cells_per_block h <= rect_width window / c)
    by (apply Z.div_le_mono; lia).
  assert (Hhc : cells_per_block h <= rect_height window / c)
    by (apply Z.div_le_mono; lia).
  assert (Hxc : 0 <= rect_x window / c) by (apply Z.div_pos; lia).
  assert (Hyc : 0 <= rect_y window / c) by (apply Z.div_pos; lia).
  assert (Hxwc : rect_x window / c + rect_width window / c
                 <= cols (mag h) / c).
  { etransitivity; [apply div_add_le; lia|]. apply Z.div_le_mono; lia. }
  assert (Hyhc : rect_y window / c + rect_height window / c
                 <= rows (mag h) / c).
  { etransitivity; [apply div_add_le; lia|]. apply Z.div_le_mono; lia. }
  set (bins := Z.to_nat (_binning h)).
  set (cpb := Z.to_nat (cells_per_block h)).
  assert (Hblock : forall block_y block_x,
    0 <= block_y -> block_y + cells_per_block h <= rows (mag h) / c ->
    0 <= block_x -> block_x + cells_per_block h <= cols (mag h) / c ->
    length (spec_block h block_y block_x) = (cpb * (cpb * bins))%nat).
  { intros block_y block_x Hy0 Hy1 Hx0 Hx1. unfold spec_block.
    rewrite Hnorm.
    rewrite (length_concat_const _ (cpb * bins)).
    - rewrite zrange_length. f_equal. unfold cpb. f_equal. lia.
    - intros cell_y Hcy. apply zrange_In in Hcy.
      rewrite (length_concat_const _ bins).
      + rewrite zrange_length. f_equal. unfold cpb. f_equal. lia.
      + intros cell_x Hcx. apply zrange_In in Hcx.
        apply (cell_hist_of_length h cell_y cell_x).
        apply Hcells; lia. }
  unfold spec_retrieve. fold c.
  rewrite (length_concat_const _
             (Z.to_nat ((rect_width window / c - cells_per_block h)
                        / stride_in_cells h + 1) * (cpb * (cpb * bins)))).
  - rewrite block_positions_length.
    assert (0 <= (rect_height window / c - cells_per_block h)
                 / stride_in_cells h) by (apply Z.div_pos; lia).
    assert (0 <= (rect_width window / c - cells_per_block h)
                 / stride_in_cells h) by (apply Z.div_pos; lia).
    unfold cpb, bins. rewrite !Nat2Z.inj_mul, !Z2Nat.id by lia. ring.
  - intros block_y Hby.
    apply block_positions_In in Hby; [|lia|lia].
    rewrite (length_concat_const _ (cpb * (cpb * bins))).
    + rewrite block_positions_length. reflexivity.
    + intros block_x Hbx.
      apply block_positions_In in Hbx; [|lia|lia].
      apply Hblock; lia.
Qed.


(** The block loops raise no exception. *)
Lemma for_each_no_throw {I A : Type} (body : I -> A -> outcome A)
  (l : list I) :
  (forall i a e, body i a <> Throw e) ->
  forall a e, for_each l body a <> Throw e.
Proof.
  intros Hbody. induction l as [|i l IH]; intros a e; cbn [for_each];
    [discriminate|].
  destruct (body i a) as [a'|e'| |] eqn:Hb; cbn [bind];
    try discriminate; [apply IH|].
  exfalso. exact (Hbody i a e' Hb).
Qed.

Lemma block_hist_at_no_throw h (block_y block_x : Z) (e : exn) :
  block_hist_at h block_y block_x <> Throw e.
Proof.
  unfold block_hist_at. apply for_each_no_throw.
  intros cell_y a e'. apply for_each_no_throw.
  intros cell_x a' e''. unfold cell_at.
  destruct (_ <? _); [|discriminate].
  destruct (_ <? _); discriminate.
Qed.

Lemma loop_block_x_no_throw h (x width block_y : Z) (fuel : nat) :
  forall block_x acc e,
    loop_block_x fuel h x width block_y block_x acc <> Throw e.
Proof.
  induction fuel as [|fuel IH]; intros block_x acc e; cbn [loop_block_x];
    [discriminate|].
  destruct (_ <=? _); [|discriminate].
  destruct (block_hist_at h block_y block_x) as [v|e'| |] eqn:Hb;
    cbn [bind]; try discriminate; [apply IH|].
  exfalso. exact (block_hist_at_no_throw h block_y block_x e' Hb).
Qed.

Lemma loop_block_y_no_throw h (x y width height : Z) (fuel : nat) :
  forall block_y acc e,
    loop_block_y fuel h x y width height block_y acc <> Throw e.
Proof.
  induction fuel as [|fuel IH]; intros block_y acc e; cbn [loop_block_y];
    [discriminate|].
  destruct (_ <=? _); [|discriminate].
  destruct (loop_block_x fuel h x width block_y x acc) as [v|e'| |] eqn:Hb;
    cbn [bind]; try discriminate; [apply IH|].
  exfalso. exact (loop_block_x_no_throw h x width block_y fuel x acc e' Hb).
Qed.

(** The checks of [retrieve] do not look at the sign of the origin: a
    window of at least one block with [x + width <= map_width] and
    [y + height <= map_height] passes both, whatever [x] and [y]. *)
Lemma retrieve_checks_ignore_origin_sign h (window : Rect) (fuel : nat) :
  Mat_wf (mag h) -> Rect_wf window -> 0 <= _blocksize h ->
  _blocksize h <= rect_width window ->
  _blocksize h <= rect_height window ->
  rect_x window + rect_width window <= cols (mag h) ->
  rect_y window + rect_height window <= rows (mag h) ->
  retrieve_result fuel window h
  = loop_block_y fuel h
      (cell_units (rect_x window) (_cellsize h))
      (cell_units (rect_y window) (_cellsize h))
      (cell_units (rect_width window) (_cellsize h))
      (cell_units (rect_height window) (_cellsize h))
      (cell_units (rect_y window) (_cellsize h)) [].
Proof.
  intros [Hrows Hcols] (Hx & Hy & Hw & Hh) Hb Hbw Hbh Hxw Hyh.
  unfold retrieve_result. unfold is_int, int_min, int_max in *.
  rewrite (to_size_t_id (rect_height window)),
    (to_size_t_id (rect_width window))
    by (unfold is_size_t, size_t_modulus; lia).
  replace ((rect_height window <? _blocksize h)
           || (rect_width window <? _blocksize h)) with false by lia.
  unfold int_sub, int_min, int_max.
  replace ((- 2 ^ 31 <=? cols (mag h) - rect_width window)
           && (cols (mag h) - rect_width window <=? 2 ^ 31 - 1))
    with true by lia.
  cbn [bind].
  replace (rect_x window >? cols (mag h) - rect_width window)
    with false by lia.
  replace ((- 2 ^ 31 <=? rows (mag h) - rect_height window)
           && (rows (mag h) - rect_height window <=? 2 ^ 31 - 1))
    with true by lia.
  cbn [bind].
  replace (rect_y window >? rows (mag h) - rect_height window)
    with false by lia.
  reflexivity.
Qed.

(** C5, as amended: for a window whose width and height are not negative,
    [retrieve] throws the window-too-small error exactly when the height
    or the width is smaller than the block size; otherwise it throws the
    out-of-bounds error exactly when [x + width > map_width] or
    [y + height > map_height]; the two errors are distinct, and
    [retrieve] throws nothing else: there is no error of its own for an
    object that was never processed, whose empty gradient maps make a
    window with a non-negative origin fail with the out-of-bounds
    error. *)
Theorem retrieve_failures h (window : Rect) (fuel : nat) :
  constructed h -> Mat_wf (mag h) -> Rect_wf window ->
  0 <= rect_width window -> 0 <= rect_height window ->
  (retrieve_result fuel window h = Throw window_too_small <->
   rect_height window < _blocksize h \/ rect_width window < _blocksize h) /\
  (retrieve_result fuel window h = Throw window_outside <->
   ~ (rect_height window < _blocksize h \/ rect_width window < _blocksize h) /\
   (rect_x window + rect_width window > cols (mag h) \/
    rect_y window + rect_height window > rows (mag h))) /\
  (forall e, retrieve_result fuel window h = Throw e ->
     e = window_too_small \/ e = window_outside) /\
  window_too_small <> window_outside /\
  (mag h = Mat_empty ->
   ~ (rect_height window < _blocksize h \/ rect_width window < _blocksize h) ->
   0 <= rect_x window ->
   retrieve_result fuel window h = Throw window_outside).
Proof.
  intros ((Hb2 & _) & _) [Hrows Hcols] (Hx & Hy & Hw & Hh) Hw0 Hh0.
  assert (Hcase :
    (rect_height window < _blocksize h \/ rect_width window < _blocksize h) /\
    retrieve_result fuel window h = Throw window_too_small
    \/
    ~ (rect_height window < _blocksize h \/ rect_width window < _blocksize h) /\
    (rect_x window + rect_width window > cols (mag h) \/
     rect_y window + rect_height window > rows (mag h)) /\
    retrieve_result fuel window h = Throw window_outside
    \/
    ~ (rect_height window < _blocksize h \/ rect_width window < _blocksize h) /\
    ~ (rect_x window + rect_width window > cols (mag h) \/
       rect_y window + rect_height window > rows (mag h)) /\
    forall e, retrieve_result fuel window h <> Throw e).
  { unfold retrieve_result.
    unfold is_int, int_min, int_max in *.
    rewrite (to_size_t_id (rect_height window)),
      (to_size_t_id (rect_width window))
      by (unfold is_size_t, size_t_modulus; lia).
    destruct ((rect_height window <? _blocksize h)
              || (rect_width window <? _blocksize h)) eqn:Hsmall.
    { left. split; [lia|reflexivity]. }
    right. unfold int_sub, int_min, int_max.
    replace ((- 2 ^ 31 <=? cols (mag h) - rect_width window)
             && (cols (mag h) - rect_width window <=? 2 ^ 31 - 1))
      with true by lia.
    cbn [bind].
    destruct (rect_x window >? cols (mag h) - rect_width window) eqn:Hox.
    { left. repeat split; [lia|lia]. }
    replace ((- 2 ^ 31 <=? rows (mag h) - rect_height window)
             && (rows (mag h) - rect_height window <=? 2 ^ 31 - 1))
      with true by lia.
    cbn [bind].
    destruct (rect_y window >? rows (mag h) - rect_height window) eqn:Hoy.
    { left. repeat split; [lia|lia]. }
    right. repeat split; [lia|lia|].
    intros e. apply loop_block_y_no_throw. }
  assert (Hne : window_too_small <> window_outside) by discriminate.
  repeat split.
  - intros Hr. destruct Hcase as [[Hs _] | [(_ & _ & Hr') | (_ & _ & Hr')]].
    + exact Hs.
    + rewrite Hr in Hr'. congruence.
    + exfalso. exact (Hr' _ Hr).
  - intros Hs. destruct Hcase as [[_ Hr] | [(Hn & _) | (Hn & _)]];
      [exact Hr|contradiction|contradiction].
  - destruct Hcase as [[_ Hr'] | [(Hn & _) | (Hn & _)]]; try exact Hn.
    rewrite Hr' in H. congruence.
  - destruct Hcase as [[_ Hr'] | [(_ & Ho & _) | (_ & _ & Hr')]].
    + rewrite Hr' in H. congruence.
    + exact Ho.
    + exfalso. exact (Hr' _ H).
  - intros [Hn Ho]. destruct Hcase as [[Hs _] | [(_ & _ & Hr) | (_ & Hno & _)]];
      [contradiction|exact Hr|contradiction].
  - intros e Hr. destruct Hcase as [[_ Hr'] | [(_ & _ & Hr') | (_ & _ & Hr')]].
    + left. congruence.
    + right. congruence.
    + exfalso. exact (Hr' _ Hr).
  - exact Hne.
  - intros Hempty Hn Hx0.
    destruct Hcase as [[Hs _] | [(_ & _ & Hr) | (_ & Hno & _)]];
      [contradiction|exact Hr|].
    exfalso. apply Hno. rewrite Hempty. cbn [cols rows Mat_empty]. lia.
Qed.

End Descriptor.

(** ** Block normalisation: lengths *)

Section NormLength.
Context {TType : Type} {ops : TTypeOps TType}.
Implicit Types (v : @THist TType).

Lemma L1norm_length v : length (L1norm v) = length v.
Proof.
  unfold L1norm. destruct (negb _); [apply length_map|reflexivity].
Qed.

Lemma L1sqrt_length v : length (L1sqrt v) = length v.
Proof. unfold L1sqrt. rewrite length_map. apply L1norm_length. Qed.

Lemma L2norm_length v : length (L2norm v) = length v.
Proof.
  unfold L2norm. destruct (negb _); [apply length_map|reflexivity].
Qed.

Lemma L2hys_length v : length (L2hys v) = length v.
Proof.
  unfold L2hys. rewrite L2norm_length, length_map. apply L2norm_length.
Qed.

Lemma none_length v : length (none v) = length v.
Proof. reflexivity. Qed.

End NormLength.

(** ** Closed examples in single precision *)

Lemma demo_fresh_ctor :
  HOG_ctor 2 1 1 9 GRADIENT_UNSIGNED L2hys = Normal Demo.fresh.
Proof. reflexivity. Qed.

Lemma demo_constructed : constructed Demo.fresh.
Proof. exact (HOG_ctor_constructed _ _ _ _ _ _ _ demo_fresh_ctor). Qed.

Lemma demo_process :
  process Demo.gradient Demo.image Demo.fresh = (Normal tt, Demo.processed).
Proof.
  unfold Demo.processed.
  rewrite (surjective_pairing (process Demo.gradient Demo.image Demo.fresh))
    at 1.
  apply f_equal2; [vm_compute; reflexivity|reflexivity].
Qed.

Lemma demo_gradient_wf : Mat_wf (fst (Demo.gradient Demo.image)).
Proof.
  unfold Mat_wf, int_max, Demo.gradient, Demo.image. cbn [fst rows cols]. lia.
Qed.

Lemma demo_window_valid : valid_window Demo.processed Demo.window.
Proof.
  unfold valid_window, Demo.window.
  cbn [rect_x rect_y rect_width rect_height].
  change (cols (mag Demo.processed)) with 4.
  change (rows (mag Demo.processed)) with 4.
  change (_blocksize Demo.processed) with 2. lia.
Qed.

Lemma demo_stride : 0 <= _stride Demo.fresh <= int_max.
Proof. unfold int_max, Demo.fresh. cbn [_stride]. lia. Qed.

(** C4 (the claim does not hold): an object holding the grid of a processed
    image is given an image without data; [process] throws, the session is
    left as it was, processed, and [retrieve] still returns the vector of
    the prior image. *)
Lemma process_failure_keeps_prior_result :
  process Demo.gradient Mat_empty Demo.processed
  = (Throw invalid_image, Demo.processed) /\
  Z.of_nat (length (_cell_hists Demo.processed)) = 4 /\
  exists v,
    retrieve 9 Demo.window
      (snd (process Demo.gradient Mat_empty Demo.processed))
    = (Normal v, Demo.processed) /\ length v = 72%nat.
Proof.
  split; [reflexivity|]. split; [vm_compute; reflexivity|].
  eexists. split.
  - unfold retrieve. f_equal. vm_compute. reflexivity.
  - reflexivity.
Qed.

(** C5 (the claim does not hold): [retrieve] on an object that was never
    processed, for a window of one block at the origin, throws the
    out-of-bounds error, where the specification prescribes an error of
    its own. *)
Lemma retrieve_unprocessed_is_out_of_bounds :
  HOG_ctor 2 1 1 9 GRADIENT_UNSIGNED L2hys = Normal Demo.fresh /\
  fst (retrieve 1 (mkRect 0 0 2 2) Demo.fresh) = Throw window_outside /\
  failure_of (fst (retrieve 1 (mkRect 0 0 2 2) Demo.fresh))
  = Some WindowOutOfBounds /\
  spec_retrieve_failure false (_blocksize Demo.fresh)
    (cols (mag Demo.fresh)) (rows (mag Demo.fresh)) (mkRect 0 0 2 2)
  = Some NotProcessed /\
  failure_of (fst (retrieve 1 (mkRect 0 0 2 2) Demo.fresh))
  <> spec_retrieve_failure false (_blocksize Demo.fresh)
       (cols (mag Demo.fresh)) (rows (mag Demo.fresh)) (mkRect 0 0 2 2).
Proof. repeat split. discriminate. Qed.

(** C10: the checks of [retrieve] accept a window whose origin is left of
    the image.  On the processed 4x4 image, the window
    [cv::Rect(-3, 0, 2, 2)] has a negative [x], a width and a height of one
    block, and [x + width <= map_width]; no check throws, the origin
    converts to the cell column [2^64 - 3], and the first access to
    [_cell_hists] is outside of the grid. *)
Theorem retrieve_accepts_negative_origin :
  process Demo.gradient Demo.image Demo.fresh = (Normal tt, Demo.processed) /\
  rect_x Demo.window_left < 0 /\
  _blocksize Demo.processed <= rect_width Demo.window_left /\
  _blocksize Demo.processed <= rect_height Demo.window_left /\
  rect_x Demo.window_left + rect_width Demo.window_left
  <= cols (mag Demo.processed) /\
  rect_y Demo.window_left + rect_height Demo.window_left
  <= rows (mag Demo.processed) /\
  cell_units (rect_x Demo.window_left) (_cellsize Demo.processed)
  = 2 ^ 64 - 3 /\
  cell_at Demo.processed 0 (2 ^ 64 - 3) = Undefined index_out_of_bounds /\
  forall fuel,
    retrieve (S (S fuel)) Demo.window_left Demo.processed
    = (Undefined index_out_of_bounds, Demo.processed).
Proof.
  split; [exact demo_process|].
  repeat (split; [vm_compute; reflexivity || (intros ?; discriminate)|]).
  intros fuel. reflexivity.
Qed.

(** The theorems on the descriptor, at the small session. *)



Lemma demo_stride_pos : 0 < _stride Demo.fresh <= int_max.
Proof. unfold int_max, Demo.fresh. cbn [_stride]. lia. Qed.

Lemma retrieve_is_pure_read_witness :
  constructed Demo.fresh /\
  0 < _stride Demo.fresh <= int_max /\
  Mat_wf (fst (Demo.gradient Demo.image)) /\
  process Demo.gradient Demo.image Demo.fresh = (Normal tt, Demo.processed) /\
  valid_window Demo.processed Demo.window /\
  exists v,
    retrieve_returns Demo.window Demo.processed v Demo.processed /\
    forall fuel1 fuel2 v1 h1 v2 h2,
      retrieve fuel1 Demo.window Demo.processed = (Normal v1, h1) ->
      retrieve fuel2 Demo.window h1 = (Normal v2, h2) ->
      v1 = v /\ v2 = v.
Proof.
  split; [exact demo_constructed|].
  split; [exact demo_stride_pos|].
  split; [exact demo_gradient_wf|].
  split; [exact demo_process|].
  split; [exact demo_window_valid|].
  exact (proj2 (retrieve_is_pure_read Demo.gradient Demo.image Demo.fresh
                  Demo.processed Demo.window demo_constructed demo_stride_pos
                  demo_gradient_wf demo_process demo_window_valid)).
Defined.

Lemma process_validates_before_clearing_witness :
  (data (@Mat_empty Z) = None \/
   to_size_t (rows (@Mat_empty Z)) < _blocksize Demo.processed \/
   to_size_t (cols (@Mat_empty Z)) < _blocksize Demo.processed) /\
  snd (process Demo.gradient Mat_empty Demo.processed) = Demo.processed /\
  (fst (process Demo.gradient Mat_empty Demo.processed) = Throw invalid_image \/
   fst (process Demo.gradient Mat_empty Demo.processed) = Throw image_too_small).
Proof.
  split; [left; reflexivity|].
  exact (process_validates_before_clearing Demo.gradient Mat_empty
           Demo.processed (or_introl eq_refl)).
Defined.

Lemma demo_processed_constructed : constructed Demo.processed.
Proof.
  exact (proj1 (processed_facts Demo.gradient Demo.image Demo.fresh
                  Demo.processed demo_constructed demo_gradient_wf
                  demo_process)).
Qed.

Lemma demo_processed_mag_wf : Mat_wf (mag Demo.processed).
Proof. exact demo_gradient_wf. Qed.

Lemma demo_window_wf : Rect_wf Demo.window.
Proof.
  unfold Rect_wf, is_int, int_min, int_max, Demo.window.
  cbn [rect_x rect_y rect_width rect_height]. lia.
Qed.

Lemma retrieve_failures_witness :
  constructed Demo.processed /\ Mat_wf (mag Demo.processed) /\
  Rect_wf Demo.window /\
  0 <= rect_width Demo.window /\ 0 <= rect_height Demo.window /\
  (retrieve_result 9 Demo.window Demo.processed = Throw window_too_small <->
   rect_height Demo.window < _blocksize Demo.processed \/
   rect_width Demo.window < _blocksize Demo.processed) /\
  (retrieve_result 9 Demo.window Demo.processed = Throw window_outside <->
   ~ (rect_height Demo.window < _blocksize Demo.processed \/
      rect_width Demo.window < _blocksize Demo.processed) /\
   (rect_x Demo.window + rect_width Demo.window > cols (mag Demo.processed) \/
    rect_y Demo.window + rect_height Demo.window > rows (mag Demo.processed))) /\
  (forall e, retrieve_result 9 Demo.window Demo.processed = Throw e ->
     e = window_too_small \/ e = window_outside) /\
  window_too_small <> window_outside /\
  (mag Demo.processed = Mat_empty ->
   ~ (rect_height Demo.window < _blocksize Demo.processed \/
      rect_width Demo.window < _blocksize Demo.processed) ->
   0 <= rect_x Demo.window ->
   retrieve_result 9 Demo.window Demo.processed = Throw window_outside).
Proof.
  split; [exact demo_processed_constructed|].
  split; [exact demo_processed_mag_wf|].
  split; [exact demo_window_wf|].
  split; [unfold Demo.window; cbn [rect_width]; lia|].
  split; [unfold Demo.window; cbn [rect_height]; lia|].
  apply (retrieve_failures Demo.processed Demo.window 9
           demo_processed_constructed demo_processed_mag_wf demo_window_wf).
  - unfold Demo.window; cbn [rect_width]; lia.
  - unfold Demo.window; cbn [rect_height]; lia.
Defined.

(** ** Block normalisation in exact arithmetic *)

Section IdealNorms.
Local Open Scope R_scope.
Implicit Types (v : list R).

Local Abbreviation sum v := (@accumulate R ideal v 0).
Local Abbreviation eps := (@epsilon R ideal).

Lemma eps_value : eps = 1 / 1000000.
Proof. reflexivity. Qed.

Lemma fold_left_Rplus v (a : R) :
  fold_left Rplus v a = a + fold_left Rplus v 0.
Proof.
  revert a. induction v as [|x v IH]; intros a; cbn [fold_left].
  - lra.
  - rewrite (IH (a + x)), (IH (0 + x)). lra.
Qed.

Lemma accumulate_shift v (a : R) :
  @accumulate R ideal v a = a + sum v.
Proof. apply fold_left_Rplus. Qed.

Lemma sum_cons (x : R) v : sum (x :: v) = x + sum v.
Proof.
  change (sum (x :: v)) with (@accumulate R ideal v (0 + x)).
  rewrite accumulate_shift. lra.
Qed.

Lemma sum_nonneg v : (forall x, In x v -> 0 <= x) -> 0 <= sum v.
Proof.
  induction v as [|x v IH]; intros H.
  - unfold accumulate. cbn. lra.
  - rewrite sum_cons.
    assert (0 <= x) by (apply H; left; reflexivity).
    assert (0 <= sum v) by (apply IH; intros y Hy; apply H; right; exact Hy).
    lra.
Qed.

Lemma sum_div v (d : R) : sum (map (fun x => x / d) v) = sum v / d.
Proof.
  induction v as [|x v IH]; cbn [map].
  - unfold accumulate. cbn. lra.
  - rewrite !sum_cons, IH. unfold Rdiv. lra.
Qed.

Lemma sum_squares_nonneg v : 0 <= sum (map (fun x => x * x) v).
Proof.
  apply sum_nonneg. intros y Hy. apply in_map_iff in Hy.
  destruct Hy as (x & <- & _). nra.
Qed.

Lemma eqb_false (x : R) : x <> 0 -> Ideal.eqb x (IZR 0) = false.
Proof. intros H. unfold Ideal.eqb. destruct (Req_EM_T x 0); congruence. Qed.

(** [L1norm] on a vector whose sum is not [- epsilon]. *)
Lemma L1norm_divides v :
  sum v + eps <> 0 ->
  @L1norm R ideal v = map (fun x => x / (sum v + eps)) v.
Proof.
  intros Hden. unfold L1norm. cbn [f_add f_eqb f_of_Z f_div ideal].
  change (@zero R ideal) with 0.
  rewrite eqb_false by exact Hden. reflexivity.
Qed.


(** In exact arithmetic the result of [L1norm] on the vector [0.5], whose
    single element is [0.5 / 0.500001], sums to less than [1 - epsilon]. *)
Lemma L1norm_half_ideal :
  sum (@L1norm R ideal [1 / 2]) = 500000 / 500001 /\
  eps < 1 - sum (@L1norm R ideal [1 / 2]) /\
  ~ Rabs (sum (@L1norm R ideal [1 / 2]) - 1) <= eps.
Proof.
  assert (H : sum (@L1norm R ideal [1 / 2]) = 500000 / 500001).
  { assert (Hs : sum [1 / 2] = 1 / 2).
    { rewrite sum_cons. change (sum []) with 0. lra. }
    rewrite L1norm_divides by (rewrite Hs, eps_value; lra).
    rewrite sum_div, Hs, eps_value. lra. }
  rewrite H, eps_value. repeat split; [lra|].
  rewrite Rabs_left by lra. lra.
Qed.


(** [L2norm]: the divisor is the square root of a positive number. *)
Lemma L2norm_divides v :
  @L2norm R ideal v
  = map (fun x => x / sqrt (sum (map (fun x => x * x) v) + eps)) v.
Proof.
  unfold L2norm. cbn [f_add f_eqb f_of_Z f_div f_mul f_sqrt ideal].
  change (@zero R ideal) with 0.
  rewrite eqb_false; [reflexivity|].
  pose proof (sum_squares_nonneg v). pose proof eps_value.
  apply Rgt_not_eq. apply sqrt_lt_R0. lra.
Qed.

Lemma sum_squares_div v (d : R) :
  d <> 0 ->
  sum (map (fun x => x * x) (map (fun x => x / d) v))
  = sum (map (fun x => x * x) v) / (d * d).
Proof.
  intros Hd. rewrite map_map.
  induction v as [|x v IH]; cbn [map].
  - change (sum []) with 0. unfold Rdiv. lra.
  - rewrite !sum_cons, IH. field. exact Hd.
Qed.

(** The Euclidean norm of a normalised vector is below 1. *)
Lemma L2norm_norm v :
  sqrt (sum (map (fun x => x * x) (@L2norm R ideal v))) <= 1.
Proof.
  pose proof (sum_squares_nonneg v) as Hs. pose proof eps_value as He.
  set (s := sum (map (fun x => x * x) v)) in *.
  assert (Hd : 0 < sqrt (s + eps)) by (apply sqrt_lt_R0; lra).
  rewrite L2norm_divides. fold s.
  rewrite sum_squares_div by lra. fold s.
  rewrite sqrt_sqrt by lra.
  rewrite <- sqrt_1. apply sqrt_le_1_alt.
  apply Rmult_le_reg_r with (r := s + eps); [lra|].
  unfold Rdiv. rewrite Rmult_assoc, Rinv_l by lra. lra.
Qed.

Lemma clip_range (x : R) : 0 <= @clip R ideal x <= 1 / 5.
Proof.
  unfold clip. cbn [f_gt_0_2 f_lit_0_2f f_ltb f_of_Z ideal].
  change (@zero R ideal) with 0. unfold Ideal.ltb.
  destruct (Rlt_dec (1 / 5) x); [lra|].
  destruct (Rlt_dec x 0); lra.
Qed.


End IdealNorms.

(** ** The bin of a pixel *)

Section Voting.
Context {TType : Type} {ops : TTypeOps TType}.

(** Where the quotient of the range by the bin count is exact in
    [TType], the vote of [process_cell] is the vote of the
    specification. *)
Lemma vote_agrees_when_exact (h : HOG) (o m : TType) (cell_hist v : THist) :
  (forall x k, f_to_int x = Some k -> is_int k) ->
  f_div (f_of_Z (_grad_type h)) (f_of_Z (_binning h))
  = f_of_Z (_bin_width h) ->
  Z.of_nat (length cell_hist) <= int_max ->
  (vote h (if _grad_type h =? GRADIENT_SIGNED then o else fold_orientation o)
     m cell_hist = Normal v <->
   spec_vote (_grad_type h) (_binning h) o m cell_hist = Some v).
Proof.
  intros Hint Hexact Hlen. unfold vote, spec_vote. rewrite Hexact.
  destruct (f_to_int _) as [k|] eqn:Hk; [|split; discriminate].
  apply Hint in Hk. unfold is_int, int_min, int_max in *.
  unfold at_add, to_size_t, size_t_modulus.
  destruct (Z.le_gt_cases 0 k) as [Hk0 | Hk0].
  - rewrite (Z.mod_small k) by lia.
    replace (0 <=? k) with true by lia. cbn [andb].
    destruct (k <? _); split; intros H; try discriminate;
      injection H as <-; reflexivity.
  - replace (0 <=? k) with false by lia. cbn [andb].
    assert (Hm : k mod 2 ^ 64 = k + 2 ^ 64).
    { symmetry. apply (Z.mod_unique_pos k (2 ^ 64) (-1)); lia. }
    rewrite Hm.
    replace (k + 2 ^ 64 <? Z.of_nat (length cell_hist)) with false by lia.
    split; discriminate.
Qed.

(** A run of votes and the votes of the specification. *)
Lemma votes_agree_when_exact (h : HOG) (pixels : list (TType * TType)) :
  (forall x k, f_to_int x = Some k -> is_int k) ->
  f_div (f_of_Z (_grad_type h)) (f_of_Z (_binning h))
  = f_of_Z (_bin_width h) ->
  forall (cell_hist v : THist),
    Z.of_nat (length cell_hist) <= int_max ->
    (for_each pixels
       (fun p a =>
          vote h (if _grad_type h =? GRADIENT_SIGNED then fst p
                  else fold_orientation (fst p)) (snd p) a) cell_hist
     = Normal v <->
     spec_cell_hist (_grad_type h) (_binning h) pixels cell_hist = Some v).
Proof.
  intros Hint Hexact.
  induction pixels as [|[o m] pixels IH]; intros cell_hist v Hlen;
    cbn [for_each spec_cell_hist fst snd].
  - split; intros H; injection H as <-; reflexivity.
  - pose proof (vote_agrees_when_exact h o m cell_hist) as Hv.
    destruct (vote h _ m cell_hist) as [a| | |] eqn:Hvote; cbn [bind].
    + rewrite (proj1 (Hv a Hint Hexact Hlen) eq_refl).
      apply IH. rewrite (vote_length _ _ _ _ _ Hvote). exact Hlen.
    + destruct (spec_vote _ _ o m cell_hist) as [a|] eqn:Hs;
        [|split; discriminate].
      pose proof (proj2 (Hv a Hint Hexact Hlen) eq_refl) as Habs.
      discriminate Habs.
    + destruct (spec_vote _ _ o m cell_hist) as [a|] eqn:Hs;
        [|split; discriminate].
      pose proof (proj2 (Hv a Hint Hexact Hlen) eq_refl) as Habs.
      discriminate Habs.
    + destruct (spec_vote _ _ o m cell_hist) as [a|] eqn:Hs;
        [|split; discriminate].
      pose proof (proj2 (Hv a Hint Hexact Hlen) eq_refl) as Habs.
      discriminate Habs.
Qed.

(** Where the quotient of the range by the bin count is exact in [TType]
    (the bin count divides the range), the histogram of [process_cell] is
    the magnitude-weighted voting of the specification: each pixel adds its
    magnitude to the bin of its effective orientation, nothing else. *)
Lemma process_cell_agrees_when_exact (h : HOG) (cell_mag cell_ori : Mat TType)
  (d_mag d_ori : Z -> Z -> TType) (v : THist) :
  (forall x k, f_to_int x = Some k -> is_int k) ->
  f_div (f_of_Z (_grad_type h)) (f_of_Z (_binning h))
  = f_of_Z (_bin_width h) ->
  0 <= _binning h <= int_max ->
  data cell_mag = Some d_mag -> data cell_ori = Some d_ori ->
  (process_cell h cell_mag cell_ori = Normal v <->
   spec_cell_hist (_grad_type h) (_binning h)
     (cell_pixels cell_mag d_mag d_ori)
     (repeat zero (Z.to_nat (_binning h))) = Some v).
Proof.
  intros Hint Hexact Hbins Hmag Hori.
  rewrite <- (votes_agree_when_exact h _ Hint Hexact)
    by (rewrite repeat_length; lia).
  unfold cell_pixels.
  assert (Hbody : forall (eff : TType -> TType) init,
    for_each (zrange 0 (to_size_t (rows cell_mag)))
      (fun i cell_hist =>
         for_each (zrange 0 (to_size_t (cols cell_mag)))
           (fun j cell_hist =>
              o <- Mat_at cell_ori i j ;;
              m <- Mat_at cell_mag i j ;;
              vote h (eff o) m cell_hist) cell_hist) init
    = for_each
        (flat_map (fun i => map (fun j => (d_ori i j, d_mag i j))
                     (zrange 0 (to_size_t (cols cell_mag))))
           (zrange 0 (to_size_t (rows cell_mag))))
        (fun p a => vote h (eff (fst p)) (snd p) a) init).
  { intros eff init.
    apply (for_each_nested
             (fun i j cell_hist =>
                o <- Mat_at cell_ori i j ;;
                m <- Mat_at cell_mag i j ;;
                vote h (eff o) m cell_hist)
             (fun i j => (d_ori i j, d_mag i j))
             (fun p a => vote h (eff (fst p)) (snd p) a)).
    intros i j a. unfold Mat_at. rewrite Hmag, Hori. reflexivity. }
  unfold process_cell.
  destruct (_grad_type h =? GRADIENT_SIGNED) eqn:Hg.
  - rewrite (Hbody (fun o => o)). reflexivity.
  - rewrite (Hbody fold_orientation). reflexivity.
Qed.

End Voting.

Lemma binary32_to_int_range (x : spec_float) (k : Z) :
  f_to_int x = Some k -> is_int k.
Proof.
  cbn [f_to_int binary32]. unfold Binary32.trunc, is_int.
  destruct x as [s|s| |s m e]; try discriminate.
  - intros H. injection H as <-. unfold int_min, int_max. lia.
  - destruct (_ && _) eqn:Hr; [|discriminate].
    intros H. injection H as <-.
    apply andb_true_iff in Hr. destruct Hr as [H1 H2].
    split; apply Z.leb_le; assumption.
Qed.

(** With the nine bins of the default configuration the width of a bin is
    exact, for both gradient ranges. *)
Lemma nine_bins_exact :
  @f_div _ binary32 (f_of_Z GRADIENT_UNSIGNED) (f_of_Z 9) = f_of_Z 20 /\
  @f_div _ binary32 (f_of_Z GRADIENT_SIGNED) (f_of_Z 9) = f_of_Z 40.
Proof. split; vm_compute; reflexivity. Qed.

(** C1 (the code departs from the claim): [_bin_width] is a [size_t], the
    truncated quotient of the range by the bin count.  With seven bins and
    unsigned gradients it is 25, not 180/7.  A pixel of orientation 179 and
    magnitude 1 is sent to bin 7 of a histogram of seven bins, and
    [vector::at] throws [std::out_of_range], where the quotient of the
    claim gives bin 6; a pixel of orientation 51 votes for bin 2, where the
    quotient of the claim gives bin 1.  On an image whose gradients all
    have the orientation 179, [process] throws with seven bins and succeeds
    with nine. *)
Theorem process_cell_truncates_bin_width :
  HOG_ctor 2 1 1 7 GRADIENT_UNSIGNED L2hys = Normal Demo.seven_bins /\
  _bin_width Demo.seven_bins = 25 /\
  process_cell Demo.seven_bins (Demo.one_pixel 1) (Demo.one_pixel 179)
  = Throw out_of_range /\
  @spec_cell_hist spec_float binary32 GRADIENT_UNSIGNED 7
    [(f_of_Z 179, f_of_Z 1)] (repeat zero 7)
  = Some [zero; zero; zero; zero; zero; zero; f_of_Z 1] /\
  process_cell Demo.seven_bins (Demo.one_pixel 1) (Demo.one_pixel 51)
  = Normal [zero; zero; f_of_Z 1; zero; zero; zero; zero] /\
  @spec_cell_hist spec_float binary32 GRADIENT_UNSIGNED 7
    [(f_of_Z 51, f_of_Z 1)] (repeat zero 7)
  = Some [zero; f_of_Z 1; zero; zero; zero; zero; zero] /\
  fst (process Demo.steep Demo.image Demo.seven_bins) = Throw out_of_range /\
  fst (process Demo.steep Demo.image Demo.fresh) = Normal tt.
Proof.
  split; [reflexivity|]. split; [reflexivity|].
  do 5 (split; [vm_compute; reflexivity|]). vm_compute. reflexivity.
Qed.

(** In exact arithmetic the two bins of the pixel of orientation 179 are
    the same two. *)
Lemma ideal_bins_of_179 :
  Ideal.trunc (179 / IZR (GRADIENT_UNSIGNED / 7)) = Some 7 /\
  Ideal.trunc (179 / (IZR GRADIENT_UNSIGNED / 7)) = Some 6.
Proof.
  assert (H7 : Int_part (179 / 25) = 7)
    by (symmetry; apply Int_part_spec; lra).
  assert (H6 : Int_part (179 / (180 / 7)) = 6)
    by (symmetry; apply Int_part_spec; lra).
  unfold Ideal.trunc, Ideal.Rtrunc.
  change (IZR (GRADIENT_UNSIGNED / 7)) with 25%R.
  change (IZR GRADIENT_UNSIGNED) with 180%R.
  destruct (Rle_dec 0 (179 / 25)) as [_ | Hn]; [|exfalso; apply Hn; lra].
  destruct (Rle_dec 0 (179 / (180 / 7))) as [_ | Hn];
    [|exfalso; apply Hn; lra].
  rewrite H7, H6. split; reflexivity.
Qed.

(** ** Block normalisation in single precision *)

Section SinglePrecision.
Local Open Scope R_scope.

Local Abbreviation sum v := (@accumulate R ideal v 0).

Lemma sum_repeat (a : R) (n : nat) : sum (repeat a n) = INR n * a.
Proof.
  induction n as [|n IH].
  - unfold accumulate. cbn [repeat fold_left INR]. lra.
  - cbn [repeat]. rewrite sum_cons, IH, S_INR. lra.
Qed.

(** The single-precision result of [L1norm] on the vector [0.5]: its exact
    value misses 1 by more than [1e-6]. *)
Lemma L1norm_half_single_precision :
  @L1norm spec_float binary32 [f_div (f_of_Z 1) (f_of_Z 2)]
  = [S754_finite false 16777182 (-24)] /\
  1 / 1000000
  < 1 - sum (map Binary32.value
               (@L1norm spec_float binary32 [f_div (f_of_Z 1) (f_of_Z 2)])).
Proof.
  assert (H : @L1norm spec_float binary32 [f_div (f_of_Z 1) (f_of_Z 2)]
              = [S754_finite false 16777182 (-24)])
    by (vm_compute; reflexivity).
  split; [exact H|]. rewrite H. cbn [map Binary32.value].
  rewrite sum_cons. change (sum []) with 0.
  change (powerRZ 2 (-24)) with (/ 2 ^ 24). lra.
Qed.



End SinglePrecision.

(** * Further properties of the class *)

(** ** The constructors with default parameters *)

Section OtherConstructors.
Context {TType : Type}.
Implicit Types (block_norm : @THist TType -> @THist TType).

Lemma even_half (b : Z) : 2 <= b -> b mod 2 = 0 ->
  1 <= b / 2 /\ b / (b / 2) = 2 /\ b mod (b / 2) = 0 /\ (b / 2) mod (b / 2) = 0.
Proof.
  intros Hb He.
  assert (Hk : b = 2 * (b / 2)) by (pose proof (Z.div_mod b 2 ltac:(lia)); lia).
  set (k := b / 2) in *. assert (1 <= k) by lia.
  repeat split.
  - lia.
  - rewrite Hk at 1. rewrite Z.div_mul by lia. reflexivity.
  - rewrite Hk at 1. apply Z.mod_mul. lia.
  - apply Z.mod_same. lia.
Qed.

Lemma odd_half (b : Z) : 5 <= b -> b mod 2 = 1 ->
  2 <= b / 2 /\ b mod (b / 2) = 1.
Proof.
  intros Hb Ho.
  assert (Hk : b = 2 * (b / 2) + 1) by (pose proof (Z.div_mod b 2 ltac:(lia)); lia).
  set (k := b / 2) in *. assert (2 <= k) by lia.
  split; [lia|].
  symmetry. apply (Z.mod_unique_pos b k 2); lia.
Qed.

(** X1: the constructor [HOG(blocksize)] takes half the block size as
    cell size and as stride, nine bins and unsigned gradients.  It returns
    an object, of 2x2 cells per block, for every even block size from 2
    on, and of 3x3 cells for the block size 3; for every other odd block
    size it throws, the block not being a multiple of the cell; for the
    block sizes 0 and 1 the cell size is 0 and the member initialisers
    divide by zero before any check. *)
Theorem HOG_ctor1_outcome (b : Z) block_norm :
  is_size_t b ->
  (b < 2 -> HOG_ctor1 b block_norm = Undefined division_by_zero) /\
  (2 <= b -> b mod 2 = 0 ->
   HOG_ctor1 b block_norm
   = Normal (mkHOG b (b / 2) (b / 2) GRADIENT_UNSIGNED 9 20 2 2 4 36 1
               block_norm 0 0 Mat_empty Mat_empty [])) /\
  (b = 3 ->
   HOG_ctor1 b block_norm
   = Normal (mkHOG 3 1 1 GRADIENT_UNSIGNED 9 20 3 3 9 81 1
               block_norm 0 0 Mat_empty Mat_empty [])) /\
  (5 <= b -> b mod 2 = 1 ->
   HOG_ctor1 b block_norm
   = Throw (runtime_error
              "HOG::HOG(): blocksize must be a multiple of cellsize!")).
Proof.
  intros [Hb0 _]. unfold HOG_ctor1, HOG_ctor, size_div.
  change (9 =? 0) with false. cbn [bind].
  repeat split.
  - intros Hb. replace (b / 2) with 0; [reflexivity|].
    symmetry. apply Z.div_small. lia.
  - intros Hb He. destruct (even_half b Hb He) as (Hk & Hq & Hm & Hs).
    replace (b / 2 =? 0) with false by lia. cbn [bind].
    rewrite Hq. unfold check_ctor_params, size_mod, throw_if.
    replace (b <? 2) with false by lia.
    replace (b / 2 <? 1) with false by lia.
    replace (b / 2 =? 0) with false by lia.
    cbn [bind]. rewrite Hm, Hs.
    rewrite Z.div_same by lia. reflexivity.
  - intros ->. reflexivity.
  - intros Hb Ho. destruct (odd_half b Hb Ho) as (Hk & Hm).
    replace (b / 2 =? 0) with false by lia. cbn [bind].
    unfold check_ctor_params, size_mod, throw_if.
    replace (b <? 2) with false by lia.
    replace (b / 2 <? 1) with false by lia.
    replace (b / 2 =? 0) with false by lia.
    cbn [bind]. rewrite Hm. reflexivity.
Qed.

(** X2: the constructor [HOG(blocksize, cellsize)] takes half the block
    size as stride.  For a block size of at least 2 and a cell size of at
    least 1, it returns an object when the cell size divides the block
    size and half the block size, and throws otherwise, naming the block
    size first; a cell as large as the block is always rejected, half a
    block not being a multiple of the cell. *)
Theorem HOG_ctor2_outcome (b c : Z) block_norm :
  2 <= b -> 1 <= c ->
  (b mod c = 0 -> (b / 2) mod c = 0 ->
   HOG_ctor2 b c block_norm
   = Normal (mkHOG b c (b / 2) GRADIENT_UNSIGNED 9 20 (b / c) (b / c)
               (to_size_t (b / c * (b / c)))
               (to_size_t (9 * to_size_t (b / c * (b / c))))
               (b / 2 / c) block_norm 0 0 Mat_empty Mat_empty [])) /\
  (b mod c <> 0 ->
   HOG_ctor2 b c block_norm
   = Throw (runtime_error
              "HOG::HOG(): blocksize must be a multiple of cellsize!")) /\
  (b mod c = 0 -> (b / 2) mod c <> 0 ->
   HOG_ctor2 b c block_norm
   = Throw (runtime_error
              "HOG::HOG(): stride must be a multiple of cellsize!")) /\
  (c = b ->
   HOG_ctor2 b c block_norm
   = Throw (runtime_error
              "HOG::HOG(): stride must be a multiple of cellsize!")).
Proof.
  intros Hb Hc.
  assert (Hgen : forall r1 r2, b mod c = r1 -> (b / 2) mod c = r2 ->
    HOG_ctor2 b c block_norm
    = if negb (r1 =? 0)
      then Throw (runtime_error
                    "HOG::HOG(): blocksize must be a multiple of cellsize!")
      else if negb (r2 =? 0)
      then Throw (runtime_error
                    "HOG::HOG(): stride must be a multiple of cellsize!")
      else Normal (mkHOG b c (b / 2) GRADIENT_UNSIGNED 9 20 (b / c) (b / c)
               (to_size_t (b / c * (b / c)))
               (to_size_t (9 * to_size_t (b / c * (b / c))))
               (b / 2 / c) block_norm 0 0 Mat_empty Mat_empty [])).
  { intros r1 r2 H1 H2. unfold HOG_ctor2, HOG_ctor, size_div.
    change (9 =? 0) with false. cbn [bind].
    replace (c =? 0) with false by lia. cbn [bind].
    unfold check_ctor_params, size_mod, throw_if.
    replace (b <? 2) with false by lia.
    replace (c <? 1) with false by lia.
    replace (c =? 0) with false by lia.
    cbn [bind]. rewrite H1, H2.
    destruct (negb (r1 =? 0)); cbn [bind]; [reflexivity|].
    destruct (negb (r2 =? 0)); cbn [bind]; reflexivity. }
  repeat split.
  - intros H1 H2. rewrite (Hgen 0 0 H1 H2). reflexivity.
  - intros H1. rewrite (Hgen _ _ eq_refl eq_refl).
    replace (b mod c =? 0) with false by lia. reflexivity.
  - intros H1 H2. rewrite (Hgen _ _ eq_refl eq_refl).
    replace (b mod c =? 0) with true by lia.
    replace (b / 2 mod c =? 0) with false by lia. reflexivity.
  - intros ->. rewrite (Hgen _ _ eq_refl eq_refl).
    rewrite Z.mod_same by lia. cbn [Z.eqb negb].
    assert (Hh : 1 <= b / 2 < b).
    { split; [apply Z.div_le_lower_bound; lia|apply Z.div_lt_upper_bound; lia]. }
    rewrite (Z.mod_small (b / 2) b) by lia.
    replace (b / 2 =? 0) with false by lia. reflexivity.
Qed.

(** X3: in every object that a constructor returns, the stride is a whole
    number of cells, [_stride = _stride_unit * _cellsize], so it is zero or
    at least a cell; the block is a whole number of cells, at least one;
    and [_bin_width] is the quotient of the range by the bin count,
    rounded down. *)
Theorem constructed_stride_is_whole_cells (b c s n g : Z) block_norm
  (h : @HOG TType) :
  0 <= s ->
  HOG_ctor b c s n g block_norm = Normal h ->
  _stride h = _stride_unit h * _cellsize h /\
  (_stride h = 0 \/ _cellsize h <= _stride h) /\
  _blocksize h = _n_cells_per_block_y h * _cellsize h /\
  _n_cells_per_block_x h = _n_cells_per_block_y h /\
  1 <= _n_cells_per_block_y h /\
  _cellsize h <= _blocksize h /\
  _bin_width h * _binning h <= _grad_type h < (_bin_width h + 1) * _binning h.
Proof.
  intros Hs H. apply HOG_ctor_inv in H.
  destruct H as [(Hb & Hc & Hn & Hg & Hbc & Hsc) ->].
  cbn [_stride _stride_unit _cellsize _blocksize _n_cells_per_block_y
       _n_cells_per_block_x _bin_width _binning _grad_type].
  pose proof (Z.div_mod s c ltac:(lia)) as Hds. rewrite Hsc in Hds.
  pose proof (Z.div_mod b c ltac:(lia)) as Hdb. rewrite Hbc in Hdb.
  pose proof (Z.div_mod g n ltac:(lia)) as Hdg.
  pose proof (Z.mod_pos_bound g n ltac:(lia)) as Hmg.
  assert (0 <= s / c) by (apply Z.div_pos; lia).
  assert (0 <= b / c) by (apply Z.div_pos; lia).
  assert (Hq : s / c = 0 \/ 1 <= s / c) by lia.
  assert (Hbq : 1 <= b / c).
  { destruct (Z.eq_dec (b / c) 0) as [E | E]; [rewrite E in Hdb; lia|lia]. }
  assert (Hcb : c <= b) by nia.
  repeat split; try lia.
  destruct Hq as [Hq | Hq]; [left; lia|right; nia].
Qed.

End OtherConstructors.

(** ** Block normalisation in exact arithmetic, continued *)

Section IdealNormsMore.
Local Open Scope R_scope.
Implicit Types (v : list R).

Local Abbreviation sum v := (@accumulate R ideal v 0).
Local Abbreviation eps := (@epsilon R ideal).
Local Abbreviation squares v := (map (fun x : R => x * x) v).


Lemma sum_map_ext (f g : R -> R) v :
  (forall x, In x v -> f x = g x) -> sum (map f v) = sum (map g v).
Proof.
  intros H. f_equal. apply map_ext_in. exact H.
Qed.


End IdealNormsMore.

(** ** The all-zero block in single precision *)

Section ZeroBlock.

Local Abbreviation zero32 := (@zero spec_float binary32).

Lemma accumulate_zeros (n : nat) :
  @accumulate spec_float binary32 (repeat zero32 n) zero32 = zero32.
Proof.
  unfold accumulate. induction n as [|n IH]; [reflexivity|].
  cbn [repeat fold_left].
  replace (@f_add _ binary32 zero32 zero32) with zero32
    by (vm_compute; reflexivity).
  exact IH.
Qed.

Lemma map_zeros (f : spec_float -> spec_float) (n : nat) :
  f zero32 = zero32 -> map f (repeat zero32 n) = repeat zero32 n.
Proof. intros H. rewrite map_repeat, H. reflexivity. Qed.

Lemma L1norm_zeros (n : nat) :
  @L1norm spec_float binary32 (repeat zero32 n) = repeat zero32 n.
Proof.
  unfold L1norm. rewrite accumulate_zeros.
  replace (negb (@f_eqb _ binary32 (f_add zero32 epsilon) (f_of_Z 0)))
    with true by (vm_compute; reflexivity).
  apply map_zeros. vm_compute. reflexivity.
Qed.

Lemma L2norm_zeros (n : nat) :
  @L2norm spec_float binary32 (repeat zero32 n) = repeat zero32 n.
Proof.
  unfold L2norm. rewrite (map_zeros (fun x => f_mul x x))
    by (vm_compute; reflexivity).
  rewrite accumulate_zeros.
  replace (negb (@f_eqb _ binary32 (f_sqrt (f_add zero32 epsilon)) (f_of_Z 0)))
    with true by (vm_compute; reflexivity).
  apply map_zeros. vm_compute. reflexivity.
Qed.

(** X6: in single precision, each of the five normalisations returns the
    all-zero block, of any length, the empty one included, unchanged: the
    divisors are [epsilon] and its square root, never zero. *)
Theorem zero_block_stays_zero (n : nat) :
  @L1norm spec_float binary32 (repeat zero32 n) = repeat zero32 n /\
  @L1sqrt spec_float binary32 (repeat zero32 n) = repeat zero32 n /\
  @L2norm spec_float binary32 (repeat zero32 n) = repeat zero32 n /\
  @L2hys spec_float binary32 (repeat zero32 n) = repeat zero32 n /\
  @none spec_float (repeat zero32 n) = repeat zero32 n.
Proof.
  split; [apply L1norm_zeros|]. split.
  - unfold L1sqrt. rewrite L1norm_zeros. apply map_zeros.
    vm_compute. reflexivity.
  - split; [apply L2norm_zeros|]. split; [|reflexivity].
    unfold L2hys. rewrite L2norm_zeros.
    rewrite (map_zeros clip) by (vm_compute; reflexivity).
    apply L2norm_zeros.
Qed.

End ZeroBlock.

(** ** Orientations that are not numbers *)

(** X7: in single precision, the vote of a pixel whose orientation is a
    NaN or an infinity has undefined behaviour, whatever the
    configuration: the quotient by the bin width is a NaN or an infinity
    again, and its conversion to [int] is not defined. *)
Theorem vote_undefined_on_non_finite_orientation (h : @HOG spec_float)
  (o m : spec_float) (cell_hist : list spec_float) :
  o = S754_nan \/ (exists s, o = S754_infinity s) ->
  @vote spec_float binary32 h (effective_orientation h o) m cell_hist
  = Undefined float_to_int_out_of_range.
Proof.
  intros Ho.
  assert (He : effective_orientation h o = S754_nan \/
               exists s, effective_orientation h o = S754_infinity s).
  { unfold effective_orientation, fold_orientation.
    destruct (_grad_type h =? GRADIENT_SIGNED); [exact Ho|].
    destruct Ho as [-> | [[|] ->]].
    - left. reflexivity.
    - right. exists true. reflexivity.
    - right. exists false. vm_compute. reflexivity. }
  unfold vote. cbn [f_div f_of_Z f_to_int binary32].
  destruct He as [-> | [s ->]];
    destruct (Binary32.of_Z (_bin_width h)); reflexivity.
Qed.


(** ** The cell pass: state and termination *)

Lemma for_each_st_rel {I S : Type} (R : S -> S -> Prop)
  (body : I -> S -> outcome unit * S) (l : list I) :
  (forall s, R s s) ->
  (forall a b c, R a b -> R b c -> R a c) ->
  (forall i s r s', body i s = (r, s') -> R s s') ->
  forall s r s', for_each_st l body s = (r, s') -> R s s'.
Proof.
  intros Hrefl Htrans Hbody.
  induction l as [|i l IH]; intros s r s' H; cbn [for_each_st] in H.
  - injection H as _ <-. apply Hrefl.
  - destruct (body i s) as [r1 s1] eqn:Hb.
    pose proof (Hbody i s r1 s1 Hb) as H1.
    destruct r1 as [[]|e|u|].
    + apply (Htrans s s1 s'); [exact H1|]. exact (IH s1 r s' H).
    + injection H as _ <-. exact H1.
    + injection H as _ <-. exact H1.
    + injection H as _ <-. exact H1.
Qed.

Lemma for_each_total {I A : Type} (P : A -> Prop)
  (body : I -> A -> outcome A) (l : list I) :
  (forall i a, In i l -> P a -> exists a', body i a = Normal a' /\ P a') ->
  forall a, P a -> exists a', for_each l body a = Normal a' /\ P a'.
Proof.
  induction l as [|i l IH]; intros Hbody a Ha; cbn [for_each].
  - exists a. split; [reflexivity|exact Ha].
  - destruct (Hbody i a (or_introl eq_refl) Ha) as (a1 & -> & Ha1).
    cbn [bind]. apply IH; [|exact Ha1].
    intros j b Hj. apply Hbody. right. exact Hj.
Qed.

Section CellPassMore.
Context {TType : Type} {ops : TTypeOps TType} {Pixel : Type}.
Variable cv_gradient : Mat Pixel -> Mat TType * Mat TType.
Implicit Types (h : @HOG TType).

Lemma set_cell_hists_same h : set_cell_hists (_cell_hists h) h = h.
Proof. destruct h. reflexivity. Qed.

(** The loops of [process] change nothing but the grid, and keep its
    number of rows. *)
Lemma store_cell_grid (i j : Z) (c : THist) h r h' :
  store_cell i j c h = (r, h') ->
  exists g, h' = set_cell_hists g h /\ length g = length (_cell_hists h).
Proof.
  unfold store_cell. intros H.
  destruct (i <? _); [destruct (j <? _)|]; injection H as _ <-.
  - eexists. split; [reflexivity|]. apply list_set_length.
  - exists (_cell_hists h). split; [symmetry; apply set_cell_hists_same|reflexivity].
  - exists (_cell_hists h). split; [symmetry; apply set_cell_hists_same|reflexivity].
Qed.

Lemma process_one_grid (i j : Z) h r h' :
  process_one i j h = (r, h') ->
  exists g, h' = set_cell_hists g h /\ length g = length (_cell_hists h).
Proof.
  unfold process_one. intros H.
  destruct (cell_hist_of h i j) as [c|e|u|].
  - exact (store_cell_grid i j c h r h' H).
  - injection H as _ <-. exists (_cell_hists h).
    split; [symmetry; apply set_cell_hists_same|reflexivity].
  - injection H as _ <-. exists (_cell_hists h).
    split; [symmetry; apply set_cell_hists_same|reflexivity].
  - injection H as _ <-. exists (_cell_hists h).
    split; [symmetry; apply set_cell_hists_same|reflexivity].
Qed.

Lemma grid_rel_refl h :
  exists g, h = set_cell_hists g h /\ length g = length (_cell_hists h).
Proof.
  exists (_cell_hists h).
  split; [symmetry; apply set_cell_hists_same|reflexivity].
Qed.

Lemma grid_rel_trans h1 h2 h3 :
  (exists g, h2 = set_cell_hists g h1 /\ length g = length (_cell_hists h1)) ->
  (exists g, h3 = set_cell_hists g h2 /\ length g = length (_cell_hists h2)) ->
  exists g, h3 = set_cell_hists g h1 /\ length g = length (_cell_hists h1).
Proof.
  intros (g1 & -> & H1) (g2 & -> & H2). exists g2.
  split; [reflexivity|]. rewrite H2. cbn [_cell_hists set_cell_hists].
  exact H1.
Qed.

Lemma process_row_grid (i : Z) h r h' :
  process_row i h = (r, h') ->
  exists g, h' = set_cell_hists g h /\ length g = length (_cell_hists h).
Proof.
  unfold process_row, resize_row. intros H.
  destruct (i <? _).
  - apply (grid_rel_trans h
             (set_cell_hists
                (list_set (Z.to_nat i)
                   (resize (Z.to_nat (_n_cells_x h)) []
                      (nth (Z.to_nat i) (_cell_hists h) []))
                   (_cell_hists h)) h)).
    + eexists. split; [reflexivity|]. apply list_set_length.
    + revert H.
      apply (for_each_st_rel
               (fun a b => exists g, b = set_cell_hists g a /\
                                     length g = length (_cell_hists a))).
      * apply grid_rel_refl.
      * apply grid_rel_trans.
      * intros j s r' s'. apply process_one_grid.
  - injection H as _ <-. apply grid_rel_refl.
Qed.

(** X8: once an image has passed the two checks of [process], the call
    replaces the gradient maps and the grid dimensions by those of the new
    image, and the grid by one of the new number of rows, whatever the
    outcome of the cell pass: a call that throws from the cell pass does
    not leave the object as it was.  The configuration is never
    changed. *)
Theorem process_commits_maps_before_cell_pass (img : Mat Pixel) h
  (r : outcome unit) h' :
  data img <> None ->
  _blocksize h <= to_size_t (rows img) ->
  _blocksize h <= to_size_t (cols img) ->
  process cv_gradient img h = (r, h') ->
  get_magnitudes h' = fst (cv_gradient img) /\
  get_orientations h' = snd (cv_gradient img) /\
  _n_cells_y h' = cell_units (rows (fst (cv_gradient img))) (_cellsize h) /\
  _n_cells_x h' = cell_units (cols (fst (cv_gradient img))) (_cellsize h) /\
  length (_cell_hists h') = Z.to_nat (_n_cells_y h') /\
  _blocksize h' = _blocksize h /\ _cellsize h' = _cellsize h /\
  _stride h' = _stride h /\ _binning h' = _binning h /\
  _grad_type h' = _grad_type h /\ _block_norm h' = _block_norm h.
Proof.
  intros Hd Hr Hc. unfold process.
  destruct (data img); [|congruence].
  replace ((to_size_t (rows img) <? _blocksize h)
           || (to_size_t (cols img) <? _blocksize h)) with false
    by (symmetry; apply orb_false_iff; split; apply Z.ltb_ge; assumption).
  fold (prepared cv_gradient img h).
  set (hp := prepared cv_gradient img h).
  change (_cell_hists hp) with (@nil (list (@THist TType))).
  intros H.
  assert (Hrel : exists g,
    h' = set_cell_hists g
           (set_cell_hists (resize (Z.to_nat (_n_cells_y hp)) [] []) hp) /\
    length g
    = length (_cell_hists
                (set_cell_hists (resize (Z.to_nat (_n_cells_y hp)) [] []) hp))).
  { revert H.
    apply (for_each_st_rel
             (fun a b => exists g, b = set_cell_hists g a /\
                                   length g = length (_cell_hists a))).
    - apply grid_rel_refl.
    - apply grid_rel_trans.
    - intros i s r' s'. apply process_row_grid. }
  destruct Hrel as (g & -> & Hlen).
  cbn [_cell_hists set_cell_hists] in Hlen.
  unfold resize in Hlen. rewrite firstn_nil in Hlen. cbn [app length] in Hlen.
  rewrite repeat_length, Nat.sub_0_r in Hlen.
  repeat split. exact Hlen.
Qed.

(** *** Termination of the cell pass *)

Lemma at_add_total (cell_hist : @THist TType) (k : Z) (m : TType) :
  0 <= k < Z.of_nat (length cell_hist) ->
  exists v, at_add cell_hist k m = Normal v /\ length v = length cell_hist.
Proof.
  intros Hk. unfold at_add.
  assert (Hle : 0 <= to_size_t k <= k).
  { unfold to_size_t, size_t_modulus.
    pose proof (Z.mod_pos_bound k (2 ^ 64) ltac:(lia)).
    pose proof (Z.mod_le k (2 ^ 64) ltac:(lia) ltac:(lia)). lia. }
  replace (to_size_t k <? Z.of_nat (length cell_hist)) with true by lia.
  eexists. split; [reflexivity|]. apply list_set_length.
Qed.

Lemma vote_total h (o m : TType) (cell_hist : @THist TType) (k : Z) :
  bin_index h o = Some k -> 0 <= k < _binning h ->
  length cell_hist = Z.to_nat (_binning h) ->
  exists v, vote h (effective_orientation h o) m cell_hist = Normal v /\
            length v = length cell_hist.
Proof.
  intros Hk Hr Hlen. unfold vote. unfold bin_index in Hk. rewrite Hk.
  apply at_add_total. rewrite Hlen. lia.
Qed.

Lemma process_cell_total h (cell_mag cell_ori : Mat TType)
  (d_mag d_ori : Z -> Z -> TType) :
  data cell_mag = Some d_mag -> data cell_ori = Some d_ori ->
  (forall i j, 0 <= i < to_size_t (rows cell_mag) ->
               0 <= j < to_size_t (cols cell_mag) ->
     exists k, bin_index h (d_ori i j) = Some k /\ 0 <= k < _binning h) ->
  exists v, process_cell h cell_mag cell_ori = Normal v.
Proof.
  intros Hmag Hori Hbins.
  assert (Hloops : forall init : @THist TType,
    length init = Z.to_nat (_binning h) ->
    exists v,
      for_each (zrange 0 (to_size_t (rows cell_mag))) (fun i cell_hist =>
        for_each (zrange 0 (to_size_t (cols cell_mag))) (fun j cell_hist =>
          o <- Mat_at cell_ori i j ;;
          m <- Mat_at cell_mag i j ;;
          vote h (effective_orientation h o) m cell_hist) cell_hist) init
      = Normal v /\ length v = Z.to_nat (_binning h)).
  { intros init Hinit.
    apply (for_each_total (fun a => length a = Z.to_nat (_binning h)));
      [|exact Hinit].
    intros i a Hi Ha. apply zrange_In in Hi.
    apply (for_each_total (fun a => length a = Z.to_nat (_binning h)));
      [|exact Ha].
    intros j b Hj Hb. apply zrange_In in Hj.
    unfold Mat_at. rewrite Hmag, Hori. cbn [bind].
    destruct (Hbins i j Hi Hj) as (k & Hk & Hr).
    destruct (vote_total h (d_ori i j) (d_mag i j) b k Hk Hr Hb)
      as (v & Hv & Hlen).
    exists v. split; [exact Hv|]. rewrite Hlen. exact Hb. }
  destruct (Hloops (repeat zero (Z.to_nat (_binning h))))
    as (v & Hv & _); [apply repeat_length|].
  exists v. rewrite <- Hv. unfold process_cell, effective_orientation.
  destruct (_grad_type h =? GRADIENT_SIGNED); reflexivity.
Qed.

Lemma cell_rect_inside h (i j n_y n_x : Z) (m : Mat TType) :
  1 <= _cellsize h -> Mat_wf m ->
  n_y = rows m / _cellsize h -> n_x = cols m / _cellsize h ->
  0 <= i < n_y -> 0 <= j < n_x ->
  Mat_roi m (cell_rect h i j)
  = Normal (mkMat (_cellsize h) (_cellsize h)
              (option_map
                 (fun d y x => d (i * _cellsize h + y) (j * _cellsize h + x))
                 (data m))) /\
  (i + 1) * _cellsize h <= rows m /\ (j + 1) * _cellsize h <= cols m.
Proof.
  intros Hc [Hrows Hcols] -> -> Hi Hj.
  set (c := _cellsize h) in *.
  pose proof (Z.mul_div_le (rows m) c ltac:(lia)) as Hr.
  pose proof (Z.mul_div_le (cols m) c ltac:(lia)) as Hcl.
  assert (Hi1 : (i + 1) * c <= rows m) by nia.
  assert (Hj1 : (j + 1) * c <= cols m) by nia.
  split; [|split; assumption].
  unfold cell_rect, Mat_roi. fold c.
  cbn [rect_x rect_y rect_width rect_height].
  assert (Hic : 0 <= i * c <= int_max) by nia.
  assert (Hjc : 0 <= j * c <= int_max) by nia.
  assert (Hcc : 0 <= c <= int_max) by nia.
  rewrite (to_size_t_id (i * c)), (to_size_t_id (j * c))
    by (apply int_max_size_t; assumption).
  rewrite !to_int_id by (unfold is_int, int_min, int_max in *; lia).
  replace ((0 <=? j * c) && (0 <=? c) && (j * c + c <=? cols m)
           && (0 <=? i * c) && (0 <=? c) && (i * c + c <=? rows m))
    with true by lia.
  reflexivity.
Qed.

Lemma cell_hist_of_total h (d_mag d_ori : Z -> Z -> TType) (i j : Z) :
  1 <= _cellsize h -> Mat_wf (mag h) ->
  rows (ori h) = rows (mag h) -> cols (ori h) = cols (mag h) ->
  data (mag h) = Some d_mag -> data (ori h) = Some d_ori ->
  votes_in_range h (ori h) d_ori ->
  0 <= i < rows (mag h) / _cellsize h ->
  0 <= j < cols (mag h) / _cellsize h ->
  exists v, cell_hist_of h i j = Normal v.
Proof.
  intros Hc Hwf Hro Hco Hmag Hori Hvotes Hi Hj.
  assert (Hwfo : Mat_wf (ori h)).
  { unfold Mat_wf. rewrite Hro, Hco. exact Hwf. }
  destruct (cell_rect_inside h i j _ _ (mag h) Hc Hwf eq_refl eq_refl Hi Hj)
    as (Hm & Hi1 & Hj1).
  destruct (cell_rect_inside h i j _ _ (ori h) Hc Hwfo eq_refl eq_refl)
    as (Ho & _ & _); [rewrite Hro; exact Hi|rewrite Hco; exact Hj|].
  unfold cell_hist_of. rewrite Hm, Ho. cbn [bind].
  rewrite Hmag, Hori. cbn [option_map].
  destruct Hwf as [Hrows Hcols].
  assert (Hcs : to_size_t (_cellsize h) = _cellsize h).
  { apply to_size_t_id, int_max_size_t. nia. }
  eapply process_cell_total.
  - reflexivity.
  - reflexivity.
  - cbn [rows cols]. rewrite Hcs. intros y x Hy Hx.
    apply Hvotes; [rewrite Hro|rewrite Hco]; nia.
Qed.

Lemma resize_length {A : Type} (n : nat) (d : A) (l : list A) :
  length (resize n d l) = n.
Proof.
  unfold resize. rewrite length_app, length_firstn, repeat_length. lia.
Qed.

(** The loop over the cells of a row returns when every cell does. *)
Lemma process_row_cells_total (hp : HOG) (i : Z) :
  0 <= i ->
  (forall j, 0 <= j < _n_cells_x hp -> exists c, cell_hist_of hp i j = Normal c) ->
  forall lo (g : list (list THist)),
    0 <= lo ->
    i < Z.of_nat (length g) ->
    Z.of_nat (length (nth (Z.to_nat i) g [])) = Z.max 0 (_n_cells_x hp) ->
    exists g',
      for_each_st (zrange lo (_n_cells_x hp)) (process_one i)
        (set_cell_hists g hp) = (Normal tt, set_cell_hists g' hp) /\
      length g' = length g.
Proof.
  intros Hi Hcells lo. pattern lo. apply (zrange_ind (_n_cells_x hp)); clear lo.
  - intros lo Hlo g _ Hig Hrow.
    rewrite zrange_nil by exact Hlo. cbn [for_each_st].
    exists g. split; reflexivity.
  - intros lo Hlo IH g Hlo0 Hig Hrow.
    rewrite zrange_cons by exact Hlo. cbn [for_each_st].
    unfold process_one at 1. rewrite cell_hist_of_frame.
    destruct (Hcells lo ltac:(lia)) as (c & ->).
    unfold store_cell. cbn [_cell_hists set_cell_hists].
    replace (i <? Z.of_nat (length g)) with true by lia.
    replace (lo <? Z.of_nat (length (nth (Z.to_nat i) g []))) with true by lia.
    set (g1 := list_set (Z.to_nat i) _ g).
    rewrite set_cell_hists_twice.
    destruct (IH g1) as (g' & Hg' & Hlen).
    + lia.
    + unfold g1. rewrite list_set_length. exact Hig.
    + unfold g1. rewrite nth_list_set by lia.
      rewrite list_set_length. exact Hrow.
    + exists g'. split; [exact Hg'|].
      rewrite Hlen. unfold g1. apply list_set_length.
Qed.

(** The loop over the rows returns when every cell does. *)
Lemma process_rows_total (hp : HOG) :
  (forall i j, 0 <= i < _n_cells_y hp -> 0 <= j < _n_cells_x hp ->
     exists c, cell_hist_of hp i j = Normal c) ->
  forall lo (g : list (list THist)),
    0 <= lo ->
    Z.of_nat (length g) = Z.max 0 (_n_cells_y hp) ->
    exists g',
      for_each_st (zrange lo (_n_cells_y hp)) process_row
        (set_cell_hists g hp) = (Normal tt, set_cell_hists g' hp) /\
      length g' = length g.
Proof.
  intros Hcells lo. pattern lo. apply (zrange_ind (_n_cells_y hp)); clear lo.
  - intros lo Hlo g _ Hg.
    rewrite zrange_nil by exact Hlo. cbn [for_each_st].
    exists g. split; reflexivity.
  - intros lo Hlo IH g Hlo0 Hg.
    rewrite zrange_cons by exact Hlo. cbn [for_each_st].
    unfold process_row at 1, resize_row.
    cbn [_cell_hists set_cell_hists _n_cells_x].
    replace (lo <? Z.of_nat (length g)) with true by lia.
    rewrite set_cell_hists_twice.
    set (g1 := list_set (Z.to_nat lo)
                 (resize (Z.to_nat (_n_cells_x hp)) []
                    (nth (Z.to_nat lo) g [])) g).
    change (_n_cells_x (set_cell_hists g1 hp)) with (_n_cells_x hp).
    destruct (process_row_cells_total hp lo Hlo0
                (fun j Hj => Hcells lo j ltac:(lia) Hj) 0 g1)
      as (g2 & Hg2 & Hlen2).
    + lia.
    + unfold g1. rewrite list_set_length. lia.
    + unfold g1. rewrite nth_list_set by lia.
      rewrite resize_length. lia.
    + rewrite Hg2.
      destruct (IH g2) as (g' & Hg' & Hlen).
      * lia.
      * rewrite Hlen2. unfold g1. rewrite list_set_length. exact Hg.
      * exists g'. split; [exact Hg'|].
        rewrite Hlen, Hlen2. unfold g1. apply list_set_length.
Qed.

Lemma prepared_cell_counts (img : Mat Pixel) (h0 : HOG) :
  constructed h0 -> Mat_wf (fst (cv_gradient img)) ->
  _n_cells_y (prepared cv_gradient img h0)
  = rows (fst (cv_gradient img)) / _cellsize h0 /\
  _n_cells_x (prepared cv_gradient img h0)
  = cols (fst (cv_gradient img)) / _cellsize h0.
Proof.
  intros ((_ & Hcs & _) & _) [Hrows Hcols].
  split; cbn; apply cell_units_div; assumption.
Qed.

Lemma processed_cell_counts (img : Mat Pixel) (h0 h : HOG) :
  constructed h0 -> Mat_wf (fst (cv_gradient img)) ->
  process cv_gradient img h0 = (Normal tt, h) ->
  _n_cells_y h = rows (mag h) / _cellsize h /\
  _n_cells_x h = cols (mag h) / _cellsize h.
Proof.
  intros Hc Hwf Hproc.
  destruct (process_success cv_gradient img h0 h Hproc) as (g & -> & _).
  exact (prepared_cell_counts img h0 Hc Hwf).
Qed.

(** [process] returns on an image that passes its checks, when the
    histogram of every cell of the grid can be computed. *)
Lemma process_from_cells (img : Mat Pixel) (h0 : HOG) :
  data img <> None ->
  _blocksize h0 <= to_size_t (rows img) ->
  _blocksize h0 <= to_size_t (cols img) ->
  (forall i j,
     0 <= i < _n_cells_y (prepared cv_gradient img h0) ->
     0 <= j < _n_cells_x (prepared cv_gradient img h0) ->
     exists c, cell_hist_of (prepared cv_gradient img h0) i j = Normal c) ->
  exists h, process cv_gradient img h0 = (Normal tt, h).
Proof.
  intros Hd Hr Hcl Hcells. unfold process.
  destruct (data img); [|congruence].
  replace ((to_size_t (rows img) <? _blocksize h0)
           || (to_size_t (cols img) <? _blocksize h0)) with false
    by (symmetry; apply orb_false_iff; split; apply Z.ltb_ge; assumption).
  fold (prepared cv_gradient img h0).
  set (hp := prepared cv_gradient img h0) in *.
  change (_cell_hists hp) with (@nil (list (@THist TType))).
  assert (Hny0 : 0 <= _n_cells_y hp) by apply to_size_t_range.
  destruct (process_rows_total hp Hcells 0
              (resize (Z.to_nat (_n_cells_y hp)) (@nil (@THist TType)) []))
    as (g' & Hg' & _).
  - lia.
  - rewrite resize_length. lia.
  - eexists. exact Hg'.
Qed.

(** X9: [process] returns normally on every image with data, of at least
    a block in each direction, whose gradient maps have data and the same
    dimensions, when the bin index of every pixel, computed as
    [process_cell] does, lies inside the histogram. *)
Theorem process_returns (img : Mat Pixel) (h0 : HOG)
  (d_mag d_ori : Z -> Z -> TType) :
  constructed h0 ->
  data img <> None ->
  _blocksize h0 <= to_size_t (rows img) ->
  _blocksize h0 <= to_size_t (cols img) ->
  Mat_wf (fst (cv_gradient img)) ->
  rows (snd (cv_gradient img)) = rows (fst (cv_gradient img)) ->
  cols (snd (cv_gradient img)) = cols (fst (cv_gradient img)) ->
  data (fst (cv_gradient img)) = Some d_mag ->
  data (snd (cv_gradient img)) = Some d_ori ->
  votes_in_range h0 (snd (cv_gradient img)) d_ori ->
  exists h, process cv_gradient img h0 = (Normal tt, h).
Proof.
  intros Hc Hd Hr Hcl Hwf Hro Hco Hmag Hori Hvotes.
  apply process_from_cells; try assumption.
  intros i j Hi Hj.
  destruct (prepared_cell_counts img h0 Hc Hwf) as [Hny Hnx].
  rewrite Hny in Hi. rewrite Hnx in Hj.
  pose proof Hc as ((_ & Hcs & _) & _).
  apply (cell_hist_of_total (prepared cv_gradient img h0) d_mag d_ori i j);
    assumption.
Qed.

(** X10: after a successful [process], [get_magnitudes] and
    [get_orientations] return the gradient maps of the image; the grid
    has [rows / cellsize] rows of [cols / cellsize] cells, the rows and
    columns of pixels beyond the last whole cell being left out; and every
    cell of the grid holds a histogram of [_binning] bins. *)
Theorem process_builds_complete_grid (img : Mat Pixel) (h0 h : HOG) :
  constructed h0 ->
  Mat_wf (fst (cv_gradient img)) ->
  process cv_gradient img h0 = (Normal tt, h) ->
  get_magnitudes h = fst (cv_gradient img) /\
  get_orientations h = snd (cv_gradient img) /\
  _n_cells_y h = rows (mag h) / _cellsize h /\
  _n_cells_x h = cols (mag h) / _cellsize h /\
  _n_cells_y h * _cellsize h <= rows (mag h) < (_n_cells_y h + 1) * _cellsize h /\
  _n_cells_x h * _cellsize h <= cols (mag h) < (_n_cells_x h + 1) * _cellsize h /\
  Z.of_nat (length (_cell_hists h)) = _n_cells_y h /\
  forall i j, 0 <= i < _n_cells_y h -> 0 <= j < _n_cells_x h ->
    exists cell_hist,
      cell_at h i j = Normal cell_hist /\
      Z.of_nat (length cell_hist) = _binning h.
Proof.
  intros Hc Hwf Hproc.
  destruct (processed_facts cv_gradient img h0 h Hc Hwf Hproc)
    as (Hch & _ & Hcs & _ & _ & _ & Hmag & Hori & (Hlen & Hrowlen) & Hcells).
  destruct (processed_cell_counts img h0 h Hc Hwf Hproc) as [Hny Hnx].
  pose proof Hch as ((_ & Hc1 & Hn2 & _) & _).
  pose proof (Z.mul_div_le (rows (mag h)) (_cellsize h) ltac:(lia)).
  pose proof (Z.mul_succ_div_gt (rows (mag h)) (_cellsize h) ltac:(lia)).
  pose proof (Z.mul_div_le (cols (mag h)) (_cellsize h) ltac:(lia)).
  pose proof (Z.mul_succ_div_gt (cols (mag h)) (_cellsize h) ltac:(lia)).
  split; [exact Hmag|]. split; [exact Hori|].
  split; [exact Hny|]. split; [exact Hnx|].
  rewrite Hny, Hnx.
  split; [lia|]. split; [lia|]. split; [exact Hlen|].
  intros i j Hi Hj. exists (grid_get h i j). split.
  - unfold cell_at, grid_get.
    replace (i <? Z.of_nat (length (_cell_hists h))) with true by lia.
    rewrite (Hrowlen i Hi).
    replace (j <? cols (mag h) / _cellsize h) with true by lia.
    reflexivity.
  - pose proof (cell_hist_of_length h i j _ (Hcells i j Hi Hj)) as Hl.
    rewrite Hl. lia.
Qed.

End CellPassMore.

(** ** The cell pass in exact arithmetic *)

Section IdealVoting.
Local Open Scope R_scope.
Implicit Types (h : @HOG R) (v : list R).

Local Abbreviation sum v := (@accumulate R ideal v 0).

Lemma Int_part_bounds (x : R) : IZR (Int_part x) <= x < IZR (Int_part x) + 1.
Proof. destruct (base_Int_part x) as [H1 H2]. lra. Qed.

Lemma IZR_lt_succ (a b : Z) : IZR a < IZR b + 1 -> (a <= b)%Z.
Proof.
  intros H. change 1 with (IZR 1) in H. rewrite <- plus_IZR in H.
  apply lt_IZR in H. lia.
Qed.

Lemma IZR_succ_le (a b : Z) : (a < b)%Z -> IZR a + 1 <= IZR b.
Proof.
  intros H. change 1 with (IZR 1). rewrite <- plus_IZR. apply IZR_le. lia.
Qed.

(** Truncation toward zero lands between two integers [a <= 0 <= b]
    exactly on the reals of (a - 1, b + 1). *)
Lemma Rtrunc_between (x : R) (a b : Z) :
  (a <= 0 <= b)%Z ->
  ((a <= Ideal.Rtrunc x <= b)%Z <-> IZR a - 1 < x < IZR b + 1).
Proof.
  intros [Ha Hb]. unfold Ideal.Rtrunc.
  assert (Ha0 : IZR a <= 0) by (apply (IZR_le a 0); exact Ha).
  assert (Hb0 : 0 <= IZR b) by (apply (IZR_le 0 b); exact Hb).
  destruct (Rle_dec 0 x) as [Hx | Hx].
  - pose proof (Int_part_bounds x) as [Hlo Hhi].
    assert (Hp : (0 <= Int_part x)%Z) by (apply (IZR_lt_succ 0); cbn; lra).
    split.
    + intros [_ H1]. apply IZR_le in H1. lra.
    + intros [_ H1]. split; [lia|]. apply IZR_lt_succ. lra.
  - assert (Hneg : x < 0) by lra.
    pose proof (Int_part_bounds (- x)) as [Hlo Hhi].
    assert (Hp : (0 <= Int_part (- x))%Z)
      by (apply (IZR_lt_succ 0); cbn; lra).
    split.
    + intros [H0 _]. assert (H1 : (Int_part (- x) <= - a)%Z) by lia.
      apply IZR_le in H1. rewrite opp_IZR in H1. lra.
    + intros [H1 _]. split; [|lia].
      assert (H2 : (Int_part (- x) <= - a)%Z).
      { apply IZR_lt_succ. rewrite opp_IZR. lra. }
      lia.
Qed.

Lemma Rtrunc_range (x : R) (n : Z) :
  (1 <= n)%Z ->
  ((0 <= Ideal.Rtrunc x < n)%Z <-> -1 < x < IZR n).
Proof.
  intros Hn.
  pose proof (Rtrunc_between x 0 (n - 1) ltac:(lia)) as H.
  rewrite minus_IZR in H. change (IZR 0) with 0 in H. change (IZR 1) with 1 in H.
  split.
  - intros Hk. assert (Hk' : (0 <= Ideal.Rtrunc x <= n - 1)%Z) by lia.
    apply H in Hk'. lra.
  - intros Hx. assert (Hx' : 0 - 1 < x < IZR n - 1 + 1) by lra.
    apply H in Hx'. lia.
Qed.

Lemma quotient_between (o w lo hi : R) :
  0 < w -> (lo < o / w < hi <-> lo * w < o < hi * w).
Proof.
  intros Hw.
  assert (Hinv : 0 < / w) by (apply Rinv_0_lt_compat; exact Hw).
  assert (Hone : w * / w = 1) by (apply Rinv_r; lra).
  assert (Ho : o = o / w * w) by (unfold Rdiv; rewrite Rmult_assoc, Rinv_l; lra).
  split; intros [H1 H2].
  - split.
    + rewrite Ho. apply Rmult_lt_compat_r; assumption.
    + rewrite Ho. apply Rmult_lt_compat_r; assumption.
  - split.
    + apply Rmult_lt_reg_r with (r := w); [exact Hw|]. rewrite <- Ho. exact H1.
    + apply Rmult_lt_reg_r with (r := w); [exact Hw|]. rewrite <- Ho. exact H2.
Qed.

Lemma sum_list_set (n : nat) (m : R) v :
  (n < length v)%nat ->
  sum (list_set n (nth n v 0 + m) v) = sum v + m.
Proof.
  revert n. induction v as [|x v IH]; intros [|n] Hn; cbn [length] in Hn;
    try lia; cbn [list_set nth].
  - rewrite !sum_cons. lra.
  - rewrite !sum_cons, IH by lia. lra.
Qed.

Lemma sum_zeros (n : nat) : sum (repeat 0 n) = 0.
Proof.
  induction n as [|n IH]; cbn [repeat].
  - reflexivity.
  - rewrite sum_cons, IH. lra.
Qed.

Lemma ideal_trunc_some (x : R) :
  IZR int_min - 1 < x < IZR int_max + 1 ->
  Ideal.trunc x = Some (Ideal.Rtrunc x) /\
  (int_min <= Ideal.Rtrunc x <= int_max)%Z.
Proof.
  intros Hx.
  assert (Hk : (int_min <= Ideal.Rtrunc x <= int_max)%Z).
  { apply Rtrunc_between; [unfold int_min, int_max; lia|exact Hx]. }
  split; [|exact Hk]. unfold Ideal.trunc. cbv zeta.
  replace ((int_min <=? Ideal.Rtrunc x) && (Ideal.Rtrunc x <=? int_max))%Z
    with true by lia.
  reflexivity.
Qed.

Lemma ideal_trunc_none (x : R) :
  ~ (IZR int_min - 1 < x < IZR int_max + 1) -> Ideal.trunc x = None.
Proof.
  intros Hx. unfold Ideal.trunc. cbv zeta.
  destruct ((int_min <=? Ideal.Rtrunc x) && (Ideal.Rtrunc x <=? int_max))%Z
    eqn:Hr; [|reflexivity].
  exfalso. apply Hx.
  apply (Rtrunc_between x int_min int_max);
    [unfold int_min, int_max; lia|lia].
Qed.

(** The orientations of the bins, and those whose quotient by the bin
    width fits an [int]. *)
Lemma ideal_bin_range h (o : R) :
  (0 < _bin_width h)%Z -> (1 <= _binning h)%Z ->
  (- IZR (_bin_width h) < o < IZR (_binning h) * IZR (_bin_width h) <->
   (0 <= Ideal.Rtrunc (o / IZR (_bin_width h)) < _binning h)%Z).
Proof.
  intros Hbw Hn.
  assert (Hw : 0 < IZR (_bin_width h)) by (apply (IZR_lt 0); exact Hbw).
  rewrite (Rtrunc_range _ (_binning h)) by lia.
  rewrite (quotient_between o _ (-1) (IZR (_binning h)) Hw).
  split; intros [H1 H2]; split; lra.
Qed.

Lemma ideal_int_range h (o : R) :
  (0 < _bin_width h)%Z ->
  ((IZR int_min - 1) * IZR (_bin_width h) < o
   < (IZR int_max + 1) * IZR (_bin_width h) <->
   IZR int_min - 1 < o / IZR (_bin_width h) < IZR int_max + 1).
Proof.
  intros Hbw. symmetry. apply quotient_between. apply (IZR_lt 0). exact Hbw.
Qed.

Lemma ideal_vote_in h (o m : R) (cell_hist : list R) :
  Z.of_nat (length cell_hist) = _binning h ->
  (_binning h <= int_max)%Z ->
  (0 <= Ideal.Rtrunc (o / IZR (_bin_width h)) < _binning h)%Z ->
  vote h o m cell_hist
  = Normal (list_set (Z.to_nat (Ideal.Rtrunc (o / IZR (_bin_width h))))
              (nth (Z.to_nat (Ideal.Rtrunc (o / IZR (_bin_width h))))
                 cell_hist 0 + m) cell_hist).
Proof.
  intros Hlen Hn Hk.
  change (vote h o m cell_hist)
    with (match Ideal.trunc (o / IZR (_bin_width h)) with
          | Some k => at_add cell_hist k m
          | None => Undefined float_to_int_out_of_range
          end).
  set (q := o / IZR (_bin_width h)) in *.
  assert (Hq : IZR int_min - 1 < q < IZR int_max + 1).
  { apply (Rtrunc_between q int_min int_max);
      [unfold int_min, int_max; lia|unfold int_min, int_max in *; lia]. }
  destruct (ideal_trunc_some q Hq) as [-> _].
  unfold at_add. cbv zeta.
  rewrite to_size_t_id by (apply int_max_size_t; lia).
  replace (Ideal.Rtrunc q <? Z.of_nat (length cell_hist))%Z with true by lia.
  reflexivity.
Qed.

Lemma ideal_vote_out h (o m : R) (cell_hist : list R) :
  Z.of_nat (length cell_hist) = _binning h ->
  (_binning h <= int_max)%Z ->
  ~ (0 <= Ideal.Rtrunc (o / IZR (_bin_width h)) < _binning h)%Z ->
  IZR int_min - 1 < o / IZR (_bin_width h) < IZR int_max + 1 ->
  vote h o m cell_hist = Throw out_of_range.
Proof.
  intros Hlen Hn Hk Hq.
  change (vote h o m cell_hist)
    with (match Ideal.trunc (o / IZR (_bin_width h)) with
          | Some k => at_add cell_hist k m
          | None => Undefined float_to_int_out_of_range
          end).
  set (q := o / IZR (_bin_width h)) in *.
  destruct (ideal_trunc_some q Hq) as [-> Hr].
  unfold at_add. cbv zeta.
  assert (Hbig : (Z.of_nat (length cell_hist)
                  <= to_size_t (Ideal.Rtrunc q))%Z).
  { unfold to_size_t, size_t_modulus, int_min, int_max in *.
    destruct (Z.le_gt_cases 0 (Ideal.Rtrunc q)) as [H0 | H0].
    - rewrite Z.mod_small by lia. lia.
    - assert (Hm : (Ideal.Rtrunc q mod 2 ^ 64 = Ideal.Rtrunc q + 2 ^ 64)%Z).
      { symmetry. apply (Z.mod_unique_pos _ _ (-1)); lia. }
      rewrite Hm. lia. }
  replace (to_size_t (Ideal.Rtrunc q) <? Z.of_nat (length cell_hist))%Z
    with false by lia.
  reflexivity.
Qed.

Lemma ideal_vote_undefined h (o m : R) (cell_hist : list R) :
  ~ (IZR int_min - 1 < o / IZR (_bin_width h) < IZR int_max + 1) ->
  vote h o m cell_hist = Undefined float_to_int_out_of_range.
Proof.
  intros Hq.
  change (vote h o m cell_hist)
    with (match Ideal.trunc (o / IZR (_bin_width h)) with
          | Some k => at_add cell_hist k m
          | None => Undefined float_to_int_out_of_range
          end).
  rewrite (ideal_trunc_none _ Hq). reflexivity.
Qed.


End IdealVoting.

Section IdealProcess.
Context {Pixel : Type}.
Variable cv_gradient : Mat Pixel -> Mat R * Mat R.
Implicit Types (h : @HOG R).

Lemma exact_bin_width h :
  constructed h -> _grad_type h mod _binning h = 0 ->
  1 <= _bin_width h /\ _binning h * _bin_width h = _grad_type h /\
  2 <= _binning h <= 360 /\
  (_grad_type h = 180 \/ _grad_type h = 360).
Proof.
  intros ((_ & _ & Hn & Hg & _) & Hbw & _) Hdiv.
  pose proof (Z.div_mod (_grad_type h) (_binning h) ltac:(lia)) as Hdm.
  rewrite Hdiv, <- Hbw in Hdm.
  unfold GRADIENT_UNSIGNED, GRADIENT_SIGNED in Hg.
  assert (H1 : 1 <= _bin_width h) by nia.
  repeat split; try lia; try nia.
Qed.

Lemma effective_orientation_range h (o : R) :
  constructed h -> (0 <= o < 360)%R ->
  (0 <= effective_orientation h o < IZR (_grad_type h))%R.
Proof.
  intros ((_ & _ & _ & Hg & _) & _) Ho.
  unfold effective_orientation, fold_orientation.
  unfold GRADIENT_UNSIGNED, GRADIENT_SIGNED in *.
  destruct (_grad_type h =? 360) eqn:Hs.
  - apply Z.eqb_eq in Hs. rewrite Hs. exact Ho.
  - apply Z.eqb_neq in Hs. assert (Hu : _grad_type h = 180) by lia.
    rewrite Hu. cbn [f_leb f_sub f_of_Z ideal]. unfold Ideal.leb.
    destruct (Rle_dec 180 o); lra.
Qed.

Lemma ideal_bin_in_range h (o : R) :
  constructed h -> _grad_type h mod _binning h = 0 ->
  (0 <= o < 360)%R ->
  exists k, bin_index h o = Some k /\ 0 <= k < _binning h.
Proof.
  intros Hc Hdiv Ho.
  destruct (exact_bin_width h Hc Hdiv) as (Hbw & Hprod & Hn & _).
  pose proof (effective_orientation_range h o Hc Ho) as He.
  rewrite <- Hprod, mult_IZR in He.
  set (e := effective_orientation h o) in *.
  assert (Hw : (0 < IZR (_bin_width h))%R) by (apply (IZR_lt 0); lia).
  assert (Hq : (-1 < e / IZR (_bin_width h) < IZR (_binning h))%R).
  { apply quotient_between; [exact Hw|]. lra. }
  assert (Hk : 0 <= Ideal.Rtrunc (e / IZR (_bin_width h)) < _binning h)
    by (apply Rtrunc_range; [lia|exact Hq]).
  exists (Ideal.Rtrunc (e / IZR (_bin_width h))). split; [|exact Hk].
  change (bin_index h o) with (Ideal.trunc (e / IZR (_bin_width h))).
  unfold Ideal.trunc. cbv zeta.
  replace ((int_min <=? Ideal.Rtrunc (e / IZR (_bin_width h)))
           && (Ideal.Rtrunc (e / IZR (_bin_width h)) <=? int_max))
    with true by (unfold int_min, int_max; lia).
  reflexivity.
Qed.


End IdealProcess.

Lemma map_flat_map_pairs {A B C : Type} (g : B -> C) (f : A -> list B)
  (l : list A) :
  map g (flat_map f l) = flat_map (fun a => map g (f a)) l.
Proof.
  induction l as [|a l IH]; cbn [flat_map map]; [reflexivity|].
  rewrite map_app, IH. reflexivity.
Qed.

Section IdealMagnitude.
Context {Pixel : Type}.
Variable cv_gradient : Mat Pixel -> Mat R * Mat R.
Implicit Types (h : @HOG R) (v : list R).

Local Abbreviation sum v := (@accumulate R ideal v 0%R).

Lemma vote_adds_magnitude h (o m : R) (cell_hist v : list R) :
  vote h o m cell_hist = Normal v -> sum v = (sum cell_hist + m)%R.
Proof.
  unfold vote. destruct (f_to_int _) as [k|]; [|discriminate].
  unfold at_add. cbv zeta.
  destruct (to_size_t k <? Z.of_nat (length cell_hist)) eqn:Hk;
    [|discriminate].
  intros H. injection H as <-.
  apply (sum_list_set (Z.to_nat (to_size_t k)) m cell_hist).
  pose proof (to_size_t_range k) as [H0 _]. lia.
Qed.

Lemma votes_add_magnitudes h (eff : R -> R) (pixels : list (R * R)) :
  forall init v,
    for_each pixels (fun p a => vote h (eff (fst p)) (snd p) a) init
    = Normal v ->
    sum v = (sum init + sum (map snd pixels))%R.
Proof.
  induction pixels as [|[o m] pixels IH]; intros init v H;
    cbn [for_each map fst snd] in *.
  - injection H as <-. change (sum []) with 0%R. lra.
  - destruct (vote h (eff o) m init) as [a| | |] eqn:Hv; cbn [bind] in H;
      try discriminate.
    rewrite (IH a v H), (vote_adds_magnitude h _ m init a Hv), sum_cons. lra.
Qed.

Lemma process_cell_sum h (cell_mag cell_ori : Mat R)
  (d_mag d_ori : Z -> Z -> R) (v : list R) :
  data cell_mag = Some d_mag -> data cell_ori = Some d_ori ->
  process_cell h cell_mag cell_ori = Normal v ->
  sum v = sum (map snd (cell_pixels cell_mag d_mag d_ori)).
Proof.
  intros Hmag Hori.
  assert (Hbody : forall (eff : R -> R) init,
    for_each (zrange 0 (to_size_t (rows cell_mag)))
      (fun i cell_hist =>
         for_each (zrange 0 (to_size_t (cols cell_mag)))
           (fun j cell_hist =>
              o <- Mat_at cell_ori i j ;;
              m <- Mat_at cell_mag i j ;;
              vote h (eff o) m cell_hist) cell_hist) init
    = for_each (cell_pixels cell_mag d_mag d_ori)
        (fun p a => vote h (eff (fst p)) (snd p) a) init).
  { intros eff init. unfold cell_pixels.
    apply (for_each_nested
             (fun i j cell_hist =>
                o <- Mat_at cell_ori i j ;;
                m <- Mat_at cell_mag i j ;;
                vote h (eff o) m cell_hist)
             (fun i j => (d_ori i j, d_mag i j))
             (fun p a => vote h (eff (fst p)) (snd p) a)).
    intros i j a. unfold Mat_at. rewrite Hmag, Hori. reflexivity. }
  unfold process_cell.
  destruct (_grad_type h =? GRADIENT_SIGNED).
  - rewrite (Hbody (fun o => o)). intros H.
    rewrite (votes_add_magnitudes h (fun o => o) _ _ _ H).
    change (@zero R ideal) with 0%R. rewrite sum_zeros. lra.
  - rewrite (Hbody fold_orientation). intros H.
    rewrite (votes_add_magnitudes h fold_orientation _ _ _ H).
    change (@zero R ideal) with 0%R. rewrite sum_zeros. lra.
Qed.


End IdealMagnitude.

(** ** Block retrieval, continued *)

Section DescriptorMore.
Context {TType : Type} {ops : TTypeOps TType} {Pixel : Type}.
Variable cv_gradient : Mat Pixel -> Mat TType * Mat TType.
Implicit Types (h : @HOG TType).

(** *** A stride of zero *)

Lemma loop_block_x_spins h (x width block_y block_x : Z) :
  _stride_unit h = 0 -> is_size_t block_x ->
  block_x <= to_size_t (x + width - _n_cells_per_block_x h) ->
  (exists v, block_hist_at h block_y block_x = Normal v) ->
  forall fuel acc,
    loop_block_x fuel h x width block_y block_x acc = OutOfFuel.
Proof.
  intros Hsu Hbx Hle [v Hv]. induction fuel as [|fuel IH]; intros acc;
    cbn [loop_block_x]; [reflexivity|].
  replace (block_x <=? to_size_t (x + width - _n_cells_per_block_x h))
    with true by lia.
  rewrite Hv. cbn [bind].
  rewrite Hsu, Z.add_0_r, (to_size_t_id block_x) by exact Hbx. apply IH.
Qed.

(** X14: a stride of zero passes the checks of the constructor, and with
    it [retrieve] never returns: on every valid window of a processed
    image the block loops stay on their first block, whatever the number
    of iterations allowed. *)
Theorem retrieve_spins_with_stride_zero (img : Mat Pixel) (h0 h : HOG)
  (window : Rect) :
  constructed h0 ->
  _stride h0 = 0 ->
  Mat_wf (fst (cv_gradient img)) ->
  process cv_gradient img h0 = (Normal tt, h) ->
  valid_window h window ->
  check_ctor_params (_blocksize h0) (_cellsize h0) (_stride h0) (_binning h0)
    (_grad_type h0) = Normal tt /\
  forall fuel, retrieve fuel window h = (OutOfFuel, h).
Proof.
  intros Hc0 Hs0 Hmat Hproc Hwin.
  split; [apply check_ctor_params_ok; apply Hc0|].
  intros fuel. unfold retrieve. f_equal.
  destruct (processed_facts cv_gradient img h0 h Hc0 Hmat Hproc)
    as (Hc & _ & _ & Hs & _ & _ & Hmag & _ & Hgrid & _).
  rewrite <- Hs in Hs0. rewrite <- Hmag in Hmat. clear Hs Hmag Hc0 Hproc h0.
  rewrite (retrieve_on_valid_window h window Hc Hmat Hwin).
  destruct Hc as ((Hb2 & Hc1 & _ & _ & Hbc & _) & _ & Hny & Hnx & _ & _ & Hsu).
  destruct Hmat as [Hrows Hcols].
  destruct Hwin as (Hx & Hy & Hw & Hh & Hxw & Hyh).
  rewrite Hs0 in Hsu. cbn in Hsu. rewrite Hny in Hnx.
  set (c := _cellsize h) in *. set (b := _blocksize h) in *.
  assert (Hbpos : 1 <= b / c <= b) by (apply multiple_div_pos; lia).
  assert (Hwc : b / c <= rect_width window / c) by (apply Z.div_le_mono; lia).
  assert (Hhc : b / c <= rect_height window / c)
    by (apply Z.div_le_mono; lia).
  assert (Hxc : 0 <= rect_x window / c <= rect_x window).
  { split; [apply Z.div_pos; lia|apply Z.div_le_upper_bound; nia]. }
  assert (Hyc : 0 <= rect_y window / c <= rect_y window).
  { split; [apply Z.div_pos; lia|apply Z.div_le_upper_bound; nia]. }
  assert (Hwu : rect_width window / c <= rect_width window)
    by (apply Z.div_le_upper_bound; nia).
  assert (Hhu : rect_height window / c <= rect_height window)
    by (apply Z.div_le_upper_bound; nia).
  assert (Hxwc : rect_x window / c + rect_width window / c
                 <= cols (mag h) / c).
  { etransitivity; [apply div_add_le; lia|]. apply Z.div_le_mono; lia. }
  assert (Hyhc : rect_y window / c + rect_height window / c
                 <= rows (mag h) / c).
  { etransitivity; [apply div_add_le; lia|]. apply Z.div_le_mono; lia. }
  assert (Hcolsc : cols (mag h) / c <= int_max).
  { etransitivity; [|apply Hcols]. apply Z.div_le_upper_bound; nia. }
  assert (Hrowsc : rows (mag h) / c <= int_max).
  { etransitivity; [|apply Hrows]. apply Z.div_le_upper_bound; nia. }
  assert (Hwrap : int_max < size_t_modulus) by reflexivity.
  destruct fuel as [|fuel]; cbn [loop_block_y]; [reflexivity|].
  rewrite Hny.
  rewrite (to_size_t_id (rect_y window / c + rect_height window / c - b / c))
    by (apply int_max_size_t; lia).
  replace (rect_y window / c <=?
           rect_y window / c + rect_height window / c - b / c)
    with true by lia.
  rewrite loop_block_x_spins; [reflexivity|exact Hsu| | |].
  - apply int_max_size_t. lia.
  - rewrite Hnx, to_size_t_id by (apply int_max_size_t; lia). lia.
  - eexists.
    apply (block_hist_at_in_bounds h (rows (mag h) / c) (cols (mag h) / c));
      try exact Hgrid; rewrite ?Hnx, ?Hny; lia.
Qed.

(** *** Windows and cells *)

Lemma valid_window_aligned h (window : Rect) :
  constructed h -> valid_window h window ->
  valid_window h (cell_aligned h window) /\
  rect_x (cell_aligned h window) / _cellsize h = rect_x window / _cellsize h /\
  rect_y (cell_aligned h window) / _cellsize h = rect_y window / _cellsize h /\
  rect_width (cell_aligned h window) / _cellsize h
  = rect_width window / _cellsize h /\
  rect_height (cell_aligned h window) / _cellsize h
  = rect_height window / _cellsize h.
Proof.
  intros ((Hb2 & Hc1 & _ & _ & Hbc & _) & _) (Hx & Hy & Hw & Hh & Hxw & Hyh).
  unfold cell_aligned, valid_window.
  cbn [rect_x rect_y rect_width rect_height].
  set (c := _cellsize h) in *. set (b := _blocksize h) in *.
  pose proof (Z.mul_div_le (rect_x window) c ltac:(lia)).
  pose proof (Z.mul_div_le (rect_y window) c ltac:(lia)).
  pose proof (Z.mul_div_le (rect_width window) c ltac:(lia)).
  pose proof (Z.mul_div_le (rect_height window) c ltac:(lia)).
  assert (0 <= rect_x window / c) by (apply Z.div_pos; lia).
  assert (0 <= rect_y window / c) by (apply Z.div_pos; lia).
  assert (Hbd : b = c * (b / c))
    by (pose proof (Z.div_mod b c ltac:(lia)); lia).
  assert (Hwc : b / c <= rect_width window / c) by (apply Z.div_le_mono; lia).
  assert (Hhc : b / c <= rect_height window / c)
    by (apply Z.div_le_mono; lia).
  rewrite !Z.div_mul by lia.
  repeat split; try reflexivity; nia.
Qed.

(** X15: [retrieve] works on whole cells: a valid window and the window
    with its origin and its extents rounded down to multiples of the cell
    size, which is valid too, give the same result, and so do two valid
    windows that have the same origin and extents in cell units. *)
Theorem retrieve_rounds_window_to_cells h (window : Rect) :
  constructed h -> Mat_wf (mag h) -> valid_window h window ->
  valid_window h (cell_aligned h window) /\
  (forall fuel,
     retrieve fuel (cell_aligned h window) h = retrieve fuel window h) /\
  (forall window', valid_window h window' ->
     rect_x window' / _cellsize h = rect_x window / _cellsize h ->
     rect_y window' / _cellsize h = rect_y window / _cellsize h ->
     rect_width window' / _cellsize h = rect_width window / _cellsize h ->
     rect_height window' / _cellsize h = rect_height window / _cellsize h ->
     forall fuel, retrieve fuel window' h = retrieve fuel window h).
Proof.
  intros Hc Hmat Hwin.
  assert (Hsame : forall window', valid_window h window' ->
     rect_x window' / _cellsize h = rect_x window / _cellsize h ->
     rect_y window' / _cellsize h = rect_y window / _cellsize h ->
     rect_width window' / _cellsize h = rect_width window / _cellsize h ->
     rect_height window' / _cellsize h = rect_height window / _cellsize h ->
     forall fuel, retrieve fuel window' h = retrieve fuel window h).
  { intros window' Hwin' Ex Ey Ew Eh fuel. unfold retrieve. f_equal.
    rewrite (retrieve_on_valid_window h window' Hc Hmat Hwin').
    rewrite (retrieve_on_valid_window h window Hc Hmat Hwin).
    rewrite Ex, Ey, Ew, Eh. reflexivity. }
  destruct (valid_window_aligned h window Hc Hwin)
    as (Hval & Ex & Ey & Ew & Eh).
  split; [exact Hval|]. split; [|exact Hsame].
  apply Hsame; assumption.
Qed.

(** *** Rows of blocks *)

Lemma seq_snoc (n : nat) : seq 0 (S n) = seq 0 n ++ [n].
Proof. rewrite seq_S. reflexivity. Qed.

Lemma block_positions_extend h (y e : Z) :
  constructed h -> 0 < _stride h ->
  0 <= y -> _blocksize h <= e ->
  block_positions h (y / _cellsize h) ((e + _stride h) / _cellsize h)
  = block_positions h (y / _cellsize h) (e / _cellsize h)
    ++ block_positions h ((y + n_blocks h e * _stride h) / _cellsize h)
         (_blocksize h / _cellsize h) /\
  0 <= n_blocks h e * _stride h <= e - _blocksize h + _stride h.
Proof.
  intros ((Hb2 & Hc1 & _ & _ & Hbc & Hsc) & _) Hs Hy He.
  set (c := _cellsize h) in *. set (b := _blocksize h) in *.
  set (s := _stride h) in *.
  assert (Hcpb : cells_per_block h = b / c) by reflexivity.
  assert (Hsic : stride_in_cells h = s / c) by reflexivity.
  assert (Hbpos : 1 <= b / c <= b) by (apply multiple_div_pos; lia).
  assert (Hspos : 1 <= s / c <= s) by (apply multiple_div_pos; lia).
  assert (Hsd : s = s / c * c)
    by (pose proof (Z.div_mod s c ltac:(lia)); lia).
  assert (Hec : b / c <= e / c) by (apply Z.div_le_mono; lia).
  assert (Hn : n_blocks h e = (e / c - b / c) / (s / c) + 1).
  { unfold n_blocks. fold b s. rewrite (n_blocks_cells e b s c); [reflexivity|lia|lia|exact Hbc|exact Hsc]. }
  assert (Hq : 0 <= (e / c - b / c) / (s / c)) by (apply Z.div_pos; lia).
  assert (Hes : (e + s) / c = e / c + s / c).
  { rewrite Hsd at 1. rewrite Z.div_add by lia. reflexivity. }
  assert (Hcount : (e / c + s / c - b / c) / (s / c) + 1
                   = (e / c - b / c) / (s / c) + 1 + 1).
  { replace (e / c + s / c - b / c) with (e / c - b / c + 1 * (s / c)) by lia.
    rewrite Z.div_add by lia. lia. }
  assert (Hlast : (y + n_blocks h e * s) / c = y / c + n_blocks h e * (s / c)).
  { replace (y + n_blocks h e * s) with (y + n_blocks h e * (s / c) * c)
      by (rewrite <- Z.mul_assoc, <- Hsd; reflexivity).
    rewrite Z.div_add by lia. reflexivity. }
  split.
  - unfold block_positions. rewrite Hcpb, Hsic, Hes, Hcount, Hlast.
    replace ((b / c - b / c) / (s / c) + 1) with 1
      by (rewrite Z.sub_diag, Z.div_0_l by lia; reflexivity).
    replace (Z.to_nat ((e / c - b / c) / (s / c) + 1 + 1))
      with (S (Z.to_nat ((e / c - b / c) / (s / c) + 1))) by lia.
    rewrite seq_snoc, map_app. f_equal.
    change (Z.to_nat 1) with 1%nat. cbn [seq map].
    rewrite Hn, Z2Nat.id by lia. change (Z.of_nat 0) with 0.
    f_equal. lia.
  - unfold n_blocks. fold b s.
    pose proof (Z.mul_div_le (e - b) s ltac:(lia)).
    assert (0 <= (e - b) / s) by (apply Z.div_pos; lia).
    nia.
Qed.

(** X16: the descriptor is made of rows of blocks: the vector of a window
    one stride higher than a valid window is the vector of that window
    followed by the vector of the window of one block in height that
    starts [n_blocks * stride] pixels below the origin. *)
Theorem retrieve_appends_block_rows (img : Mat Pixel) (h0 h : HOG)
  (x y width height : Z) :
  constructed h0 ->
  0 < _stride h0 <= int_max ->
  Mat_wf (fst (cv_gradient img)) ->
  process cv_gradient img h0 = (Normal tt, h) ->
  _blocksize h <= height ->
  valid_window h (mkRect x y width (height + _stride h)) ->
  exists v_top v_last,
    retrieve_returns (mkRect x y width height) h v_top h /\
    retrieve_returns
      (mkRect x (y + n_blocks h height * _stride h) width (_blocksize h))
      h v_last h /\
    retrieve_returns (mkRect x y width (height + _stride h)) h
      (v_top ++ v_last) h.
Proof.
  intros Hc0 Hstride Hmat Hproc Hheight Hwhole.
  destruct (processed_facts cv_gradient img h0 h Hc0 Hmat Hproc)
    as (Hc & _ & _ & Hs & _).
  assert (Hspos : 0 < _stride h) by lia.
  pose proof Hwhole as (Hx & Hy & Hw & Hh & Hxw & Hyh).
  cbn [rect_x rect_y rect_width rect_height] in *.
  destruct (block_positions_extend h y height Hc Hspos Hy Hheight)
    as [Hpos Hbound].
  assert (Htop : valid_window h (mkRect x y width height)).
  { unfold valid_window. cbn [rect_x rect_y rect_width rect_height]. lia. }
  assert (Hlast : valid_window h
            (mkRect x (y + n_blocks h height * _stride h) width
               (_blocksize h))).
  { unfold valid_window. cbn [rect_x rect_y rect_width rect_height]. lia. }
  exists (spec_retrieve h (mkRect x y width height)),
    (spec_retrieve h
       (mkRect x (y + n_blocks h height * _stride h) width (_blocksize h))).
  split; [apply (retrieve_result_returns cv_gradient img h0); assumption|].
  split; [apply (retrieve_result_returns cv_gradient img h0); assumption|].
  replace (spec_retrieve h (mkRect x y width height) ++
           spec_retrieve h
             (mkRect x (y + n_blocks h height * _stride h) width
                (_blocksize h)))
    with (spec_retrieve h (mkRect x y width (height + _stride h))).
  - apply (retrieve_result_returns cv_gradient img h0); assumption.
  - unfold spec_retrieve. cbn [rect_x rect_y rect_width rect_height].
    rewrite Hpos, map_app, concat_app. reflexivity.
Qed.

End DescriptorMore.

(** ** The descriptor and the pixels of the window *)

Section Locality.
Context {TType : Type} {ops : TTypeOps TType} {Pixel : Type}.
Variable cv_gradient : Mat Pixel -> Mat TType * Mat TType.
Implicit Types (h : @HOG TType).

(** The histogram of a cell depends on the configuration and on the
    pixels of the cell only. *)
Lemma process_cell_ext h1 h2 (m1 o1 m2 o2 : Mat TType) :
  _binning h1 = _binning h2 -> _grad_type h1 = _grad_type h2 ->
  _bin_width h1 = _bin_width h2 ->
  rows m1 = rows m2 -> cols m1 = cols m2 ->
  (forall i j, 0 <= i < to_size_t (rows m1) -> 0 <= j < to_size_t (cols m1) ->
     Mat_at o1 i j = Mat_at o2 i j /\ Mat_at m1 i j = Mat_at m2 i j) ->
  process_cell h1 m1 o1 = process_cell h2 m2 o2.
Proof.
  intros Hn Hg Hw Hr Hc Hpix. unfold process_cell.
  rewrite <- Hn, <- Hg, <- Hr, <- Hc.
  assert (Hvote : forall o m a, vote h1 o m a = vote h2 o m a).
  { intros o m a. unfold vote. rewrite Hw. reflexivity. }
  destruct (_grad_type h1 =? GRADIENT_SIGNED).
  - apply for_each_ext. intros i a Hi. apply zrange_In in Hi.
    apply for_each_ext. intros j b Hj. apply zrange_In in Hj.
    destruct (Hpix i j Hi Hj) as [-> ->].
    destruct (Mat_at o2 i j); cbn [bind]; try reflexivity.
    destruct (Mat_at m2 i j); cbn [bind]; try reflexivity.
    apply Hvote.
  - apply for_each_ext. intros i a Hi. apply zrange_In in Hi.
    apply for_each_ext. intros j b Hj. apply zrange_In in Hj.
    destruct (Hpix i j Hi Hj) as [-> ->].
    destruct (Mat_at o2 i j); cbn [bind]; try reflexivity.
    destruct (Mat_at m2 i j); cbn [bind]; try reflexivity.
    apply Hvote.
Qed.

Lemma cell_hist_of_ext h1 h2 (d1m d1o d2m d2o : Z -> Z -> TType) (i j : Z) :
  _binning h1 = _binning h2 -> _grad_type h1 = _grad_type h2 ->
  _bin_width h1 = _bin_width h2 -> _cellsize h1 = _cellsize h2 ->
  1 <= _cellsize h1 ->
  Mat_wf (mag h1) -> Mat_wf (mag h2) -> Mat_wf (ori h1) -> Mat_wf (ori h2) ->
  data (mag h1) = Some d1m -> data (ori h1) = Some d1o ->
  data (mag h2) = Some d2m -> data (ori h2) = Some d2o ->
  0 <= i < rows (mag h1) / _cellsize h1 -> 0 <= j < cols (mag h1) / _cellsize h1 ->
  0 <= i < rows (mag h2) / _cellsize h1 -> 0 <= j < cols (mag h2) / _cellsize h1 ->
  0 <= i < rows (ori h1) / _cellsize h1 -> 0 <= j < cols (ori h1) / _cellsize h1 ->
  0 <= i < rows (ori h2) / _cellsize h1 -> 0 <= j < cols (ori h2) / _cellsize h1 ->
  (forall y x, i * _cellsize h1 <= y < (i + 1) * _cellsize h1 ->
               j * _cellsize h1 <= x < (j + 1) * _cellsize h1 ->
     d1m y x = d2m y x /\ d1o y x = d2o y x) ->
  cell_hist_of h1 i j = cell_hist_of h2 i j.
Proof.
  intros Hn Hg Hw Hcs Hc1 Wm1 Wm2 Wo1 Wo2 Dm1 Do1 Dm2 Do2
    Im1 Jm1 Im2 Jm2 Io1 Jo1 Io2 Jo2 Hagree.
  assert (Hc2 : 1 <= _cellsize h2) by lia.
  destruct (cell_rect_inside h1 i j _ _ (mag h1) Hc1 Wm1 eq_refl eq_refl Im1 Jm1)
    as (R1 & Hi1 & _).
  destruct (cell_rect_inside h1 i j _ _ (ori h1) Hc1 Wo1 eq_refl eq_refl Io1 Jo1)
    as (R2 & _ & _).
  rewrite Hcs in Im2, Jm2, Io2, Jo2.
  destruct (cell_rect_inside h2 i j _ _ (mag h2) Hc2 Wm2 eq_refl eq_refl Im2 Jm2)
    as (R3 & _ & _).
  destruct (cell_rect_inside h2 i j _ _ (ori h2) Hc2 Wo2 eq_refl eq_refl Io2 Jo2)
    as (R4 & _ & _).
  unfold cell_hist_of. rewrite R1, R2, R3, R4. cbn [bind].
  rewrite Dm1, Do1, Dm2, Do2. cbn [option_map].
  destruct Wm1 as [Hrows _].
  assert (Hcs1 : to_size_t (_cellsize h1) = _cellsize h1).
  { apply to_size_t_id, int_max_size_t. nia. }
  apply process_cell_ext; try assumption.
  cbn [rows cols]. rewrite Hcs1. intros y x Hy Hx.
  unfold Mat_at. cbn [data]. rewrite <- Hcs.
  destruct (Hagree (i * _cellsize h1 + y) (j * _cellsize h1 + x)) as [-> ->];
    [nia|nia|].
  split; reflexivity.
Qed.

Lemma processed_config (img : Mat Pixel) (h0 h : HOG) :
  process cv_gradient img h0 = (Normal tt, h) ->
  _blocksize h = _blocksize h0 /\ _cellsize h = _cellsize h0 /\
  _stride h = _stride h0 /\ _grad_type h = _grad_type h0 /\
  _binning h = _binning h0 /\ _bin_width h = _bin_width h0 /\
  _block_norm h = _block_norm h0 /\
  mag h = fst (cv_gradient img) /\ ori h = snd (cv_gradient img).
Proof.
  intros H. destruct (process_success cv_gradient img h0 h H) as (g & -> & _).
  repeat split.
Qed.


End Locality.

(** ** The mask of arrows *)

(** A counted loop keeps an invariant that depends on the index. *)
Lemma for_each_zrange_invariant {A : Type} (P : Z -> A -> Prop)
  (body : Z -> A -> outcome A) (lo hi : Z) :
  (forall i a a', lo <= i < hi -> P i a -> body i a = Normal a' ->
     P (i + 1) a') ->
  forall a a', lo <= hi -> P lo a ->
    for_each (zrange lo hi) body a = Normal a' -> P hi a'.
Proof.
  intros Hbody.
  assert (Hgen : forall k a a', lo <= k -> k <= hi -> P k a ->
    for_each (zrange k hi) body a = Normal a' -> P hi a').
  { intros k. pattern k. apply (zrange_ind hi); clear k.
    - intros k Hk a a' Hlo Hle Ha H. rewrite zrange_nil in H by exact Hk.
      cbn [for_each] in H. injection H as <-.
      replace hi with k by lia. exact Ha.
    - intros k Hk IH a a' Hlo _ Ha H. rewrite zrange_cons in H by exact Hk.
      cbn [for_each] in H.
      destruct (body k a) as [a1| | |] eqn:Hb; cbn [bind] in H;
        try discriminate.
      apply (IH a1 a'); [lia|lia| |exact H].
      apply (Hbody k a a1); [lia|exact Ha|exact Hb]. }
  intros a a' Hle. apply Hgen; lia.
Qed.

(** A loop does not return when the body of one of its indices never
    does. *)
Lemma for_each_stuck {I A : Type} (body : I -> A -> outcome A) (l : list I)
  (i : I) :
  In i l -> (forall a a', body i a <> Normal a') ->
  forall a a', for_each l body a <> Normal a'.
Proof.
  intros Hin Hbody. induction l as [|x l IH]; [destruct Hin|].
  intros a a'. cbn [for_each].
  destruct Hin as [-> | Hin].
  - destruct (body i a) as [a1| | |] eqn:Hb; cbn [bind]; try discriminate.
    exfalso. exact (Hbody a a1 Hb).
  - destruct (body x a) as [a1| | |]; cbn [bind]; try discriminate.
    apply IH. exact Hin.
Qed.

Lemma nth_error_list_set {A : Type} (n m : nat) (x : A) (l : list A) :
  nth_error (list_set n x l) m
  = if Nat.eqb n m then (if Nat.ltb m (length l) then Some x else None)
    else nth_error l m.
Proof.
  revert n m. induction l as [|y l IH]; intros [|n] [|m];
    cbn [list_set nth_error length Nat.eqb]; try reflexivity.
  - destruct (Nat.eqb n m); reflexivity.
  - rewrite IH. destruct (Nat.eqb n m); [|reflexivity].
    change (Nat.ltb (S m) (S (length l))) with (Nat.ltb m (length l)).
    reflexivity.
Qed.

Lemma vec_at_list_set_same {A : Type} (i : Z) (x y : A) (l : list A) :
  vec_at l i = Normal y -> vec_at (list_set (Z.to_nat i) x l) i = Normal x.
Proof.
  unfold vec_at. rewrite nth_error_list_set, Nat.eqb_refl.
  destruct (nth_error l (Z.to_nat i)) eqn:Hn; [|discriminate].
  intros _. assert (Hlt : (Z.to_nat i < length l)%nat).
  { apply nth_error_Some. congruence. }
  apply Nat.ltb_lt in Hlt. rewrite Hlt. reflexivity.
Qed.

Lemma vec_at_list_set_other {A : Type} (i j : Z) (x : A) (l : list A) :
  0 <= i -> 0 <= j -> i <> j ->
  vec_at (list_set (Z.to_nat i) x l) j = vec_at l j.
Proof.
  intros Hi Hj Hne. unfold vec_at. rewrite nth_error_list_set.
  replace (Nat.eqb (Z.to_nat i) (Z.to_nat j)) with false; [reflexivity|].
  symmetry. apply Nat.eqb_neq. lia.
Qed.

Lemma max_element_zeros (n : nat) :
  max_element (repeat (Binary32.of_Z 0) (S n)) = Normal (Binary32.of_Z 0).
Proof.
  cbn [repeat max_element]. f_equal.
  induction n as [|n IH]; [reflexivity|].
  cbn [repeat max_element_from].
  replace (SFltb (Binary32.of_Z 0) (Binary32.of_Z 0)) with false
    by (vm_compute; reflexivity).
  exact IH.
Qed.

Section VectorMaskFlat.
Variable Canvas : Type.
Variable cv_zeros : Z -> Z -> Canvas.
Variable cv_line : Canvas -> Point -> Point -> Z -> Z -> outcome Canvas.
Variable cos : spec_float -> spec_float.
Variable sin : spec_float -> spec_float.

Local Abbreviation zero32 := (Binary32.of_Z 0).

(** The entry of [cell_hist_maxs] for a cell. *)
Local Abbreviation entry maxs i j :=
  (bind (vec_at maxs i) (fun row => vec_at row j)).

Lemma maxs_store_entry (i j i0 j0 : Z) (x z : spec_float)
  (maxs maxs' : list (list spec_float)) :
  0 <= i -> 0 <= j -> 0 <= i0 -> 0 <= j0 ->
  maxs_store i j x maxs = Normal maxs' ->
  length maxs' = length maxs /\
  (i = i0 -> j = j0 -> entry maxs' i0 j0 = Normal x) /\
  (~ (i = i0 /\ j = j0) -> entry maxs i0 j0 = Normal z ->
   entry maxs' i0 j0 = Normal z).
Proof.
  intros Hi Hj Hi0 Hj0. unfold maxs_store.
  destruct (vec_at maxs i) as [row| | |] eqn:Hrow; cbn [bind];
    try discriminate.
  destruct (vec_at row j) as [y| | |] eqn:Hy; cbn [bind]; try discriminate.
  intros H. injection H as <-.
  split; [apply list_set_length|]. split.
  - intros <- <-. rewrite (vec_at_list_set_same i _ row maxs Hrow).
    cbn [bind]. exact (vec_at_list_set_same j x y row Hy).
  - intros Hne Hz. destruct (Z.eq_dec i i0) as [<- | Hi'].
    + rewrite (vec_at_list_set_same i _ row maxs Hrow). cbn [bind].
      rewrite Hrow in Hz. cbn [bind] in Hz.
      rewrite vec_at_list_set_other by lia. exact Hz.
    + rewrite vec_at_list_set_other by lia. exact Hz.
Qed.

Lemma maxs_resize_row_entry (i n i0 j0 : Z) (z : spec_float)
  (maxs maxs' : list (list spec_float)) :
  0 <= i -> 0 <= i0 -> i <> i0 ->
  maxs_resize_row i n maxs = Normal maxs' ->
  entry maxs i0 j0 = Normal z -> entry maxs' i0 j0 = Normal z.
Proof.
  intros Hi Hi0 Hne. unfold maxs_resize_row.
  destruct (vec_at maxs i) as [row| | |]; cbn [bind]; try discriminate.
  intros H. injection H as <-.
  rewrite vec_at_list_set_other by lia. intros Hz. exact Hz.
Qed.

(** After the first pair of loops, the entry of a cell whose bins are all
    zero is zero. *)
Lemma hist_maxima_flat (h : @HOG spec_float) (i0 j0 : Z) (n : nat)
  (maxs : list (list spec_float)) (mx : spec_float) :
  0 <= i0 < _n_cells_y h -> 0 <= j0 < _n_cells_x h ->
  cell_at h i0 j0 = Normal (repeat zero32 (S n)) ->
  hist_maxima h = Normal (maxs, mx) ->
  entry maxs i0 j0 = Normal zero32.
Proof.
  intros Hi0 Hj0 Hcell H. unfold hist_maxima in H.
  pose (P := fun (i : Z) (st : list (list spec_float) * spec_float) =>
    i0 < i -> entry (fst st) i0 j0 = Normal zero32).
  assert (HP : P (_n_cells_y h) (maxs, mx)).
  { revert H. apply (for_each_zrange_invariant P); [|lia|intros Hlt; lia].
    intros i st st' Hi Hst Hbody Hlt.
    destruct (maxs_resize_row i (_n_cells_x h) (fst st))
      as [m1| | |] eqn:Hres; cbn [bind] in Hbody; try discriminate.
    pose (Q := fun (j : Z) (s : list (list spec_float) * spec_float) =>
      (i0 < i -> entry (fst s) i0 j0 = Normal zero32) /\
      (i = i0 -> j0 < j -> entry (fst s) i0 j0 = Normal zero32)).
    assert (HQ : Q (_n_cells_x h) st').
    { revert Hbody. apply (for_each_zrange_invariant Q); [|lia|].
      - intros j s s' Hj [Hs1 Hs2] Hb.
        destruct (cell_at h i j) as [ch| | |] eqn:Hch; cbn [bind] in Hb;
          try discriminate.
        destruct (max_element ch) as [cm| | |] eqn:Hcm; cbn [bind] in Hb;
          try discriminate.
        destruct (maxs_store i j cm (fst s)) as [m2| | |] eqn:Hst2;
          cbn [bind] in Hb; try discriminate.
        injection Hb as <-. cbn [fst].
        destruct (maxs_store_entry i j i0 j0 cm zero32 (fst s) m2)
          as (_ & Hsame & Hother); try lia; [exact Hst2|].
        split.
        + intros Hlt'. apply Hother; [lia|]. apply Hs1. exact Hlt'.
        + intros Hii Hjj. destruct (Z.eq_dec j j0) as [Hjeq | Hjne].
          * subst i j. rewrite Hcell in Hch. injection Hch as Hch. subst ch.
            assert (E : Normal cm = Normal zero32)
              by (rewrite <- Hcm; exact (max_element_zeros n)).
            injection E as ->. apply Hsame; reflexivity.
          * apply Hother; [lia|]. apply Hs2; [exact Hii|lia].
      - split; cbn [fst].
        + intros Hlt'.
          apply (maxs_resize_row_entry i (_n_cells_x h) i0 j0 zero32 (fst st));
            [lia|lia|lia|exact Hres|]. apply Hst. exact Hlt'.
        + intros _ Hneg. lia. }
    destruct HQ as [HQ1 HQ2].
    destruct (Z.eq_dec i i0) as [Heq | Hne].
    - apply HQ2; [exact Heq|lia].
    - apply HQ1. lia. }
  apply HP. lia.
Qed.

Lemma cast_int_nan : cast_int S754_nan = Undefined float_to_int_out_of_range.
Proof. reflexivity. Qed.

(** The arrows of a cell whose bins are all zero: the length of the first
    is the conversion of a NaN. *)
Lemma arrow_length_flat (h : @HOG spec_float) :
  arrow_length h zero32 zero32 = Undefined float_to_int_out_of_range.
Proof.
  unfold arrow_length.
  replace (SFdiv Binary32.prec Binary32.emax zero32 zero32) with S754_nan
    by (vm_compute; reflexivity).
  destruct (Binary32.of_Z (_cellsize h)); reflexivity.
Qed.

Lemma color_magnitude_flat (mx : spec_float) :
  color_magnitude zero32 mx = Normal 0 \/
  color_magnitude zero32 mx = Undefined float_to_int_out_of_range.
Proof.
  unfold color_magnitude.
  destruct mx as [s|s| |s m e].
  - right. destruct s; vm_compute; reflexivity.
  - left. destruct s; vm_compute; reflexivity.
  - right. vm_compute. reflexivity.
  - left. destruct s; vm_compute; reflexivity.
Qed.

Lemma draw_cell_flat (h : @HOG spec_float)
  (maxs : list (list spec_float)) (mx : spec_float) (thickness i0 j0 : Z)
  (n : nat) (vector_mask : Canvas) :
  cell_at h i0 j0 = Normal (repeat zero32 (S n)) ->
  entry maxs i0 j0 = Normal zero32 ->
  draw_cell Canvas cv_line cos sin h maxs mx thickness i0 j0 vector_mask
  = Undefined float_to_int_out_of_range.
Proof.
  intros Hcell Hentry. unfold draw_cell. rewrite Hcell. cbn [bind].
  destruct (vec_at maxs i0) as [row| | |]; cbn [bind] in Hentry |- *;
    try discriminate.
  rewrite Hentry. cbn [bind].
  destruct (color_magnitude_flat mx) as [-> | ->]; cbn [bind];
    [|reflexivity].
  rewrite repeat_length.
  rewrite zrange_cons by lia. cbn [for_each].
  change (vec_at (repeat zero32 (S n)) 0) with (Normal zero32).
  cbn [bind]. rewrite arrow_length_flat. reflexivity.
Qed.


End VectorMaskFlat.


(** ** The bins of the default configuration, in single precision *)

Lemma float_same_eq (x y : spec_float) : float_same x y = true -> x = y.
Proof.
  destruct x as [a|a| |a m e], y as [b|b| |b m' e']; cbn [float_same];
    try discriminate; try reflexivity.
  - intros H. apply Bool.eqb_prop in H. congruence.
  - intros H. apply Bool.eqb_prop in H. congruence.
  - intros H. apply andb_true_iff in H. destruct H as [H He].
    apply andb_true_iff in H. destruct H as [Ha Hm].
    apply Bool.eqb_prop in Ha. apply Pos.eqb_eq in Hm. apply Z.eqb_eq in He.
    congruence.
Qed.

Lemma divisors_exact_180 : divisors_exact 180 = true.
Proof. vm_compute. reflexivity. Qed.

Lemma divisors_exact_360 : divisors_exact 360 = true.
Proof. vm_compute. reflexivity. Qed.

Lemma bin_width_is_exact (h : @HOG spec_float) :
  constructed h -> _grad_type h mod _binning h = 0 ->
  @f_div spec_float binary32 (f_of_Z (_grad_type h)) (f_of_Z (_binning h))
  = f_of_Z (_bin_width h) /\
  2 <= _binning h <= 360.
Proof.
  intros ((_ & _ & Hn & Hg & _) & Hbw & _) Hdiv.
  unfold GRADIENT_UNSIGNED, GRADIENT_SIGNED in Hg.
  pose proof (Z.div_mod (_grad_type h) (_binning h) ltac:(lia)) as Hdm.
  rewrite Hdiv in Hdm.
  assert (Hq : 1 <= _grad_type h / _binning h) by nia.
  assert (Hle : _binning h <= _grad_type h) by nia.
  split; [|lia].
  rewrite Hbw. apply float_same_eq.
  assert (Hall : divisors_exact (_grad_type h) = true)
    by (destruct Hg as [-> | ->];
        [exact divisors_exact_180|exact divisors_exact_360]).
  unfold divisors_exact in Hall. rewrite forallb_forall in Hall.
  specialize (Hall (_binning h)). rewrite Hdiv in Hall.
  apply Hall. apply zrange_In. lia.
Qed.

(** X19: in single precision, for a constructed object whose bin count
    divides the gradient range, the default of nine bins included,
    [process_cell] computes the magnitude-weighted voting that divides the
    orientation by the floating-point quotient of the range by the bin
    count: the integer [_bin_width] loses nothing, and the two return the
    same histogram, or fail, on the same cells. *)
Theorem process_cell_is_weighted_voting_when_bins_divide
  (h : @HOG spec_float) (cell_mag cell_ori : Mat spec_float)
  (d_mag d_ori : Z -> Z -> spec_float) (v : list spec_float) :
  constructed h ->
  _grad_type h mod _binning h = 0 ->
  data cell_mag = Some d_mag -> data cell_ori = Some d_ori ->
  (process_cell h cell_mag cell_ori = Normal v <->
   @spec_cell_hist spec_float binary32 (_grad_type h) (_binning h)
     (cell_pixels cell_mag d_mag d_ori)
     (repeat zero (Z.to_nat (_binning h))) = Some v).
Proof.
  intros Hc Hdiv Hmag Hori.
  destruct (bin_width_is_exact h Hc Hdiv) as [Hexact Hn].
  apply (process_cell_agrees_when_exact h cell_mag cell_ori d_mag d_ori v);
    try assumption.
  - exact binary32_to_int_range.
  - unfold int_max. lia.
Qed.

Lemma process_cell_is_weighted_voting_when_bins_divide_witness :
  constructed Demo.fresh /\
  _grad_type Demo.fresh mod _binning Demo.fresh = 0 /\
  data (Demo.one_pixel 1) = Some (fun _ _ => Binary32.of_Z 1) /\
  data (Demo.one_pixel 179) = Some (fun _ _ => Binary32.of_Z 179) /\
  (process_cell Demo.fresh (Demo.one_pixel 1) (Demo.one_pixel 179)
   = Normal (repeat zero 8 ++ [Binary32.of_Z 1]) <->
   @spec_cell_hist spec_float binary32 (_grad_type Demo.fresh)
     (_binning Demo.fresh)
     (cell_pixels (Demo.one_pixel 1) (fun _ _ => Binary32.of_Z 1)
        (fun _ _ => Binary32.of_Z 179))
     (repeat zero (Z.to_nat (_binning Demo.fresh)))
   = Some (repeat zero 8 ++ [Binary32.of_Z 1])).
Proof.
  split; [exact demo_constructed|].
  split; [reflexivity|]. split; [reflexivity|]. split; [reflexivity|].
  exact (process_cell_is_weighted_voting_when_bins_divide Demo.fresh
           (Demo.one_pixel 1) (Demo.one_pixel 179) _ _ _
           demo_constructed eq_refl eq_refl eq_refl).
Defined.

(** ** What the calls report *)

Section Reports.
Context {TType : Type} {ops : TTypeOps TType}.
Implicit Types (h : @HOG TType).

(** X20: the outcome of the constructor with all parameters.  A bin count
    or a cell size of zero is a division by zero in the member
    initialisers.  Otherwise the constructor reports the first violated
    constraint, in the order block size, bin count, gradient type, block
    multiple of the cell, stride multiple of the cell, and returns the
    object when none is violated.  The message about the cell size is
    never the one thrown. *)
Theorem HOG_ctor_reports_first_violation (b c s n g : Z)
  (block_norm : @THist TType -> @THist TType) :
  0 <= c -> 0 <= n ->
  (n = 0 \/ c = 0 ->
   HOG_ctor b c s n g block_norm = Undefined division_by_zero) /\
  (n <> 0 -> c <> 0 ->
   HOG_ctor b c s n g block_norm =
   if b <? 2 then
     Throw (runtime_error "HOG::HOG(): blocksize must be at least 2 pixels!")
   else if n <? 2 then
     Throw (runtime_error
       "HOG::HOG(): binning should at least be greater or equal to 2!")
   else if negb (g =? 180) && negb (g =? 360) then
     Throw (runtime_error
       "HOG::HOG(): grad_type entered doesn't match the default identifiers!")
   else if negb (b mod c =? 0) then
     Throw (runtime_error
       "HOG::HOG(): blocksize must be a multiple of cellsize!")
   else if negb (s mod c =? 0) then
     Throw (runtime_error
       "HOG::HOG(): stride must be a multiple of cellsize!")
   else
     Normal (mkHOG b c s g n (g / n) (b / c) (b / c)
               (to_size_t (b / c * (b / c)))
               (to_size_t (n * to_size_t (b / c * (b / c))))
               (s / c) block_norm 0 0 Mat_empty Mat_empty [])) /\
  HOG_ctor b c s n g block_norm
  <> Throw (runtime_error "HOG::HOG(): cellsize must be at least 1 pixels!").
Proof.
  intros Hc Hn.
  assert (Hzero : n = 0 \/ c = 0 ->
                  HOG_ctor b c s n g block_norm = Undefined division_by_zero).
  { intros Hz. unfold HOG_ctor, size_div.
    destruct (n =? 0) eqn:En; [reflexivity|].
    replace (c =? 0) with true by lia. reflexivity. }
  assert (Hcascade : n <> 0 -> c <> 0 ->
    HOG_ctor b c s n g block_norm =
    if b <? 2 then
      Throw (runtime_error "HOG::HOG(): blocksize must be at least 2 pixels!")
    else if n <? 2 then
      Throw (runtime_error
        "HOG::HOG(): binning should at least be greater or equal to 2!")
    else if negb (g =? 180) && negb (g =? 360) then
      Throw (runtime_error
        "HOG::HOG(): grad_type entered doesn't match the default identifiers!")
    else if negb (b mod c =? 0) then
      Throw (runtime_error
        "HOG::HOG(): blocksize must be a multiple of cellsize!")
    else if negb (s mod c =? 0) then
      Throw (runtime_error
        "HOG::HOG(): stride must be a multiple of cellsize!")
    else
      Normal (mkHOG b c s g n (g / n) (b / c) (b / c)
                (to_size_t (b / c * (b / c)))
                (to_size_t (n * to_size_t (b / c * (b / c))))
                (s / c) block_norm 0 0 Mat_empty Mat_empty [])).
  { intros Hn0 Hc0. unfold HOG_ctor, size_div, check_ctor_params, size_mod,
      throw_if, GRADIENT_UNSIGNED, GRADIENT_SIGNED.
    replace (n =? 0) with false by lia.
    replace (c =? 0) with false by lia.
    replace (c <? 1) with false by lia. cbn [bind].
    destruct (b <? 2); cbn [bind]; [reflexivity|].
    destruct (n <? 2); cbn [bind]; [reflexivity|].
    destruct (negb (g =? 180) && negb (g =? 360)); cbn [bind]; [reflexivity|].
    destruct (negb (b mod c =? 0)); cbn [bind]; [reflexivity|].
    destruct (negb (s mod c =? 0)); cbn [bind]; reflexivity. }
  split; [exact Hzero|]. split; [exact Hcascade|].
  destruct (Z.eq_dec n 0) as [En | En];
    [rewrite Hzero by (left; exact En); discriminate|].
  destruct (Z.eq_dec c 0) as [Ec | Ec];
    [rewrite Hzero by (right; exact Ec); discriminate|].
  rewrite (Hcascade En Ec).
  destruct (b <? 2); [discriminate|].
  destruct (n <? 2); [discriminate|].
  destruct (negb (g =? 180) && negb (g =? 360)); [discriminate|].
  destruct (negb (b mod c =? 0)); [discriminate|].
  destruct (negb (s mod c =? 0)); discriminate.
Qed.

End Reports.

Lemma HOG_ctor_reports_first_violation_witness :
  0 <= 16 /\ 0 <= 1 /\
  @HOG_ctor spec_float 31 16 8 1 90 L2hys
  = Throw (runtime_error
      "HOG::HOG(): binning should at least be greater or equal to 2!").
Proof.
  split; [lia|]. split; [lia|].
  destruct (HOG_ctor_reports_first_violation 31 16 8 1 90
              (@L2hys spec_float binary32) ltac:(lia) ltac:(lia))
    as (_ & H & _).
  exact (H ltac:(lia) ltac:(lia)).
Defined.

Lemma for_each_throws {I A : Type} (P : exn -> Prop)
  (body : I -> A -> outcome A) (l : list I) :
  (forall i a e, body i a = Throw e -> P e) ->
  forall a e, for_each l body a = Throw e -> P e.
Proof.
  intros Hbody. induction l as [|i l IH]; intros a e H; cbn in H.
  - discriminate.
  - destruct (body i a) as [a'|e'| |] eqn:Hb; cbn [bind] in H;
      try discriminate.
    + exact (IH a' e H).
    + injection H as <-. exact (Hbody i a e' Hb).
Qed.

Lemma for_each_st_throws {I S : Type} (P : exn -> Prop)
  (body : I -> S -> outcome unit * S) (l : list I) :
  (forall i s e, fst (body i s) = Throw e -> P e) ->
  forall s e, fst (for_each_st l body s) = Throw e -> P e.
Proof.
  intros Hbody. induction l as [|i l IH]; intros s e H; cbn in H.
  - discriminate.
  - destruct (body i s) as [[[]|e'|u|] s'] eqn:Hb; cbn [fst] in H;
      try discriminate.
    + exact (IH s' e H).
    + injection H as <-. apply (Hbody i s e'). rewrite Hb. reflexivity.
Qed.

(** ** What [process] throws *)

Section ProcessReports.
Context {TType : Type} {ops : TTypeOps TType}.
Variable Pixel : Type.
Variable cv_gradient : Mat Pixel -> Mat TType * Mat TType.
Implicit Types (h : @HOG TType).

Lemma vote_throws h o m v e : vote h o m v = Throw e -> e = out_of_range.
Proof.
  unfold vote, at_add. destruct (f_to_int _); [|discriminate].
  destruct (_ <? _); [discriminate|]. congruence.
Qed.

Lemma process_cell_throws h cell_mag cell_ori e :
  process_cell h cell_mag cell_ori = Throw e -> e = out_of_range.
Proof.
  unfold process_cell. destruct (_ =? _).
  - apply (for_each_throws (fun e => e = out_of_range)). intros i a e'.
    apply (for_each_throws (fun e => e = out_of_range)).
    intros j a' e''. unfold Mat_at.
    destruct (data cell_ori); [|discriminate].
    destruct (data cell_mag); [|discriminate]. cbn [bind].
    apply vote_throws.
  - apply (for_each_throws (fun e => e = out_of_range)). intros i a e'.
    apply (for_each_throws (fun e => e = out_of_range)).
    intros j a' e''. unfold Mat_at.
    destruct (data cell_ori); [|discriminate].
    destruct (data cell_mag); [|discriminate]. cbn [bind].
    apply vote_throws.
Qed.

Lemma cell_hist_of_throws h i j e :
  cell_hist_of h i j = Throw e -> e = out_of_range \/ e = cv_exception.
Proof.
  unfold cell_hist_of.
  destruct (Mat_roi (mag h) (cell_rect h i j)) as [cm|e1|u1|] eqn:Hm;
    cbn [bind]; try discriminate.
  2:{ unfold Mat_roi in Hm. destruct (_ && _) in Hm; [discriminate|].
      intros H. right. congruence. }
  destruct (Mat_roi (ori h) (cell_rect h i j)) as [co|e2|u2|] eqn:Ho;
    cbn [bind]; try discriminate.
  2:{ unfold Mat_roi in Ho. destruct (_ && _) in Ho; [discriminate|].
      intros H. right. congruence. }
  intros H. left. exact (process_cell_throws _ _ _ _ H).
Qed.

Lemma process_one_throws i j h e :
  fst (process_one i j h) = Throw e -> e = out_of_range \/ e = cv_exception.
Proof.
  unfold process_one, store_cell.
  destruct (cell_hist_of h i j) as [v|e'|u|] eqn:Hc.
  - destruct (_ <? _); [|discriminate].
    destruct (_ <? _); discriminate.
  - cbn. intros H. assert (e = e') as -> by congruence.
    exact (cell_hist_of_throws _ _ _ _ Hc).
  - discriminate.
  - discriminate.
Qed.

Lemma process_row_throws i h e :
  fst (process_row i h) = Throw e -> (e = out_of_range \/ e = cv_exception).
Proof.
  unfold process_row, resize_row.
  destruct (_ <? _); [|discriminate].
  apply (for_each_st_throws (fun e => e = out_of_range \/ e = cv_exception)).
  intros j s e'. apply process_one_throws.
Qed.

(** X21: [process] throws its invalid-image error for an image without
    data, whatever its dimensions, and its too-small error for an image
    with data and fewer rows or columns than the block size; it throws a
    [std::runtime_error] in these two cases only.  Anything else it
    throws comes from the cell pass: [std::out_of_range] from the vote, or
    [cv::Exception] from a cell rectangle outside the gradient maps. *)
Theorem process_reports (img : Mat Pixel) h :
  (data img = None -> process cv_gradient img h = (Throw invalid_image, h)) /\
  (data img <> None ->
   to_size_t (rows img) < _blocksize h \/ to_size_t (cols img) < _blocksize h ->
   process cv_gradient img h = (Throw image_too_small, h)) /\
  (forall what, fst (process cv_gradient img h) = Throw (runtime_error what) ->
   (data img = None /\ runtime_error what = invalid_image) \/
   (data img <> None /\
    (to_size_t (rows img) < _blocksize h \/
     to_size_t (cols img) < _blocksize h) /\
    runtime_error what = image_too_small)) /\
  (forall e, fst (process cv_gradient img h) = Throw e ->
   e = invalid_image \/ e = image_too_small \/
   e = out_of_range \/ e = cv_exception).
Proof.
  unfold process.
  destruct (data img) as [d|] eqn:Hd.
  - destruct ((to_size_t (rows img) <? _blocksize h)
              || (to_size_t (cols img) <? _blocksize h)) eqn:Hs.
    + split; [discriminate|]. split; [reflexivity|].
      split.
      * intros what H. right. split; [discriminate|].
        split; [apply orb_true_iff in Hs; lia|]. cbn in H. congruence.
      * intros e H. cbn in H. injection H as <-. right. left. reflexivity.
    + split; [discriminate|]. split.
      * intros _ Hlt. apply orb_false_iff in Hs. lia.
      * fold (prepared cv_gradient img h).
        assert (Hpass : forall e,
                  fst (for_each_st
                         (zrange 0 (_n_cells_y
                            (set_cell_hists
                               (resize
                                  (Z.to_nat
                                     (_n_cells_y (prepared cv_gradient img h)))
                                  [] (_cell_hists (prepared cv_gradient img h)))
                               (prepared cv_gradient img h))))
                         process_row
                         (set_cell_hists
                            (resize
                               (Z.to_nat
                                  (_n_cells_y (prepared cv_gradient img h)))
                               [] (_cell_hists (prepared cv_gradient img h)))
                            (prepared cv_gradient img h))) = Throw e ->
                  e = out_of_range \/ e = cv_exception).
        { apply (for_each_st_throws
                   (fun e => e = out_of_range \/ e = cv_exception)).
          intros i s e'. apply process_row_throws. }
        split.
        -- intros what H. apply Hpass in H. destruct H; discriminate.
        -- intros e H. apply Hpass in H. destruct H; auto.
  - split; [reflexivity|]. split; [congruence|]. split.
    + intros what H. left. split; [reflexivity|]. cbn in H. congruence.
    + intros e H. cbn in H. injection H as <-. left. reflexivity.
Qed.

End ProcessReports.

(** ** Windows of negative extent *)

Lemma to_size_t_negative_int (z : Z) :
  is_int z -> z < 0 -> to_size_t z = z + 2 ^ 64.
Proof.
  unfold is_int, int_min, to_size_t, size_t_modulus. intros Hz Hneg.
  symmetry. apply (Z.mod_unique_pos _ _ (-1)); lia.
Qed.

Section NegativeExtent.
Context {TType : Type} {ops : TTypeOps TType}.
Implicit Types (h : @HOG TType).

Lemma extent_not_small h (v : Z) :
  constructed h -> _blocksize h <= int_max ->
  is_int v -> v < 0 \/ _blocksize h <= v ->
  (to_size_t v <? _blocksize h) = false.
Proof.
  intros ((Hb2 & _) & _) Hb Hv Hcase. pose proof Hv as Hv'.
  unfold is_int, int_min, int_max in Hv', Hb.
  destruct (Z_lt_dec v 0) as [Hneg | Hpos].
  - rewrite (to_size_t_negative_int v Hv Hneg).
    destruct Hcase as [_ | Hle]; lia.
  - rewrite (to_size_t_id v) by (unfold is_size_t, size_t_modulus; lia).
    lia.
Qed.

(** X22: the size check of [retrieve] compares the width and the height
    as [size_t]: a negative extent counts as a large one.  A window whose
    width and height are each negative or at least the block size, and
    that passes the bounds check, is not rejected: [retrieve] throws
    nothing on it. *)
Theorem retrieve_takes_negative_extent_for_large h (window : Rect)
  (fuel : nat) :
  constructed h -> _blocksize h <= int_max -> Rect_wf window ->
  rect_width window < 0 \/ _blocksize h <= rect_width window ->
  rect_height window < 0 \/ _blocksize h <= rect_height window ->
  rect_x window + rect_width window <= cols (mag h) ->
  rect_y window + rect_height window <= rows (mag h) ->
  forall e, retrieve_result fuel window h <> Throw e.
Proof.
  intros Hc Hb (Hx & Hy & Hw & Hh) Hwidth Hheight Hcols Hrows e.
  unfold retrieve_result.
  rewrite (extent_not_small h _ Hc Hb Hh Hheight),
    (extent_not_small h _ Hc Hb Hw Hwidth).
  cbn [orb]. unfold int_sub.
  destruct ((int_min <=? cols (mag h) - rect_width window)
            && (cols (mag h) - rect_width window <=? int_max));
    cbn [bind]; [|discriminate].
  replace (rect_x window >? cols (mag h) - rect_width window)
    with false by lia.
  destruct ((int_min <=? rows (mag h) - rect_height window)
            && (rows (mag h) - rect_height window <=? int_max));
    cbn [bind]; [|discriminate].
  replace (rect_y window >? rows (mag h) - rect_height window)
    with false by lia.
  apply loop_block_y_no_throw.
Qed.

End NegativeExtent.

Lemma retrieve_takes_negative_extent_for_large_witness :
  constructed Demo.processed /\
  _blocksize Demo.processed <= int_max /\
  Rect_wf (mkRect 0 0 2 (-1)) /\
  (rect_width (mkRect 0 0 2 (-1)) < 0 \/
   _blocksize Demo.processed <= rect_width (mkRect 0 0 2 (-1))) /\
  (rect_height (mkRect 0 0 2 (-1)) < 0 \/
   _blocksize Demo.processed <= rect_height (mkRect 0 0 2 (-1))) /\
  rect_x (mkRect 0 0 2 (-1)) + rect_width (mkRect 0 0 2 (-1))
  <= cols (mag Demo.processed) /\
  rect_y (mkRect 0 0 2 (-1)) + rect_height (mkRect 0 0 2 (-1))
  <= rows (mag Demo.processed) /\
  (forall e, retrieve_result 9 (mkRect 0 0 2 (-1)) Demo.processed <> Throw e) /\
  retrieve_result 9 (mkRect 0 0 2 (-1)) Demo.processed
  = Undefined index_out_of_bounds.
Proof.
  assert (Hwf : Rect_wf (mkRect 0 0 2 (-1)))
    by (unfold Rect_wf, is_int, int_min, int_max; cbn; lia).
  assert (Hw : rect_width (mkRect 0 0 2 (-1)) < 0 \/
               _blocksize Demo.processed <= rect_width (mkRect 0 0 2 (-1)))
    by (right; vm_compute; discriminate).
  assert (Hh : rect_height (mkRect 0 0 2 (-1)) < 0 \/
               _blocksize Demo.processed <= rect_height (mkRect 0 0 2 (-1)))
    by (left; reflexivity).
  assert (Hc : rect_x (mkRect 0 0 2 (-1)) + rect_width (mkRect 0 0 2 (-1))
               <= cols (mag Demo.processed))
    by (vm_compute; discriminate).
  assert (Hr : rect_y (mkRect 0 0 2 (-1)) + rect_height (mkRect 0 0 2 (-1))
               <= rows (mag Demo.processed))
    by (vm_compute; discriminate).
  assert (Hb : _blocksize Demo.processed <= int_max)
    by (vm_compute; discriminate).
  split; [exact demo_processed_constructed|]. split; [exact Hb|].
  split; [exact Hwf|]. split; [exact Hw|]. split; [exact Hh|].
  split; [exact Hc|]. split; [exact Hr|].
  split.
  - exact (retrieve_takes_negative_extent_for_large Demo.processed
             (mkRect 0 0 2 (-1)) 9 demo_processed_constructed Hb Hwf Hw Hh Hc Hr).
  - vm_compute. reflexivity.
Defined.

(** ** The further properties at the small sessions *)

Lemma size_t_32 : is_size_t 32.
Proof. unfold is_size_t, size_t_modulus. lia. Qed.

Lemma HOG_ctor1_outcome_witness :
  is_size_t 32 /\
  @HOG_ctor1 spec_float 32 L2hys
  = Normal (mkHOG 32 16 16 GRADIENT_UNSIGNED 9 20 2 2 4 36 1 L2hys 0 0
              Mat_empty Mat_empty []).
Proof.
  split; [exact size_t_32|].
  destruct (HOG_ctor1_outcome 32 (@L2hys spec_float binary32) size_t_32)
    as (_ & He & _).
  exact (He ltac:(lia) eq_refl).
Defined.

Lemma HOG_ctor2_outcome_witness :
  2 <= 32 /\ 1 <= 32 /\
  @HOG_ctor2 spec_float 32 32 L2hys
  = Throw (runtime_error "HOG::HOG(): stride must be a multiple of cellsize!").
Proof.
  split; [lia|]. split; [lia|].
  destruct (HOG_ctor2_outcome 32 32 (@L2hys spec_float binary32)
              ltac:(lia) ltac:(lia)) as (_ & _ & _ & He).
  exact (He eq_refl).
Defined.

Lemma constructed_stride_is_whole_cells_witness :
  0 <= 32 /\
  @HOG_ctor spec_float 32 16 32 9 GRADIENT_UNSIGNED L2hys
  = Normal (mkHOG 32 16 32 180 9 20 2 2 4 36 2 L2hys 0 0
              Mat_empty Mat_empty []) /\
  32 = 2 * 16 /\ (32 = 0 \/ 16 <= 32).
Proof.
  split; [lia|]. split; [reflexivity|].
  destruct (constructed_stride_is_whole_cells 32 16 32 9 GRADIENT_UNSIGNED
              (@L2hys spec_float binary32)
              (mkHOG 32 16 32 180 9 20 2 2 4 36 2 L2hys 0 0
                 Mat_empty Mat_empty [])
              ltac:(lia) eq_refl) as (H1 & H2 & _).
  split; [exact H1|exact H2].
Defined.


(** *** The small session *)

Lemma demo_d_mag :
  data (fst (Demo.gradient Demo.image))
  = Some (fun i j => Binary32.of_Z (i + j)).
Proof. reflexivity. Qed.

Lemma demo_d_ori :
  data (snd (Demo.gradient Demo.image))
  = Some (fun i j => Binary32.of_Z (20 * (i + j) + 10)).
Proof. reflexivity. Qed.

Lemma demo_image_data : data Demo.image <> None.
Proof. discriminate. Qed.

Lemma demo_image_rows : 2 <= to_size_t (rows Demo.image).
Proof. vm_compute. discriminate. Qed.

Lemma demo_image_cols : 2 <= to_size_t (cols Demo.image).
Proof. vm_compute. discriminate. Qed.

Lemma demo_votes_in_range :
  votes_in_range Demo.fresh (snd (Demo.gradient Demo.image))
    (fun i j => Binary32.of_Z (20 * (i + j) + 10)).
Proof.
  intros i j Hi Hj.
  change (rows (snd (Demo.gradient Demo.image))) with 4 in Hi.
  change (cols (snd (Demo.gradient Demo.image))) with 4 in Hj.
  assert (Hs : i + j = 0 \/ i + j = 1 \/ i + j = 2 \/ i + j = 3 \/
               i + j = 4 \/ i + j = 5 \/ i + j = 6) by lia.
  destruct Hs as [E | [E | [E | [E | [E | [E | E]]]]]]; rewrite E;
    eexists;
    (split; [vm_compute; reflexivity|change (_binning Demo.fresh) with 9; lia]).
Qed.

Lemma process_builds_complete_grid_witness :
  constructed Demo.fresh /\
  Mat_wf (fst (Demo.gradient Demo.image)) /\
  process Demo.gradient Demo.image Demo.fresh = (Normal tt, Demo.processed) /\
  _n_cells_y Demo.processed
  = rows (mag Demo.processed) / _cellsize Demo.processed /\
  Z.of_nat (length (_cell_hists Demo.processed)) = _n_cells_y Demo.processed.
Proof.
  split; [exact demo_constructed|].
  split; [exact demo_gradient_wf|].
  split; [exact demo_process|].
  destruct (process_builds_complete_grid Demo.gradient Demo.image Demo.fresh
              Demo.processed demo_constructed demo_gradient_wf demo_process)
    as (_ & _ & H1 & _ & _ & _ & H2 & _).
  split; [exact H1|exact H2].
Defined.

Lemma process_commits_maps_before_cell_pass_witness :
  data Demo.image <> None /\
  _blocksize Demo.seven_bins <= to_size_t (rows Demo.image) /\
  _blocksize Demo.seven_bins <= to_size_t (cols Demo.image) /\
  process Demo.steep Demo.image Demo.seven_bins
  = (fst (process Demo.steep Demo.image Demo.seven_bins),
     snd (process Demo.steep Demo.image Demo.seven_bins)) /\
  fst (process Demo.steep Demo.image Demo.seven_bins) = Throw out_of_range /\
  get_magnitudes (snd (process Demo.steep Demo.image Demo.seven_bins))
  = fst (Demo.steep Demo.image) /\
  length (_cell_hists (snd (process Demo.steep Demo.image Demo.seven_bins)))
  = 4%nat.
Proof.
  assert (Hp : process Demo.steep Demo.image Demo.seven_bins
               = (fst (process Demo.steep Demo.image Demo.seven_bins),
                  snd (process Demo.steep Demo.image Demo.seven_bins)))
    by apply surjective_pairing.
  split; [exact demo_image_data|].
  split; [exact demo_image_rows|].
  split; [exact demo_image_cols|].
  split; [exact Hp|].
  split; [vm_compute; reflexivity|].
  destruct (process_commits_maps_before_cell_pass Demo.steep Demo.image
              Demo.seven_bins _ _ demo_image_data demo_image_rows
              demo_image_cols Hp) as (H1 & _ & H2 & _ & H3 & _).
  split; [exact H1|].
  rewrite H3, H2. reflexivity.
Defined.

Lemma process_returns_witness :
  constructed Demo.fresh /\
  data Demo.image <> None /\
  _blocksize Demo.fresh <= to_size_t (rows Demo.image) /\
  _blocksize Demo.fresh <= to_size_t (cols Demo.image) /\
  Mat_wf (fst (Demo.gradient Demo.image)) /\
  rows (snd (Demo.gradient Demo.image)) = rows (fst (Demo.gradient Demo.image)) /\
  cols (snd (Demo.gradient Demo.image)) = cols (fst (Demo.gradient Demo.image)) /\
  data (fst (Demo.gradient Demo.image))
  = Some (fun i j => Binary32.of_Z (i + j)) /\
  data (snd (Demo.gradient Demo.image))
  = Some (fun i j => Binary32.of_Z (20 * (i + j) + 10)) /\
  votes_in_range Demo.fresh (snd (Demo.gradient Demo.image))
    (fun i j => Binary32.of_Z (20 * (i + j) + 10)) /\
  exists h, process Demo.gradient Demo.image Demo.fresh = (Normal tt, h).
Proof.
  split; [exact demo_constructed|].
  split; [exact demo_image_data|].
  split; [exact demo_image_rows|].
  split; [exact demo_image_cols|].
  split; [exact demo_gradient_wf|].
  split; [reflexivity|]. split; [reflexivity|].
  split; [exact demo_d_mag|]. split; [exact demo_d_ori|].
  split; [exact demo_votes_in_range|].
  exact (process_returns Demo.gradient Demo.image Demo.fresh _ _
           demo_constructed demo_image_data demo_image_rows demo_image_cols
           demo_gradient_wf eq_refl eq_refl demo_d_mag demo_d_ori
           demo_votes_in_range).
Defined.

(** *** The small session in exact arithmetic *)

Lemma exact_fresh_ctor :
  HOG_ctor 2 1 1 9 GRADIENT_UNSIGNED (@L2norm R ideal)
  = Normal Sample.exact_fresh.
Proof. reflexivity. Qed.

Lemma exact_constructed : constructed Sample.exact_fresh.
Proof. exact (HOG_ctor_constructed _ _ _ _ _ _ _ exact_fresh_ctor). Qed.

Lemma exact_gradient_wf : Mat_wf (fst (Sample.exact_gradient Demo.image)).
Proof.
  unfold Mat_wf, int_max, Sample.exact_gradient, Demo.image.
  cbn [fst rows cols]. lia.
Qed.

Lemma exact_d_mag :
  data (fst (Sample.exact_gradient Demo.image))
  = Some (fun i j => IZR (i + j)).
Proof. reflexivity. Qed.

Lemma exact_d_ori :
  data (snd (Sample.exact_gradient Demo.image))
  = Some (fun i j => IZR (20 * (i + j) + 10)).
Proof. reflexivity. Qed.

Lemma exact_orientations (i j : Z) :
  0 <= i < rows (snd (Sample.exact_gradient Demo.image)) ->
  0 <= j < cols (snd (Sample.exact_gradient Demo.image)) ->
  (0 <= IZR (20 * (i + j) + 10) < 360)%R.
Proof.
  change (rows (snd (Sample.exact_gradient Demo.image))) with 4.
  change (cols (snd (Sample.exact_gradient Demo.image))) with 4.
  intros Hi Hj. split; [apply (IZR_le 0)|apply (IZR_lt _ 360)]; lia.
Qed.



Lemma exact_process :
  process Sample.exact_gradient Demo.image Sample.exact_fresh
  = (Normal tt, Sample.exact_processed).
Proof.
  destruct (process_from_cells Sample.exact_gradient Demo.image
              Sample.exact_fresh demo_image_data demo_image_rows
              demo_image_cols) as [h Hh].
  - intros i j Hi Hj.
    destruct (prepared_cell_counts Sample.exact_gradient Demo.image
                Sample.exact_fresh exact_constructed exact_gradient_wf)
      as [Hny Hnx].
    rewrite Hny in Hi. rewrite Hnx in Hj.
    apply (cell_hist_of_total
             (prepared Sample.exact_gradient Demo.image Sample.exact_fresh)
             (fun i j => IZR (i + j)) (fun i j => IZR (20 * (i + j) + 10)));
      [apply exact_constructed|exact exact_gradient_wf|reflexivity
      |reflexivity|reflexivity|reflexivity| |exact Hi|exact Hj].
    intros y x Hy Hx.
    apply (ideal_bin_in_range Sample.exact_fresh);
      [exact exact_constructed|reflexivity|].
    apply exact_orientations; assumption.
  - unfold Sample.exact_processed. rewrite Hh. reflexivity.
Qed.


(** *** The session with a stride of zero *)

Lemma still_ctor :
  HOG_ctor 2 1 0 9 GRADIENT_UNSIGNED L2hys = Normal Sample.still.
Proof. reflexivity. Qed.

Lemma still_constructed : constructed Sample.still.
Proof. exact (HOG_ctor_constructed _ _ _ _ _ _ _ still_ctor). Qed.

Lemma still_process :
  process Demo.gradient Demo.image Sample.still
  = (Normal tt, Sample.still_processed).
Proof.
  unfold Sample.still_processed.
  rewrite (surjective_pairing (process Demo.gradient Demo.image Sample.still))
    at 1.
  apply f_equal2; [vm_compute; reflexivity|reflexivity].
Qed.

Lemma still_window_valid : valid_window Sample.still_processed Demo.window.
Proof.
  unfold valid_window, Demo.window.
  cbn [rect_x rect_y rect_width rect_height].
  change (cols (mag Sample.still_processed)) with 4.
  change (rows (mag Sample.still_processed)) with 4.
  change (_blocksize Sample.still_processed) with 2. lia.
Qed.

Lemma retrieve_spins_with_stride_zero_witness :
  constructed Sample.still /\
  _stride Sample.still = 0 /\
  Mat_wf (fst (Demo.gradient Demo.image)) /\
  process Demo.gradient Demo.image Sample.still
  = (Normal tt, Sample.still_processed) /\
  valid_window Sample.still_processed Demo.window /\
  HOG_ctor 2 1 0 9 GRADIENT_UNSIGNED L2hys = Normal Sample.still /\
  forall fuel,
    retrieve fuel Demo.window Sample.still_processed
    = (OutOfFuel, Sample.still_processed).
Proof.
  split; [exact still_constructed|].
  split; [reflexivity|].
  split; [exact demo_gradient_wf|].
  split; [exact still_process|].
  split; [exact still_window_valid|].
  split; [exact still_ctor|].
  exact (proj2 (retrieve_spins_with_stride_zero Demo.gradient Demo.image
                  Sample.still Sample.still_processed Demo.window
                  still_constructed eq_refl demo_gradient_wf still_process
                  still_window_valid)).
Defined.

(** *** Windows of the small session *)

Lemma retrieve_rounds_window_to_cells_witness :
  constructed Demo.processed /\ Mat_wf (mag Demo.processed) /\
  valid_window Demo.processed Demo.window /\
  valid_window Demo.processed (cell_aligned Demo.processed Demo.window) /\
  forall fuel,
    retrieve fuel (cell_aligned Demo.processed Demo.window) Demo.processed
    = retrieve fuel Demo.window Demo.processed.
Proof.
  split; [exact demo_processed_constructed|].
  split; [exact demo_processed_mag_wf|].
  split; [exact demo_window_valid|].
  destruct (retrieve_rounds_window_to_cells Demo.processed Demo.window
              demo_processed_constructed demo_processed_mag_wf
              demo_window_valid) as (H1 & H2 & _).
  split; [exact H1|exact H2].
Defined.

Lemma demo_two_rows_valid :
  valid_window Demo.processed (mkRect 0 0 2 (2 + _stride Demo.processed)).
Proof.
  unfold valid_window.
  cbn [rect_x rect_y rect_width rect_height].
  change (cols (mag Demo.processed)) with 4.
  change (rows (mag Demo.processed)) with 4.
  change (_blocksize Demo.processed) with 2.
  change (_stride Demo.processed) with 1. lia.
Qed.

Lemma demo_block_height : _blocksize Demo.processed <= 2.
Proof. change (_blocksize Demo.processed) with 2. lia. Qed.

Lemma retrieve_appends_block_rows_witness :
  constructed Demo.fresh /\
  0 < _stride Demo.fresh <= int_max /\
  Mat_wf (fst (Demo.gradient Demo.image)) /\
  process Demo.gradient Demo.image Demo.fresh = (Normal tt, Demo.processed) /\
  _blocksize Demo.processed <= 2 /\
  valid_window Demo.processed (mkRect 0 0 2 (2 + _stride Demo.processed)) /\
  exists v_top v_last,
    retrieve_returns (mkRect 0 0 2 2) Demo.processed v_top Demo.processed /\
    retrieve_returns
      (mkRect 0 (0 + n_blocks Demo.processed 2 * _stride Demo.processed) 2
         (_blocksize Demo.processed))
      Demo.processed v_last Demo.processed /\
    retrieve_returns (mkRect 0 0 2 (2 + _stride Demo.processed))
      Demo.processed (v_top ++ v_last) Demo.processed.
Proof.
  split; [exact demo_constructed|].
  split; [exact demo_stride_pos|].
  split; [exact demo_gradient_wf|].
  split; [exact demo_process|].
  split; [exact demo_block_height|].
  split; [exact demo_two_rows_valid|].
  exact (retrieve_appends_block_rows Demo.gradient Demo.image Demo.fresh
           Demo.processed 0 0 2 2 demo_constructed demo_stride_pos
           demo_gradient_wf demo_process demo_block_height
           demo_two_rows_valid).
Defined.

(** *** Two images that agree on a window *)

Lemma masked_process :
  process Demo.gradient Sample.image_masked Demo.fresh
  = (Normal tt, Sample.masked_processed).
Proof.
  unfold Sample.masked_processed.
  rewrite (surjective_pairing
             (process Demo.gradient Sample.image_masked Demo.fresh)) at 1.
  apply f_equal2; [vm_compute; reflexivity|reflexivity].
Qed.

Lemma masked_gradient_wf : Mat_wf (fst (Demo.gradient Sample.image_masked)).
Proof.
  unfold Mat_wf, int_max, Demo.gradient, Sample.image_masked.
  cbn [fst rows cols]. lia.
Qed.

Lemma corner_valid (h : @HOG spec_float) :
  _blocksize h = 2 -> cols (mag h) = 4 -> rows (mag h) = 4 ->
  valid_window h (mkRect 0 0 3 2).
Proof.
  intros Hb Hc Hr. unfold valid_window.
  cbn [rect_x rect_y rect_width rect_height]. lia.
Qed.

Lemma masked_agrees (y x : Z) :
  rect_y (cell_aligned Demo.fresh (mkRect 0 0 3 2)) <= y
  < rect_y (cell_aligned Demo.fresh (mkRect 0 0 3 2))
    + rect_height (cell_aligned Demo.fresh (mkRect 0 0 3 2)) ->
  rect_x (cell_aligned Demo.fresh (mkRect 0 0 3 2)) <= x
  < rect_x (cell_aligned Demo.fresh (mkRect 0 0 3 2))
    + rect_width (cell_aligned Demo.fresh (mkRect 0 0 3 2)) ->
  Binary32.of_Z (y + x)
  = Binary32.of_Z (if (y <? 2) && (x <? 3) then y + x else 0) /\
  Binary32.of_Z (20 * (y + x) + 10)
  = Binary32.of_Z (20 * (if (y <? 2) && (x <? 3) then y + x else 0) + 10).
Proof.
  unfold cell_aligned. cbn. intros Hy Hx.
  replace (y <? 2) with true by lia. replace (x <? 3) with true by lia.
  split; reflexivity.
Qed.


Lemma vote_undefined_on_non_finite_orientation_witness :
  (S754_nan = S754_nan \/ (exists s, S754_nan = S754_infinity s)) /\
  @vote spec_float binary32 Demo.fresh
    (effective_orientation Demo.fresh S754_nan) (Binary32.of_Z 1)
    (repeat zero 9)
  = Undefined float_to_int_out_of_range.
Proof.
  split; [left; reflexivity|].
  exact (vote_undefined_on_non_finite_orientation Demo.fresh S754_nan
           (Binary32.of_Z 1) (repeat zero 9) (or_introl eq_refl)).
Defined.

